(** * bladeball: interception solvers, resource bins and component lifecycle

    A shallow embedding of the two generations of the script
    (part_000: sphere solver, registry of balls; part_001: cylinder
    solver, single active ball) and the properties stated about them. *)

From Stdlib Require Import Floats.
From Stdlib Require Uint63.
From Stdlib Require Import ZArith Reals Lra Lia Bool.
From stdpp Require Import base option list strings gmap.

(** ** Numbers

    Luau numbers are IEEE binary64.  The arithmetic of the script is
    written once, over an interface [Number], and read at two instances:
    the real numbers, over which the properties are stated and proved, and
    binary64 floats, at which the same definitions are evaluated.

    The two instances differ by rounding and at a division by zero, where
    binary64 gives an infinity or a NaN (on which every comparison is
    false) and the reals instance gives [x / 0 = 0]. *)

Class Number (T : Type) := {
  lit : Z -> T;                  (* an integer literal of the source *)
  add : T -> T -> T;
  sub : T -> T -> T;
  mul : T -> T -> T;
  div : T -> T -> T;
  neg : T -> T;
  math_sqrt : T -> T;
  ltb : T -> T -> bool;          (* a < b *)
  leb : T -> T -> bool;          (* a <= b *)
}.

Declare Scope num_scope.
Delimit Scope num_scope with num.
Infix "+" := add : num_scope.
Infix "-" := sub : num_scope.
Infix "*" := mul : num_scope.
Infix "/" := div : num_scope.
Notation "- x" := (neg x) : num_scope.
Infix "<?" := ltb : num_scope.
Infix "<=?" := leb : num_scope.
Notation "a >? b" := (ltb b a) (at level 70, no associativity) : num_scope.

#[export] Instance R_Number : Number R := {|
  lit := IZR;
  add := Rplus;
  sub := Rminus;
  mul := Rmult;
  div := Rdiv;
  neg := Ropp;
  math_sqrt := R_sqrt.sqrt;
  ltb := fun a b => if Rlt_dec a b then true else false;
  leb := fun a b => if Rle_dec a b then true else false;
|}.

Definition float_of_Z (z : Z) : float :=
  match z with
  | Zneg p => PrimFloat.opp (PrimFloat.of_uint63 (Uint63.of_Z (Zpos p)))
  | _ => PrimFloat.of_uint63 (Uint63.of_Z z)
  end.

#[export] Instance float_Number : Number float := {|
  lit := float_of_Z;
  add := PrimFloat.add;
  sub := PrimFloat.sub;
  mul := PrimFloat.mul;
  div := PrimFloat.div;
  neg := PrimFloat.opp;
  math_sqrt := PrimFloat.sqrt;
  ltb := PrimFloat.ltb;
  leb := PrimFloat.leb;
|}.

(** ** The interception solvers *)

Module Solver.
Section Generic.
Context {T : Type} `{Number T}.
Local Open Scope num_scope.

(** [x ** 2] *)
Definition sq (x : T) : T := x * x.

(** The literal [0.5]. *)
Definition half : T := lit 1 / lit 2.

(** [math.max(a, b)]: keeps [a] unless [b] is greater. *)
Definition math_max (a b : T) : T := if b >? a then b else a.

(** part_000, [evaluateIntercept]. *)
Definition evaluateIntercept (x y z vx vy vz R : T) : option T :=
  let a := sq vx + sq vy + sq vz in
  let b := lit 2 * (vx * x + vy * y + vz * z) in
  let c := sq x + sq y + sq z - sq R in
  let discriminant := sq b - lit 4 * a * c in
  if discriminant <? lit 0 then None else
  let sqrtDiscriminant := math_sqrt discriminant in
  let denominator := lit 2 * a in
  let t0 := (- b - sqrtDiscriminant) / denominator in
  if t0 >? lit 0 then Some t0 else
  let t1 := (- b + sqrtDiscriminant) / denominator in
  if t1 >? lit 0 then Some t1 else
  None.

(** part_001, [evaluateCylindricalCollision], lines 119-127: the
    radius-first root [t0] with its acceptance test. *)
Definition radiusIntersect (y vy ay D t0 : T) : option T :=
  if t0 >? lit 0 then
    let height := y + vy * t0 + half * ay * sq t0 in
    if (- D <=? height) && (height <=? D) then Some t0 else None
  else None.

(** part_001, [evaluateCylindricalCollision], lines 129-148: the
    "height intersect calculations", entered with the radius-crossing
    candidate [t0]. *)
Definition heightIntersect (x y z vx vy vz ay R_sq D t0 : T) : option T :=
  let vy_sq := sq vy in
  let t1 : option T := None in
  let min := math_max t0 (lit 0) in
  let upper_discriminant := vy_sq + lit 2 * ay * (D - y) in
  let lower_discriminant := vy_sq - lit 2 * ay * (D + y) in
  let t1 :=
    if upper_discriminant >? lit 0 then
      let root := math_sqrt upper_discriminant in
      let t := (- vy - root) / ay in
      if t >? min then Some t else t1
    else t1 in
  let t1 :=
    if lower_discriminant >? lit 0 then
      let root := math_sqrt lower_discriminant in
      let t := (- vy + root) / ay in
      if (match t1 with Some t1' => t <? t1' | None => false end) || (t >? min)
      then Some t else t1
    else t1 in
  match t1 with
  | None => None
  | Some t1 =>
      let radius_sq := sq (x + vx * t1) + sq (z + vz * t1) in
      if radius_sq >? R_sq then None else Some t1
  end.

(** part_001, [evaluateCylindricalCollision]. *)
Definition evaluateCylindricalCollision (x y z vx vy vz ay R H : T) : option T :=
  let D := H / lit 2 in
  let R_sq := sq R in
  if (- D <=? y) && (y <=? D) && (sq x + sq z <=? R_sq) then Some (lit 0) else
  let vx_sq := sq vx in
  let vz_sq := sq vz in
  let vxz_magnitude_sq := vx_sq + vz_sq in
  let discriminant := R_sq * vxz_magnitude_sq - sq (vx * z - vz * x) in
  if discriminant <? lit 0 then None else
  let b := - vx * x - vz * z in
  let t0 := (b - math_sqrt discriminant) / vxz_magnitude_sq in
  match radiusIntersect y vy ay D t0 with
  | Some t => Some t
  | None => heightIntersect x y z vx vy vz ay R_sq D t0
  end.

End Generic.
End Solver.

(** ** The draft cylinder solver of part_000 (never called) *)

Module Draft.
Import Solver.
Section Generic.
Context {T : Type} `{Number T}.
Local Open Scope num_scope.

(** part_000, [calculateRadius]. *)
Definition calculateRadius (x z vx vz t : T) : T :=
  let dx := x + vx * t in
  let dz := z + vz * t in
  math_sqrt (sq dx + sq dz).

(** part_000, [calculateHeight]. *)
Definition calculateHeight (y vy ay t : T) : T :=
  let dy := y + vy * t + half * ay * sq t in
  dy.

(** part_000, [evaluate], lines 146-165: the block guarded by
    [discriminant > 0]; [None] when it falls through. *)
Definition evaluate_side (x y z vx vy vz ay R H : T) : option T :=
  let vx_sq := sq vx in
  let vz_sq := sq vz in
  let R_sq := sq R in
  let discriminant := R_sq * (vx_sq + vz_sq) - sq (vx * z - vz * x) in
  if discriminant >? lit 0 then
    let a := vx_sq + vz_sq in
    let b := - vx * x - vz * z in
    let c := math_sqrt discriminant in
    let t0 := (b - c) / a in
    let t1 := (b + c) / a in
    if t0 >? lit 0 then
      let dy := y + vy * t0 + half * ay * sq t0 in
      if dy <? H then Some t0 else None
    else if t1 >? lit 0 then
      let dy := y + vy * t1 + half * ay * sq t1 in
      if dy <? H then Some t1 else None
    else None
  else None.

(** part_000, [evaluate], lines 167-176: the block guarded by
    [postive_discriminant > 0]. *)
Definition evaluate_top (x z vx vy vz ay R H : T) : option T :=
  let postive_discriminant := ay * H + half * sq vy in
  if postive_discriminant >? lit 0 then
    let root := math_sqrt postive_discriminant in
    let t0 := (- vy + root) / ay in
    let t1 := (- vy - root) / ay in
    if t0 >? lit 0 then
      let r := calculateRadius x z vx vz t0 in
      if r <? R then Some t0 else None
    else None
  else None.

(** part_000, [evaluate].  The last block (lines 178-183) computes two
    times and returns nothing. *)
Definition evaluate (x y z vx vy vz ay R H : T) : option T :=
  match evaluate_side x y z vx vy vz ay R H with
  | Some t => Some t
  | None =>
      match evaluate_top x z vx vy vz ay R H with
      | Some t => Some t
      | None =>
          let negative_discriminant := - ay * H + half * sq vy in
          if negative_discriminant >? lit 0 then
            let root := math_sqrt negative_discriminant in
            let t0 := (- vy + root) / ay in
            let t1 := (- vy - root) / ay in
            None
          else None
      end
  end.

End Generic.
End Draft.

(** ** Bin: the ordered cleanup container (identical in both generations) *)

Module Bin.
Section Bin.
(** The closures a bin can hold. *)
Context {F : Type}.

(** [Destructible], by the case [destroy] distinguishes: a function, an
    RBXScriptConnection, a thread, an object with [destroy()], an object
    with [Destroy()].  Connections, threads and objects are named by an
    identifier. *)
Inductive Destructible : Type :=
  | Function (f : F)
  | Connection (c : nat)
  | Thread (th : nat)
  | ObjectLower (o : nat)
  | ObjectUpper (o : nat).

(** [Node = { next?: Node; item: Destructible }].  A node reference is an
    index into the bin's node store. *)
Record Node : Type := mkNode { item : Destructible; next : option nat }.

Record t : Type := mkBin {
  nodes : list Node;        (* the nodes allocated by this bin *)
  head : option nat;
  tail : option nat;
}.

(** [new Bin()] *)
Definition new : t := {| nodes := []; head := None; tail := None |}.

(** The body shared by [add] and by each iteration of [batch]:
    [const node = { item }; this.head ??= node;
     if (this.tail) this.tail.next = node; this.tail = node]. *)
Definition link (i : Destructible) (b : t) : t :=
  let node := length (nodes b) in
  let store := nodes b ++ [ {| item := i; next := None |} ] in
  let head' := match head b with Some h => Some h | None => Some node end in
  let store' :=
    match tail b with
    | Some tl => alter (fun n => {| item := item n; next := Some node |}) tl store
    | None => store
    end in
  {| nodes := store'; head := head'; tail := Some node |}.

(** [add(item)]; the call returns [item] itself. *)
Definition add (i : Destructible) (b : t) : t := link i b.

(** [batch(...args)]; the call returns [args] itself. *)
Definition batch (args : list Destructible) (b : t) : t :=
  foldl (fun b i => link i b) b args.

(** What [destroy] does to one item. *)
Inductive Disposal : Type :=
  | Called (f : F)              (* item() *)
  | Disconnected (c : nat)      (* item.Disconnect() *)
  | Cancelled (th : nat)        (* task.cancel(item) *)
  | destroyed (o : nat)         (* item.destroy() *)
  | Destroyed (o : nat).        (* item.Destroy() *)

Definition dispose (i : Destructible) : Disposal :=
  match i with
  | Function f => Called f
  | Connection c => Disconnected c
  | Thread th => Cancelled th
  | ObjectLower o => destroyed o
  | ObjectUpper o => Destroyed o
  end.

(** The [while (this.head)] loop of [destroy], run for at most [fuel]
    iterations; the disposals appear in the order they are made.  [None]
    when the loop has not ended within [fuel] iterations. *)
Fixpoint destroy_loop (fuel : nat) (b : t) : option (t * list Disposal) :=
  match head b with
  | None => Some (b, [])
  | Some h =>
      match fuel with
      | O => None
      | S fuel' =>
          match nodes b !! h with
          | None => None
          | Some n =>
              match destroy_loop fuel'
                      {| nodes := nodes b; head := next n; tail := tail b |} with
              | Some (b', ds) => Some (b', dispose (item n) :: ds)
              | None => None
              end
          end
      end
  end.

(** [destroy()]: the loop visits a node at most once, so one iteration per
    allocated node suffices ([BinFacts.destroy_holds]). *)
Definition destroy (b : t) : option (t * list Disposal) :=
  destroy_loop (length (nodes b)) b.

(** [isEmpty()] *)
Definition isEmpty (b : t) : bool :=
  match head b with None => true | Some _ => false end.

(** A use of a bin: the calls made on it, in order. *)
Inductive Call : Type :=
  | CallAdd (i : Destructible)
  | CallBatch (args : list Destructible)
  | CallDestroy.

(** One call, on a bin and the disposals made so far. *)
Definition call (c : Call) (s : t * list Disposal) : option (t * list Disposal) :=
  match c with
  | CallAdd i => Some (add i s.1, s.2)
  | CallBatch args => Some (batch args s.1, s.2)
  | CallDestroy =>
      match destroy s.1 with
      | Some (b', ds) => Some (b', s.2 ++ ds)
      | None => None
      end
  end.

Fixpoint calls (cs : list Call) (s : t * list Disposal) : option (t * list Disposal) :=
  match cs with
  | [] => Some s
  | c :: cs' =>
      match call c s with
      | Some s' => calls cs' s'
      | None => None
      end
  end.

(** The handles a sequence of calls inserts, in insertion order. *)
Fixpoint inserted (cs : list Call) : list Destructible :=
  match cs with
  | [] => []
  | CallAdd i :: cs' => i :: inserted cs'
  | CallBatch args :: cs' => args ++ inserted cs'
  | CallDestroy :: cs' => inserted cs'
  end.

(** The handles inserted since the last [destroy()], given those that
    were waiting before the calls. *)
Fixpoint waiting (cs : list Call) (before : list Destructible) : list Destructible :=
  match cs with
  | [] => before
  | CallAdd i :: cs' => waiting cs' (before ++ [i])
  | CallBatch args :: cs' => waiting cs' (before ++ args)
  | CallDestroy :: cs' => waiting cs' []
  end.

End Bin.
Arguments Destructible : clear implicits.
Arguments Node : clear implicits.
Arguments t : clear implicits.
Arguments Disposal : clear implicits.
Arguments Call : clear implicits.
End Bin.

(** ** The script in its engine

    The engine (data model, signals, connections) and the script's own
    state (components, registries) form one [World].  The script's
    functions are state transformers on it; the closures the script hands
    to the engine (signal handlers, bin items, the [bindToChild] callback)
    are named by constructors and run by [runHandler], [callClosure] and
    [invoke].  Definitions that differ between part_000 and part_001 take
    the [Generation]. *)

Module Script.

Inductive Generation : Type := Gen1 | Gen2.

(** The identity of an engine object. *)
Abbreviation Instance := nat (only parsing).

(** References to the script's own objects. *)
Abbreviation BallRef := nat (only parsing).
Abbreviation CharacterRef := nat (only parsing).
Abbreviation PlayerRef := nat (only parsing).

(** An attribute value: [true]/[false], a string, or anything else. *)
Inductive AttrValue : Type :=
  | AttrBool (b : bool)
  | AttrString (s : string)
  | AttrOther.

#[export] Instance AttrValue_eq_dec : EqDecision AttrValue.
Proof. solve_decision. Defined.

(** The signals the script connects to. *)
Inductive Signal : Type :=
  | AttributeChanged (i : Instance) (attr : string)  (* GetAttributeChangedSignal *)
  | Destroying (i : Instance)
  | Died (humanoid : Instance)
  | CharacterAdded (player : Instance)
  | CharacterRemoving (player : Instance)
  | ChildAdded (parent : Instance)
  | PlayerAdded
  | PlayerRemoving
  | Heartbeat.

#[export] Instance Signal_eq_dec : EqDecision Signal.
Proof. solve_decision. Defined.

(** The callback given to [bindToChild]. *)
Inductive Callback : Type :=
  | onBallContainerAdded_cb.

(** The functions the script connects to signals. *)
Inductive Handler : Type :=
  | H_updateActive (this : BallRef)        (* () => this.updateActive() *)
  | H_updateTarget (this : BallRef)        (* () => this.updateTarget() *)
  | H_destroyBall (this : BallRef)         (* () => this.destroy() *)
  | H_destroyRig (this : CharacterRef)     (* () => this.destroy() *)
  | H_onCharacterAdded (this : PlayerRef)
  | H_onCharacterRemoving (this : PlayerRef)
  | H_onBallAdded
  | H_onPlayerAdded
  | H_onPlayerRemoving
  | H_bindToChild (connection : nat) (name : string) (callback : Callback)
  | H_gravity
  | H_heartbeat (player : option PlayerRef).

(** The functions the script puts into bins. *)
Inductive Closure : Type :=
  | unregisterBall (instance : Instance)   (* part_000: () => BallComponent.active.delete(instance) *)
  | releaseBall (this : BallRef)           (* part_001: () => BallComponent.active === this && (BallComponent.active = undefined) *)
  | unregisterPlayer (instance : Instance). (* () => PlayerComponent.active.delete(instance) *)

Record Connection : Type := mkConnection {
  signal : Signal;
  handler : Handler;
  Connected : bool;
}.

Inductive KeyEvent : Type :=
  | keypress (key : Z)
  | keyrelease (key : Z).

(** What a call returns: a value, or the thrown message. *)
Inductive Result (A : Type) : Type :=
  | Ok (a : A)
  | Throw (msg : string).
Arguments Ok {A} a.
Arguments Throw {A} msg.

Record BallComponent : Type := mkBall {
  ball_instance : Instance;
  ball_bin : Bin.t Closure;
  active : bool;
  target : option AttrValue;
  isHit : bool;
}.

Record CharacterComponent : Type := mkCharacter {
  character_instance : Instance;
  character_bin : Bin.t Closure;
  root : Instance;
  humanoid : Instance;
}.

Record PlayerComponent : Type := mkPlayer {
  player_instance : Instance;
  player_bin : Bin.t Closure;
  name : string;
  character : option CharacterRef;
}.

Section World.
Context {T : Type} `{Number T}.
Local Open Scope num_scope.

Record Vector3 : Type := mkVector3 { X : T; Y : T; Z : T }.

Definition Vector3_sub (a b : Vector3) : Vector3 :=
  {| X := X a - X b; Y := Y a - Y b; Z := Z a - Z b |}.

Definition Vector3_mul (a b : Vector3) : Vector3 :=
  {| X := X a * X b; Y := Y a * Y b; Z := Z a * Z b |}.

Definition Magnitude (a : Vector3) : T :=
  math_sqrt (Solver.sq (X a) + Solver.sq (Y a) + Solver.sq (Z a)).

(** What the script reads of an engine object. *)
Record Inst : Type := mkInst {
  Name : string;
  IsA_Part : bool;                      (* IsA("Part") *)
  Position : Vector3;
  AssemblyLinearVelocity : Vector3;
  Attributes : gmap string AttrValue;
  Children : list Instance;             (* GetChildren() *)
  Character : option Instance;          (* Player.Character *)
}.

Record World : Type := mkWorld {
  G : gmap string bool;   (* the table [_G] *)
  inst : Instance -> Inst;   (* the data model: every engine object by identity *)
  Workspace : Instance;   (* the Workspace service *)
  Workspace_Gravity : T;   (* [Workspace.Gravity] *)
  Players : list Instance;   (* [Players.GetPlayers()] *)
  LocalPlayer : Instance;   (* [Players.LocalPlayer] *)
  conns : list Connection;   (* every RBXScriptConnection made, by identity *)
  input : list KeyEvent;   (* the key events issued so far *)
  invoked : list (Callback * Instance);   (* the calls of a [bindToChild] callback so far *)
  gravity : T;   (* part_001: [let gravity] *)
  balls : list BallComponent;   (* every BallComponent constructed, by identity *)
  BallComponent_actives : gmap Instance BallRef;   (* part_000: [BallComponent.active], a Map *)
  BallComponent_active : option BallRef;   (* part_001: [BallComponent.active], one component or undefined *)
  characters : list CharacterComponent;   (* every CharacterComponent constructed *)
  CharacterComponent_active : gmap Instance CharacterRef;   (* [CharacterComponent.active] *)
  players : list PlayerComponent;   (* every PlayerComponent constructed *)
  PlayerComponent_active : gmap Instance PlayerRef;   (* [PlayerComponent.active] *)
}.

Definition set_G (v : gmap string bool) (w : World) : World :=
  {| G := v; inst := inst w; Workspace := Workspace w;
     Workspace_Gravity := Workspace_Gravity w; Players := Players w;
     LocalPlayer := LocalPlayer w; conns := conns w; input := input w;
     invoked := invoked w; gravity := gravity w; balls := balls w;
     BallComponent_actives := BallComponent_actives w;
     BallComponent_active := BallComponent_active w; characters := characters w;
     CharacterComponent_active := CharacterComponent_active w; players := players w;
     PlayerComponent_active := PlayerComponent_active w |}.

Definition set_inst (v : Instance -> Inst) (w : World) : World :=
  {| G := G w; inst := v; Workspace := Workspace w;
     Workspace_Gravity := Workspace_Gravity w; Players := Players w;
     LocalPlayer := LocalPlayer w; conns := conns w; input := input w;
     invoked := invoked w; gravity := gravity w; balls := balls w;
     BallComponent_actives := BallComponent_actives w;
     BallComponent_active := BallComponent_active w; characters := characters w;
     CharacterComponent_active := CharacterComponent_active w; players := players w;
     PlayerComponent_active := PlayerComponent_active w |}.

Definition set_Workspace_Gravity (v : T) (w : World) : World :=
  {| G := G w; inst := inst w; Workspace := Workspace w; Workspace_Gravity := v;
     Players := Players w; LocalPlayer := LocalPlayer w; conns := conns w;
     input := input w; invoked := invoked w; gravity := gravity w; balls := balls w;
     BallComponent_actives := BallComponent_actives w;
     BallComponent_active := BallComponent_active w; characters := characters w;
     CharacterComponent_active := CharacterComponent_active w; players := players w;
     PlayerComponent_active := PlayerComponent_active w |}.

Definition set_Players (v : list Instance) (w : World) : World :=
  {| G := G w; inst := inst w; Workspace := Workspace w;
     Workspace_Gravity := Workspace_Gravity w; Players := v;
     LocalPlayer := LocalPlayer w; conns := conns w; input := input w;
     invoked := invoked w; gravity := gravity w; balls := balls w;
     BallComponent_actives := BallComponent_actives w;
     BallComponent_active := BallComponent_active w; characters := characters w;
     CharacterComponent_active := CharacterComponent_active w; players := players w;
     PlayerComponent_active := PlayerComponent_active w |}.

Definition set_conns (v : list Connection) (w : World) : World :=
  {| G := G w; inst := inst w; Workspace := Workspace w;
     Workspace_Gravity := Workspace_Gravity w; Players := Players w;
     LocalPlayer := LocalPlayer w; conns := v; input := input w; invoked := invoked w;
     gravity := gravity w; balls := balls w;
     BallComponent_actives := BallComponent_actives w;
     BallComponent_active := BallComponent_active w; characters := characters w;
     CharacterComponent_active := CharacterComponent_active w; players := players w;
     PlayerComponent_active := PlayerComponent_active w |}.

Definition set_input (v : list KeyEvent) (w : World) : World :=
  {| G := G w; inst := inst w; Workspace := Workspace w;
     Workspace_Gravity := Workspace_Gravity w; Players := Players w;
     LocalPlayer := LocalPlayer w; conns := conns w; input := v; invoked := invoked w;
     gravity := gravity w; balls := balls w;
     BallComponent_actives := BallComponent_actives w;
     BallComponent_active := BallComponent_active w; characters := characters w;
     CharacterComponent_active := CharacterComponent_active w; players := players w;
     PlayerComponent_active := PlayerComponent_active w |}.

Definition set_invoked (v : list (Callback * Instance)) (w : World) : World :=
  {| G := G w; inst := inst w; Workspace := Workspace w;
     Workspace_Gravity := Workspace_Gravity w; Players := Players w;
     LocalPlayer := LocalPlayer w; conns := conns w; input := input w; invoked := v;
     gravity := gravity w; balls := balls w;
     BallComponent_actives := BallComponent_actives w;
     BallComponent_active := BallComponent_active w; characters := characters w;
     CharacterComponent_active := CharacterComponent_active w; players := players w;
     PlayerComponent_active := PlayerComponent_active w |}.

Definition set_gravity (v : T) (w : World) : World :=
  {| G := G w; inst := inst w; Workspace := Workspace w;
     Workspace_Gravity := Workspace_Gravity w; Players := Players w;
     LocalPlayer := LocalPlayer w; conns := conns w; input := input w;
     invoked := invoked w; gravity := v; balls := balls w;
     BallComponent_actives := BallComponent_actives w;
     BallComponent_active := BallComponent_active w; characters := characters w;
     CharacterComponent_active := CharacterComponent_active w; players := players w;
     PlayerComponent_active := PlayerComponent_active w |}.

Definition set_balls (v : list BallComponent) (w : World) : World :=
  {| G := G w; inst := inst w; Workspace := Workspace w;
     Workspace_Gravity := Workspace_Gravity w; Players := Players w;
     LocalPlayer := LocalPlayer w; conns := conns w; input := input w;
     invoked := invoked w; gravity := gravity w; balls := v;
     BallComponent_actives := BallComponent_actives w;
     BallComponent_active := BallComponent_active w; characters := characters w;
     CharacterComponent_active := CharacterComponent_active w; players := players w;
     PlayerComponent_active := PlayerComponent_active w |}.

Definition set_BallComponent_actives (v : gmap Instance BallRef) (w : World) : World :=
  {| G := G w; inst := inst w; Workspace := Workspace w;
     Workspace_Gravity := Workspace_Gravity w; Players := Players w;
     LocalPlayer := LocalPlayer w; conns := conns w; input := input w;
     invoked := invoked w; gravity := gravity w; balls := balls w;
     BallComponent_actives := v; BallComponent_active := BallComponent_active w;
     characters := characters w;
     CharacterComponent_active := CharacterComponent_active w; players := players w;
     PlayerComponent_active := PlayerComponent_active w |}.

Definition set_BallComponent_active (v : option BallRef) (w : World) : World :=
  {| G := G w; inst := inst w; Workspace := Workspace w;
     Workspace_Gravity := Workspace_Gravity w; Players := Players w;
     LocalPlayer := LocalPlayer w; conns := conns w; input := input w;
     invoked := invoked w; gravity := gravity w; balls := balls w;
     BallComponent_actives := BallComponent_actives w; BallComponent_active := v;
     characters := characters w;
     CharacterComponent_active := CharacterComponent_active w; players := players w;
     PlayerComponent_active := PlayerComponent_active w |}.

Definition set_characters (v : list CharacterComponent) (w : World) : World :=
  {| G := G w; inst := inst w; Workspace := Workspace w;
     Workspace_Gravity := Workspace_Gravity w; Players := Players w;
     LocalPlayer := LocalPlayer w; conns := conns w; input := input w;
     invoked := invoked w; gravity := gravity w; balls := balls w;
     BallComponent_actives := BallComponent_actives w;
     BallComponent_active := BallComponent_active w; characters := v;
     CharacterComponent_active := CharacterComponent_active w; players := players w;
     PlayerComponent_active := PlayerComponent_active w |}.

Definition set_CharacterComponent_active (v : gmap Instance CharacterRef) (w : World) : World :=
  {| G := G w; inst := inst w; Workspace := Workspace w;
     Workspace_Gravity := Workspace_Gravity w; Players := Players w;
     LocalPlayer := LocalPlayer w; conns := conns w; input := input w;
     invoked := invoked w; gravity := gravity w; balls := balls w;
     BallComponent_actives := BallComponent_actives w;
     BallComponent_active := BallComponent_active w; characters := characters w;
     CharacterComponent_active := v; players := players w;
     PlayerComponent_active := PlayerComponent_active w |}.

Definition set_players (v : list PlayerComponent) (w : World) : World :=
  {| G := G w; inst := inst w; Workspace := Workspace w;
     Workspace_Gravity := Workspace_Gravity w; Players := Players w;
     LocalPlayer := LocalPlayer w; conns := conns w; input := input w;
     invoked := invoked w; gravity := gravity w; balls := balls w;
     BallComponent_actives := BallComponent_actives w;
     BallComponent_active := BallComponent_active w; characters := characters w;
     CharacterComponent_active := CharacterComponent_active w; players := v;
     PlayerComponent_active := PlayerComponent_active w |}.

Definition set_PlayerComponent_active (v : gmap Instance PlayerRef) (w : World) : World :=
  {| G := G w; inst := inst w; Workspace := Workspace w;
     Workspace_Gravity := Workspace_Gravity w; Players := Players w;
     LocalPlayer := LocalPlayer w; conns := conns w; input := input w;
     invoked := invoked w; gravity := gravity w; balls := balls w;
     BallComponent_actives := BallComponent_actives w;
     BallComponent_active := BallComponent_active w; characters := characters w;
     CharacterComponent_active := CharacterComponent_active w; players := players w;
     PlayerComponent_active := v |}.
(** *** Configuration *)

Definition RADIUS (g : Generation) : T :=
  match g with Gen1 => lit 35 / lit 2 (* 17.5 *) | Gen2 => lit 21 end.
Definition HEIGHT : T := lit 21.
Definition COMPENSATION : T := lit 200 / lit 1000.

(** *** Engine primitives *)

Definition GetAttribute (i : Instance) (attr : string) (w : World) : option AttrValue :=
  Attributes (inst w i) !! attr.

Definition FindFirstChild (parent : Instance) (nm : string) (w : World) : option Instance :=
  find (fun c => String.eqb (Name (inst w c)) nm) (Children (inst w parent)).

(** [WaitForChild], by its outcome: the child, or [undefined]. *)
Definition WaitForChild (parent : Instance) (nm : string) (w : World) : option Instance :=
  FindFirstChild parent nm w.

(** [signal.Connect(handler)]; the handler may mention the connection it
    is given (its identity is the next free index). *)
Definition Connect (s : Signal) (h : nat -> Handler) (w : World) : nat * World :=
  let c := length (conns w) in
  (c, set_conns (conns w ++ [ {| signal := s; handler := h c; Connected := true |} ]) w).

(** [connection.Disconnect()] *)
Definition Disconnect (c : nat) (w : World) : World :=
  set_conns
    (alter (fun k => {| signal := signal k; handler := handler k; Connected := false |})
       c (conns w)) w.

(** The engine fires [s] with argument [arg]: the connections that exist
    at that moment are visited, oldest first, and each one that is still
    connected when its turn comes has its handler run by [run].  A handler
    that throws ends alone; the others still run. *)
Definition fire (run : Handler -> option Instance -> World -> World)
    (s : Signal) (arg : option Instance) (w : World) : World :=
  foldl
    (fun w c =>
       match conns w !! c with
       | Some k =>
           if Connected k && bool_decide (signal k = s) then run (handler k) arg w else w
       | None => w
       end)
    w (seq 0 (length (conns w))).

(** *** Bins in components *)

Definition callClosure (f : Closure) (w : World) : World :=
  match f with
  | unregisterBall instance =>
      set_BallComponent_actives (delete instance (BallComponent_actives w)) w
  | releaseBall this =>
      if bool_decide (BallComponent_active w = Some this)
      then set_BallComponent_active None w else w
  | unregisterPlayer instance =>
      set_PlayerComponent_active (delete instance (PlayerComponent_active w)) w
  end.

(** The effect of one disposal.  The script puts only functions and
    connections into bins. *)
Definition disposal (w : World) (d : Bin.Disposal Closure) : World :=
  match d with
  | Bin.Called f => callClosure f w
  | Bin.Disconnected c => Disconnect c w
  | Bin.Cancelled _ | Bin.destroyed _ | Bin.Destroyed _ => w
  end.

(** *** BallComponent *)

Definition set_ball (this : BallRef) (f : BallComponent -> BallComponent) (w : World) : World :=
  set_balls (alter f this (balls w)) w.

Definition updateTarget (this : BallRef) (w : World) : World :=
  match balls w !! this with
  | None => w
  | Some b =>
      set_ball this
        (fun b => {| ball_instance := ball_instance b; ball_bin := ball_bin b;
                     active := active b;
                     target := GetAttribute (ball_instance b) "target" w;
                     isHit := false |}) w
  end.

Definition updateActive (g : Generation) (this : BallRef) (w : World) : World :=
  match balls w !! this with
  | None => w
  | Some b =>
      let a := bool_decide (GetAttribute (ball_instance b) "realBall" w = Some (AttrBool true)) in
      let w :=
        set_ball this
          (fun b => {| ball_instance := ball_instance b; ball_bin := ball_bin b;
                       active := a; target := target b; isHit := false |}) w in
      match g with
      | Gen1 => w
      | Gen2 =>
          if a then set_BallComponent_active (Some this) w
          else if bool_decide (BallComponent_active w = Some this)
               then set_BallComponent_active None w
               else w
      end
  end.

Definition debounce (this : BallRef) (w : World) : World :=
  set_ball this
    (fun b => {| ball_instance := ball_instance b; ball_bin := ball_bin b;
                 active := active b; target := target b; isHit := true |}) w.

Definition canParry (b : BallComponent) : bool := negb (isHit b).
Definition getTarget (b : BallComponent) : option AttrValue := target b.
Definition isActive (b : BallComponent) : bool := active b.

Definition ball_batch (this : BallRef) (args : list (Bin.Destructible Closure)) (w : World) : World :=
  set_ball this
    (fun b => {| ball_instance := ball_instance b; ball_bin := Bin.batch args (ball_bin b);
                 active := active b; target := target b; isHit := isHit b |}) w.

(** [new BallComponent(instance)] *)
Definition new_BallComponent (g : Generation) (instance : Instance) (w : World)
    : BallRef * World :=
  let this := length (balls w) in
  let w :=
    set_balls
      (balls w ++ [ {| ball_instance := instance; ball_bin := Bin.new; active := false;
                       target := Some (AttrString ""); isHit := false |} ]) w in
  let w := updateActive g this w in
  let w := updateTarget this w in
  let '(c1, w) := Connect (AttributeChanged instance "realBall") (fun _ => H_updateActive this) w in
  let '(c2, w) := Connect (AttributeChanged instance "target") (fun _ => H_updateTarget this) w in
  let w := ball_batch this [Bin.Connection c1; Bin.Connection c2] w in
  let f := match g with Gen1 => unregisterBall instance | Gen2 => releaseBall this end in
  let '(c3, w) := Connect (Destroying instance) (fun _ => H_destroyBall this) w in
  let w := ball_batch this [Bin.Function f; Bin.Connection c3] w in
  match g with
  | Gen1 => (this, set_BallComponent_actives (<[instance := this]> (BallComponent_actives w)) w)
  | Gen2 => (this, w)
  end.

(** [BaseComponent.destroy()] on a ball: [this.bin.destroy()].  The
    disposals only disconnect connections and call the closures above,
    none of which touches a bin, so they are applied after the walk. *)
Definition BallComponent_destroy (this : BallRef) (w : World) : World :=
  match balls w !! this with
  | None => w
  | Some b =>
      match Bin.destroy (ball_bin b) with
      | None => w
      | Some (bin', ds) =>
          foldl disposal
            (set_ball this
               (fun b => {| ball_instance := ball_instance b; ball_bin := bin';
                            active := active b; target := target b; isHit := isHit b |}) w)
            ds
      end
  end.

(** *** RigComponent, CharacterComponent *)

(** [new CharacterComponent(instance)]: the RigComponent constructor. *)
Definition new_CharacterComponent (instance : Instance) (w : World)
    : Result CharacterRef * World :=
  match WaitForChild instance "HumanoidRootPart" w with
  | None => (Throw "Root part not found", w)
  | Some root =>
      match WaitForChild instance "Humanoid" w with
      | None => (Throw "Humanoid not found", w)
      | Some humanoid =>
          let this := length (characters w) in
          let '(c1, w) := Connect (Died humanoid) (fun _ => H_destroyRig this) w in
          let '(c2, w) := Connect (Destroying instance) (fun _ => H_destroyRig this) w in
          (Ok this,
           set_characters
             (characters w ++
                [ {| character_instance := instance;
                     character_bin := Bin.batch [Bin.Connection c1; Bin.Connection c2] Bin.new;
                     root := root; humanoid := humanoid |} ]) w)
      end
  end.

Definition CharacterComponent_destroy (this : CharacterRef) (w : World) : World :=
  match characters w !! this with
  | None => w
  | Some c =>
      match Bin.destroy (character_bin c) with
      | None => w
      | Some (bin', ds) =>
          foldl disposal
            (set_characters
               (alter (fun c => {| character_instance := character_instance c;
                                   character_bin := bin';
                                   root := root c; humanoid := humanoid c |})
                  this (characters w)) w)
            ds
      end
  end.

(** *** PlayerComponent *)

Definition set_character (this : PlayerRef) (c : option CharacterRef) (w : World) : World :=
  set_players
    (alter (fun p => {| player_instance := player_instance p; player_bin := player_bin p;
                        name := name p; character := c |}) this (players w)) w.

Definition getCharacter (this : PlayerRef) (w : World) : option CharacterRef :=
  match players w !! this with
  | Some p => character p
  | None => None
  end.

(** [this.character?.destroy()] *)
Definition destroy_character_of (this : PlayerRef) (w : World) : World :=
  match getCharacter this w with
  | Some c => CharacterComponent_destroy c w
  | None => w
  end.

Definition onCharacterAdded (this : PlayerRef) (character : Instance) (w : World) : World :=
  let w := destroy_character_of this w in
  match new_CharacterComponent character w with
  | (Ok c, w) => set_character this (Some c) w
  | (Throw _, w) => w          (* the assignment is not reached *)
  end.

Definition onCharacterRemoving (this : PlayerRef) (w : World) : World :=
  let w := destroy_character_of this w in
  set_character this None w.

Definition player_batch (this : PlayerRef) (args : list (Bin.Destructible Closure)) (w : World) : World :=
  set_players
    (alter (fun p => {| player_instance := player_instance p;
                        player_bin := Bin.batch args (player_bin p);
                        name := name p; character := character p |}) this (players w)) w.

(** [new PlayerComponent(instance)] *)
Definition new_PlayerComponent (instance : Instance) (w : World) : PlayerRef * World :=
  let this := length (players w) in
  let w :=
    set_players
      (players w ++ [ {| player_instance := instance; player_bin := Bin.new;
                         name := Name (inst w instance); character := None |} ]) w in
  let w :=
    match Character (inst w instance) with
    | Some character => onCharacterAdded this character w      (* task.spawn *)
    | None => w
    end in
  let '(c1, w) := Connect (CharacterAdded instance) (fun _ => H_onCharacterAdded this) w in
  let '(c2, w) := Connect (CharacterRemoving instance) (fun _ => H_onCharacterRemoving this) w in
  let w := player_batch this [Bin.Connection c1; Bin.Connection c2] w in
  let w := player_batch this [Bin.Function (unregisterPlayer instance)] w in   (* bin.add *)
  (this, set_PlayerComponent_active (<[instance := this]> (PlayerComponent_active w)) w).

Definition PlayerComponent_destroy (this : PlayerRef) (w : World) : World :=
  match players w !! this with
  | None => w
  | Some p =>
      match Bin.destroy (player_bin p) with
      | None => w
      | Some (bin', ds) =>
          foldl disposal
            (set_players
               (alter (fun p => {| player_instance := player_instance p; player_bin := bin';
                                   name := name p; character := character p |})
                  this (players w)) w)
            ds
      end
  end.

(** *** ComponentController *)

Definition onBallAdded (g : Generation) (instance : Instance) (w : World) : World :=
  if IsA_Part (inst w instance) then snd (new_BallComponent g instance w) else w.

(** part_001: [onBallContainerAdded] *)
Definition onBallContainerAdded (container : Instance) (w : World) : World :=
  let w := foldl (fun w instance => onBallAdded Gen2 instance w) w
             (Children (inst w container)) in
  snd (Connect (ChildAdded container) (fun _ => H_onBallAdded) w).

Definition onPlayerAdded (instance : Instance) (w : World) : World :=
  snd (new_PlayerComponent instance w).

(** Calling a [bindToChild] callback. *)
Definition invoke (callback : Callback) (child : Instance) (w : World) : World :=
  let w := set_invoked (invoked w ++ [(callback, child)]) w in
  match callback with
  | onBallContainerAdded_cb => onBallContainerAdded child w
  end.

(** part_001: [bindToChild(parent, name, callback)] *)
Definition bindToChild (parent : Instance) (nm : string) (callback : Callback) (w : World)
    : World :=
  match FindFirstChild parent nm w with
  | Some child => invoke callback child w
  | None =>
      snd (Connect (ChildAdded parent)
             (fun connection => H_bindToChild connection nm callback) w)
  end.

(** The handler [bindToChild] connects:
    [(child) => { if (child.Name === name) { connection.Disconnect(); callback(child) } }] *)
Definition bindToChild_handler (connection : nat) (nm : string) (callback : Callback)
    (child : Instance) (w : World) : World :=
  if String.eqb (Name (inst w child)) nm
  then invoke callback child (Disconnect connection w)
  else w.

(** *** ParryController *)

Definition Vector2D : Vector3 := {| X := lit 1; Y := lit 0; Z := lit 1 |}.

Definition useParry (ball : BallRef) (w : World) : World :=
  let w := set_input (input w ++ [keypress 70]) w in     (* keypress(0x46) *)
  let w := set_input (input w ++ [keyrelease 70]) w in   (* keyrelease(0x46) *)
  debounce ball w.

(** part_000: the function given to [BallComponent.active.forEach]. *)
Definition forEach_ball (nm : string) (origin motion : Vector3)
    (instance : Instance) (ball : BallRef) (w : World) : World :=
  match balls w !! ball with
  | None => w
  | Some b =>
      if negb (canParry b) then w else
      if negb (bool_decide (getTarget b = Some (AttrString nm))) then w else
      let position := Vector3_sub (Position (inst w instance)) origin in
      if Magnitude position <? RADIUS Gen1 then useParry ball w else
      let velocity := Vector3_sub (AssemblyLinearVelocity (inst w instance)) motion in
      match Solver.evaluateIntercept (X position) (Y position) (Z position)
              (X velocity) (Y velocity) (Z velocity) (RADIUS Gen1) with
      | None => w
      | Some intercept =>
          if intercept >? COMPENSATION then w else useParry ball w
      end
  end.

(** part_001: the Heartbeat handler from [const instance = ball.instance] on. *)
Definition parry_active (nm : string) (origin motion : Vector3)
    (ball : BallRef) (w : World) : World :=
  match balls w !! ball with
  | None => w
  | Some b =>
      let instance := ball_instance b in
      if negb (canParry b) then w else
      if negb (bool_decide (getTarget b = Some (AttrString nm))) then w else
      let position := Vector3_sub (Position (inst w instance)) origin in
      if Magnitude position <? RADIUS Gen2 then useParry ball w else
      let velocity := Vector3_sub (AssemblyLinearVelocity (inst w instance)) motion in
      match Solver.evaluateCylindricalCollision (X position) (Y position) (Z position)
              (X velocity) (Y velocity) (Z velocity) (gravity w) (RADIUS Gen2) HEIGHT with
      | None => w
      | Some intercept =>
          if intercept <? COMPENSATION then w else useParry ball w
      end
  end.

(** The Heartbeat handler: [player] is the component captured when the
    controller was initialised ([undefined] if the lookup found none, in
    which case every call fails at [player.getCharacter()]).  part_000
    visits the registry with [forEach]; [map_fold] visits the same entries,
    in the order of the keys rather than of insertion. *)
Definition heartbeat (g : Generation) (player : option PlayerRef) (w : World) : World :=
  match player with
  | None => w
  | Some p =>
      match players w !! p with
      | None => w
      | Some pc =>
          let run_with_character (k : string -> Vector3 -> Vector3 -> World) : World :=
            match character pc with
            | None => w
            | Some c =>
                match characters w !! c with
                | None => w
                | Some cc =>
                    let origin := Position (inst w (root cc)) in
                    let motion :=
                      Vector3_mul (AssemblyLinearVelocity (inst w (root cc))) Vector2D in
                    k (name pc) origin motion
                end
            end in
          match g with
          | Gen1 =>
              run_with_character (fun nm origin motion =>
                map_fold (forEach_ball nm origin motion) w (BallComponent_actives w))
          | Gen2 =>
              match BallComponent_active w with
              | None => w
              | Some ball =>
                  run_with_character (fun nm origin motion =>
                    parry_active nm origin motion ball w)
              end
          end
      end
  end.

(** *** Running a handler *)

Definition runHandler (g : Generation) (h : Handler) (arg : option Instance) (w : World)
    : World :=
  match h, arg with
  | H_updateActive this, _ => updateActive g this w
  | H_updateTarget this, _ => updateTarget this w
  | H_destroyBall this, _ => BallComponent_destroy this w
  | H_destroyRig this, _ => CharacterComponent_destroy this w
  | H_onCharacterAdded this, Some character => onCharacterAdded this character w
  | H_onCharacterRemoving this, _ => onCharacterRemoving this w
  | H_onBallAdded, Some instance => onBallAdded g instance w
  | H_onPlayerAdded, Some instance => onPlayerAdded instance w
  | H_onPlayerRemoving, Some instance =>
      match PlayerComponent_active w !! instance with
      | Some p => PlayerComponent_destroy p w
      | None => w
      end
  | H_bindToChild connection nm callback, Some child =>
      bindToChild_handler connection nm callback child w
  | H_gravity, _ => set_gravity (Workspace_Gravity w) w
  | H_heartbeat player, _ => heartbeat g player w
  | _, None => w
  end.

(** *** Initialisation *)

Definition ComponentController_init (g : Generation) (w : World) : Result unit * World :=
  let balls_bound :=
    match g with
    | Gen1 =>
        (* const BallFolder = Workspace.WaitForChild("Balls", 10) as Folder *)
        match WaitForChild (Workspace w) "Balls" w with
        | None => (Throw "attempt to index nil with 'GetChildren'", w)
        | Some BallFolder =>
            let w := foldl (fun w instance => onBallAdded Gen1 instance w) w
                       (Children (inst w BallFolder)) in
            (Ok tt, snd (Connect (ChildAdded BallFolder) (fun _ => H_onBallAdded) w))
        end
    | Gen2 => (Ok tt, bindToChild (Workspace w) "Balls" onBallContainerAdded_cb w)
    end in
  match balls_bound with
  | (Throw msg, w) => (Throw msg, w)
  | (Ok _, w) =>
      let w := foldl (fun w instance => onPlayerAdded instance w) w (Players w) in
      let w := snd (Connect PlayerAdded (fun _ => H_onPlayerAdded) w) in
      (Ok tt, snd (Connect PlayerRemoving (fun _ => H_onPlayerRemoving) w))
  end.

(** part_001: [VariableController.__init] *)
Definition VariableController_init (w : World) : World :=
  let w := set_gravity (Workspace_Gravity w) w in
  snd (Connect (AttributeChanged (Workspace w) "Gravity") (fun _ => H_gravity) w).

Definition ParryController_init (w : World) : World :=
  let player := PlayerComponent_active w !! LocalPlayer w in
  snd (Connect Heartbeat (fun _ => H_heartbeat player) w).

(** The module body, from the guard to [export =]. *)
Definition main (g : Generation) (w : World) : Result string * World :=
  if bool_decide (G w !! "bladeball" = Some true)
  then (Throw "This program is already running!", w)
  else
    let w := set_G (<["bladeball" := true]> (G w)) w in
    let w := match g with Gen1 => w | Gen2 => set_gravity (Workspace_Gravity w) w end in
    match ComponentController_init g w with
    | (Throw msg, w) => (Throw msg, w)
    | (Ok _, w) =>
        let w := match g with Gen1 => w | Gen2 => VariableController_init w end in
        let w := ParryController_init w in
        (Ok "Initialized Successfully", w)
    end.

(** *** What the engine does *)

Definition set_instance (i : Instance) (f : Inst -> Inst) (w : World) : World :=
  set_inst (fun j => if bool_decide (j = i) then f (inst w j) else inst w j) w.

Inductive Event : Type :=
  | E_Heartbeat
  | E_SetAttribute (i : Instance) (attr : string) (v : option AttrValue)
  | E_Destroying (i : Instance)
  | E_Died (humanoid : Instance)
  | E_CharacterAdded (player character : Instance)
  | E_CharacterRemoving (player : Instance)
  | E_ChildAdded (parent child : Instance)
  | E_PlayerAdded (player : Instance)
  | E_PlayerRemoving (player : Instance)
  | E_Physics (i : Instance) (position velocity : Vector3)
  | E_Gravity (a : T).

Definition step (g : Generation) (e : Event) (w : World) : World :=
  match e with
  | E_Heartbeat => fire (runHandler g) Heartbeat None w
  | E_SetAttribute i attr v =>
      let w :=
        set_instance i
          (fun o => {| Name := Name o; IsA_Part := IsA_Part o; Position := Position o;
                       AssemblyLinearVelocity := AssemblyLinearVelocity o;
                       Attributes := match v with
                                     | Some v => <[attr := v]> (Attributes o)
                                     | None => delete attr (Attributes o)
                                     end;
                       Children := Children o; Character := Character o |}) w in
      fire (runHandler g) (AttributeChanged i attr) None w
  | E_Destroying i => fire (runHandler g) (Destroying i) None w
  | E_Died h => fire (runHandler g) (Died h) None w
  | E_CharacterAdded player character =>
      let w :=
        set_instance player
          (fun o => {| Name := Name o; IsA_Part := IsA_Part o; Position := Position o;
                       AssemblyLinearVelocity := AssemblyLinearVelocity o;
                       Attributes := Attributes o; Children := Children o;
                       Character := Some character |}) w in
      fire (runHandler g) (CharacterAdded player) (Some character) w
  | E_CharacterRemoving player =>
      let w := fire (runHandler g) (CharacterRemoving player) None w in
      set_instance player
        (fun o => {| Name := Name o; IsA_Part := IsA_Part o; Position := Position o;
                     AssemblyLinearVelocity := AssemblyLinearVelocity o;
                     Attributes := Attributes o; Children := Children o;
                     Character := None |}) w
  | E_ChildAdded parent child =>
      let w :=
        set_instance parent
          (fun o => {| Name := Name o; IsA_Part := IsA_Part o; Position := Position o;
                       AssemblyLinearVelocity := AssemblyLinearVelocity o;
                       Attributes := Attributes o; Children := Children o ++ [child];
                       Character := Character o |}) w in
      fire (runHandler g) (ChildAdded parent) (Some child) w
  | E_PlayerAdded player =>
      let w := set_Players (Players w ++ [player]) w in
      fire (runHandler g) PlayerAdded (Some player) w
  | E_PlayerRemoving player =>
      let w := fire (runHandler g) PlayerRemoving (Some player) w in
      set_Players (filter (fun p => p <> player) (Players w)) w
  | E_Physics i position velocity =>
      set_instance i
        (fun o => {| Name := Name o; IsA_Part := IsA_Part o; Position := position;
                     AssemblyLinearVelocity := velocity;
                     Attributes := Attributes o; Children := Children o;
                     Character := Character o |}) w
  | E_Gravity a => set_Workspace_Gravity a w
  end.

Definition steps (g : Generation) (es : list Event) (w : World) : World :=
  foldl (fun w e => step g e w) w es.

End World.
Arguments Vector3 : clear implicits.
Arguments Inst : clear implicits.
Arguments World : clear implicits.
Arguments Event : clear implicits.
End Script.

(** * Vocabulary of the statements

    ** The solvers: trajectories, roots and boundaries *)

Module SolverSpec.
Import Solver.
Local Open Scope R_scope.

(** The squared distance from the target centre at time [t], along the
    straight line [p + v t]. *)
Definition dist_sq (x y z vx vy vz t : R) : R :=
  (x + vx * t) * (x + vx * t) + (y + vy * t) * (y + vy * t)
  + (z + vz * t) * (z + vz * t).

(** [t] solves [|p + v t|^2 = R^2]. *)
Definition sphere_root (x y z vx vy vz r t : R) : Prop :=
  dist_sq x y z vx vy vz t = r * r.

(** The coefficients of the quadratic, as the source computes them. *)
Definition coef_a (vx vy vz : R) : R := sq vx + sq vy + sq vz.
Definition coef_b (x y z vx vy vz : R) : R := 2 * (vx * x + vy * y + vz * z).
Definition coef_c (x y z r : R) : R := sq x + sq y + sq z - sq r.
Definition discriminant (x y z vx vy vz r : R) : R :=
  sq (coef_b x y z vx vy vz) - 4 * coef_a vx vy vz * coef_c x y z r.

(** The two roots, smaller first (when the discriminant is not negative
    and the velocity is not zero). *)
Definition root0 (x y z vx vy vz r : R) : R :=
  (- coef_b x y z vx vy vz - sqrt (discriminant x y z vx vy vz r))
  / (2 * coef_a vx vy vz).
Definition root1 (x y z vx vy vz r : R) : R :=
  (- coef_b x y z vx vy vz + sqrt (discriminant x y z vx vy vz r))
  / (2 * coef_a vx vy vz).

(** Height above the target centre at time [t], under the vertical
    acceleration [ay] (the source's [y + vy * t + 0.5 * ay * t ** 2]). *)
Definition height_at (y vy ay t : R) : R := y + vy * t + 1 / 2 * ay * (t * t).

(** Squared horizontal distance from the cylinder axis at time [t]. *)
Definition radius_sq_at (x z vx vz t : R) : R :=
  (x + vx * t) * (x + vx * t) + (z + vz * t) * (z + vz * t).

(** The cap-crossing candidates of the source. *)
Definition upper_t (y vy ay D : R) : R :=
  (- vy - sqrt (sq vy + 2 * ay * (D - y))) / ay.
Definition lower_t (y vy ay D : R) : R :=
  (- vy + sqrt (sq vy - 2 * ay * (D + y))) / ay.

(** The radius-crossing candidate [t0] of the source. *)
Definition radius_t0 (x z vx vz r : R) : R :=
  ((- vx * x - vz * z)
   - sqrt (sq r * (sq vx + sq vz) - sq (vx * z - vz * x))) / (sq vx + sq vz).

(** A call of either solver. *)
Inductive Query : Type :=
  | Sphere (x y z vx vy vz r : R)
  | Cylinder (x y z vx vy vz ay r h : R).

Definition solve (q : Query) : option R :=
  match q with
  | Sphere x y z vx vy vz r => evaluateIntercept x y z vx vy vz r
  | Cylinder x y z vx vy vz ay r h => evaluateCylindricalCollision x y z vx vy vz ay r h
  end.



End SolverSpec.

(** ** Bins: the items a bin holds *)

Module BinSpec.
Import Bin.
Section Spec.
Context {F : Type}.
Implicit Types (b : Bin.t F) (i : Destructible F) (ns : list (Node F)).
Implicit Types (items args : list (Destructible F)) (path : list nat).

(** From node [h] the [next] references visit the nodes [path], which hold
    [items], and end in an absent [next]. *)
Inductive linked ns : option nat -> list nat -> list (Destructible F) -> Prop :=
  | linked_nil : linked ns None [] []
  | linked_cons a n path items :
      ns !! a = Some n ->
      linked ns (next n) path items ->
      linked ns (Some a) (a :: path) (item n :: items).

(** The bin holds [items], oldest first: its nodes are linked from [head],
    each node once, and [tail] is the last of them. *)
Definition holds b items : Prop :=
  exists path,
    linked (nodes b) (head b) path items
    /\ NoDup path
    /\ (path <> [] -> tail b = last path)
    /\ (forall tl, tail b = Some tl -> tl < length (nodes b)).

End Spec.
End BinSpec.

(** ** The script: frames, liveness, invariants *)

Module ScriptSpec.
Import Script.
Section Spec.
Context {T : Type} `{Number T}.
Implicit Types (w : World T) (g : Generation) (b : BallComponent).
Implicit Types (items : list (Bin.Destructible Closure)).

(** A reading [p] of the world that no assignment of the script's
    functions can change: it looks only at what they never write, such as
    the data model, [_G] (written by the guard alone) and
    [CharacterComponent.active] (never written). *)
Class Untouched {A : Type} (p : World T -> A) : Prop := {
  untouched_conns : forall v w, p (set_conns v w) = p w;
  untouched_input : forall v w, p (set_input v w) = p w;
  untouched_invoked : forall v w, p (set_invoked v w) = p w;
  untouched_gravity : forall v w, p (set_gravity v w) = p w;
  untouched_balls : forall v w, p (set_balls v w) = p w;
  untouched_BallComponent_actives : forall v w, p (set_BallComponent_actives v w) = p w;
  untouched_BallComponent_active : forall v w, p (set_BallComponent_active v w) = p w;
  untouched_characters : forall v w, p (set_characters v w) = p w;
  untouched_players : forall v w, p (set_players v w) = p w;
  untouched_PlayerComponent_active : forall v w, p (set_PlayerComponent_active v w) = p w;
}.

(** A reading that the engine's own updates do not change either. *)
Class UntouchedByEngine {A : Type} (p : World T -> A) : Prop := {
  untouched_inst : forall v w, p (set_inst v w) = p w;
  untouched_Workspace_Gravity : forall v w, p (set_Workspace_Gravity v w) = p w;
  untouched_Players : forall v w, p (set_Players v w) = p w;
}.

#[export] Instance Untouched_G : Untouched (@G T).
Proof. split; reflexivity. Qed.

#[export] Instance Untouched_CharacterComponent_active :
  Untouched (@CharacterComponent_active T).
Proof. split; reflexivity. Qed.

#[export] Instance Untouched_inst : Untouched (@inst T).
Proof. split; reflexivity. Qed.

#[export] Instance Untouched_Workspace : Untouched (@Workspace T).
Proof. split; reflexivity. Qed.

#[export] Instance Untouched_LocalPlayer : Untouched (@LocalPlayer T).
Proof. split; reflexivity. Qed.

#[export] Instance Untouched_Players : Untouched (@Players T).
Proof. split; reflexivity. Qed.

#[export] Instance Untouched_Workspace_Gravity : Untouched (@Workspace_Gravity T).
Proof. split; reflexivity. Qed.

#[export] Instance UntouchedByEngine_G : UntouchedByEngine (@G T).
Proof. split; reflexivity. Qed.

#[export] Instance UntouchedByEngine_CharacterComponent_active :
  UntouchedByEngine (@CharacterComponent_active T).
Proof. split; reflexivity. Qed.

Definition already_running : string := "This program is already running!".

(** *** Bins of components *)

(** A bin that holds some queue of items, so that [destroy()] on it walks
    to its end. *)
Definition bin_ok (bin : Bin.t Closure) : Prop :=
  exists items, BinSpec.holds bin items.

(** Every component has such a bin. *)
Definition sound w : Prop :=
  Forall (fun b => bin_ok (ball_bin b)) (balls w)
  /\ Forall (fun c => bin_ok (character_bin c)) (characters w)
  /\ Forall (fun p => bin_ok (player_bin p)) (players w).

(** *** Characters *)

(** A component is live from its construction until [destroy()] has
    emptied its bin. *)
Definition CharacterComponent_live (c : CharacterRef) (w : World T) : bool :=
  match characters w !! c with
  | Some cc => negb (Bin.isEmpty (character_bin cc))
  | None => false
  end.

(** The entries of [CharacterComponent.active] whose component is live. *)
Definition registered_characters (w : World T) : list (Instance * CharacterRef) :=
  filter (fun e => CharacterComponent_live e.2 w = true)
    (map_to_list (CharacterComponent_active w)).

(** *** Balls *)

(** The ball a handler belongs to, for the handlers a BallComponent
    connects. *)
Definition ball_handler (h : Handler) : option nat :=
  match h with
  | H_updateActive this | H_updateTarget this | H_destroyBall this => Some this
  | _ => None
  end.

(** The handlers whose connections the invariants below follow: those of
    a BallComponent and the one [bindToChild] connects. *)
Definition tracked (h : Handler) : bool :=
  match h with
  | H_updateActive _ | H_updateTarget _ | H_destroyBall _ | H_bindToChild _ _ _ => true
  | _ => false
  end.

(** A ball component has not been destroyed: it has been constructed and
    [destroy()] has not emptied its bin. *)
Definition BallComponent_live (this : nat) w : bool :=
  match balls w !! this with
  | Some b => negb (Bin.isEmpty (ball_bin b))
  | None => false
  end.

(** The invariant of the second generation. *)
Record Inv w : Prop := mkInv {
  (* [BallComponent.active], when defined, is a component that is not
     destroyed and whose [active] flag is set *)
  inv_active : forall this,
    BallComponent_active w = Some this ->
    exists b, balls w !! this = Some b
              /\ Bin.isEmpty (ball_bin b) = false /\ isActive b = true;
  (* the bin of a component that is not destroyed holds its release
     closure, and holds every connection that can still call it *)
  inv_bin : forall this b,
    balls w !! this = Some b ->
    exists items,
      BinSpec.holds (ball_bin b) items
      /\ (items <> [] -> Bin.Function (releaseBall this) ∈ items)
      /\ (forall k c, conns w !! k = Some c -> Connected c = true ->
                      ball_handler (handler c) = Some this ->
                      Bin.Connection k ∈ items);
  (* a connected handler belongs to a component that exists *)
  inv_handler : forall k c this,
    conns w !! k = Some c -> Connected c = true ->
    ball_handler (handler c) = Some this -> this < length (balls w);
}.

(** [w'] differs from [w] in nothing a BallComponent or a pending
    [bindToChild] depends on, except that [BallComponent.active] may have
    been cleared and connections may have been disconnected: the
    components and the callback calls are the same, and no connection of a
    tracked handler has been made. *)
Definition ball_quiet w w' : Prop :=
  balls w' = balls w
  /\ (BallComponent_active w' = BallComponent_active w \/ BallComponent_active w' = None)
  /\ invoked w' = invoked w
  /\ (forall k c', conns w' !! k = Some c' -> Connected c' = true ->
                   tracked (handler c') = true -> conns w !! k = Some c').

(** What can happen to the ball components of a running script: the
    module is loaded, the engine reports an event (an attribute change runs
    [updateActive] or [updateTarget] of the components still connected to
    it, a Destroying event their [destroy]), a component is constructed,
    updated, debounced or destroyed.  [updateActive] and [updateTarget] are
    private: besides the constructor only the attribute connections call
    them, and [destroy()] disconnects those, so [updateActive] runs on
    components that are not destroyed. *)
Inductive Move : Type :=
  | M_load
  | M_event (e : Event T)
  | M_construct (instance : nat)
  | M_updateActive (this : nat)
  | M_updateTarget (this : nat)
  | M_debounce (this : nat)
  | M_destroy (this : nat).

Definition move (w : World T) (m : Move) : World T :=
  match m with
  | M_load => (main Gen2 w).2
  | M_event e => step Gen2 e w
  | M_construct instance => (new_BallComponent Gen2 instance w).2
  | M_updateActive this =>
      if BallComponent_live this w then updateActive Gen2 this w else w
  | M_updateTarget this => updateTarget this w
  | M_debounce this => debounce this w
  | M_destroy this => BallComponent_destroy this w
  end.

Definition moves (ms : list Move) (w : World T) : World T := foldl move w ms.

(** *** Bindings *)

Definition bind_handler (h : Handler) : bool :=
  match h with
  | H_bindToChild _ _ _ => true
  | _ => false
  end.

(** No [bindToChild] connection is waiting. *)
Definition none_waiting w : Prop :=
  forall k c, conns w !! k = Some c -> Connected c = true -> bind_handler (handler c) = false.

(** [w'] has the callback calls of [w] and no waiting [bindToChild]
    connection that [w] does not have. *)
Definition calm w w' : Prop :=
  invoked w' = invoked w
  /\ (forall k c', conns w' !! k = Some c' -> Connected c' = true ->
                   bind_handler (handler c') = true -> conns w !! k = Some c').

(** The binding made at connection [k] is the only one that can still be
    waiting, and the callback has not been called since [base]. *)
Definition waiting (base : list (Callback * nat)) (k : nat) (nm : string)
    (cb : Callback) w : Prop :=
  invoked w = base
  /\ (forall k' c, conns w !! k' = Some c -> Connected c = true ->
                   bind_handler (handler c) = true ->
                   k' = k /\ handler c = H_bindToChild k nm cb).

(** The callback has been called once since [base], on [child], and no
    binding is waiting. *)
Definition called (base : list (Callback * nat)) (cb : Callback) (child : nat) w : Prop :=
  invoked w = base ++ [(cb, child)] /\ none_waiting w.

(** The state of the binding: still waiting ([None]), or called on a
    child. *)
Definition binding (base : list (Callback * nat)) (k : nat) (nm : string)
    (cb : Callback) (st : option nat) w : Prop :=
  match st with
  | None => waiting base k nm cb w
  | Some child => called base cb child w
  end.

(** The state stays, or goes from waiting to called on a child of the
    awaited name; it never goes back and never changes the child. *)
Definition advance (w0 : World T) (nm : string) (st st' : option nat) : Prop :=
  st' = st \/ (st = None /\ exists child, st' = Some child /\ Name (inst w0 child) = nm).

End Spec.
End ScriptSpec.

(** ** The decision on one candidate ball *)

Module ParrySpec.
Import Script.
Local Open Scope R_scope.
Implicit Types (w : World R) (g : Generation).

(** The decision the Heartbeat handler takes on the candidate [ball]:
    part_000 takes it in the function given to [forEach], for the
    registry entry [instance -> ball]; part_001 on [BallComponent.active]. *)
Definition decide_parry g (nm : string) (origin motion : Vector3 R)
    (instance : nat) (ball : nat) w : World R :=
  match g with
  | Gen1 => forEach_ball nm origin motion instance ball w
  | Gen2 => parry_active nm origin motion ball w
  end.

(** The time the generation's solver predicts. *)
Definition predicted_time g (position velocity : Vector3 R) w : option R :=
  match g with
  | Gen1 =>
      Solver.evaluateIntercept (X position) (Y position) (Z position)
        (X velocity) (Y velocity) (Z velocity) (RADIUS Gen1)
  | Gen2 =>
      Solver.evaluateCylindricalCollision (X position) (Y position) (Z position)
        (X velocity) (Y velocity) (Z velocity) (gravity w) (RADIUS Gen2) HEIGHT
  end.

(** The parry action was taken on [ball] between [w] and [w']: the key
    was pressed and released, and the ball is debounced. *)
Definition parried (ball : nat) w w' : Prop :=
  input w' = input w ++ [keypress 70; keyrelease 70]
  /\ exists b', balls w' !! ball = Some b' /\ isHit b' = true.

End ParrySpec.

(** ** Places to run the script in *)

Module Fixtures.
Import Script ScriptSpec.
Section Place.
Context {T : Type} `{Number T}.

(** A small place.  Workspace is instance 0 and has no Balls folder yet;
    the local player is instance 1 ("Alice"), whose character is instance
    2, which has a HumanoidRootPart (3) and a Humanoid (4); instance 5 is
    a second character model with the parts 6 and 7; instance 9 is a Balls
    folder, not yet in Workspace, holding the ball 8, a Part whose
    attributes are realBall = true and target = "Alice". *)
Definition origin_vector : Vector3 T := {| X := lit 0; Y := lit 0; Z := lit 0 |}.

Definition object (nm : string) (children : list nat) (character : option nat) : Inst T :=
  {| Name := nm; IsA_Part := false; Position := origin_vector;
     AssemblyLinearVelocity := origin_vector; Attributes := ∅;
     Children := children; Character := character |}.

Definition ball_object : Inst T :=
  {| Name := "Ball"; IsA_Part := true;
     Position := {| X := lit 0; Y := lit 0; Z := lit 19 |};
     AssemblyLinearVelocity := {| X := lit 0; Y := lit 0; Z := lit (-10) |};
     Attributes := <["realBall" := AttrBool true]> (<["target" := AttrString "Alice"]> ∅);
     Children := []; Character := None |}.

Definition place_instances (i : nat) : Inst T :=
  match i with
  | 0 => object "Workspace" [] None
  | 1 => object "Alice" [] (Some 2)
  | 2 => object "Alice" [3; 4] None
  | 3 => object "HumanoidRootPart" [] None
  | 4 => object "Humanoid" [] None
  | 5 => object "Alice" [6; 7] None
  | 6 => object "HumanoidRootPart" [] None
  | 7 => object "Humanoid" [] None
  | 8 => ball_object
  | 9 => object "Balls" [8] None
  | _ => object "" [] None
  end.

Definition place : World T :=
  {| G := ∅; inst := place_instances; Workspace := 0; Workspace_Gravity := lit 196;
     Players := [1]; LocalPlayer := 1; conns := []; input := []; invoked := [];
     gravity := lit 0; balls := []; BallComponent_actives := ∅;
     BallComponent_active := None; characters := []; CharacterComponent_active := ∅;
     players := []; PlayerComponent_active := ∅ |}.

End Place.

Section Duel.
Local Open Scope R_scope.

(** A ball 19 studs from the origin, approaching at 10 studs per second
    a player at rest there: the sphere solver of the first
    generation predicts 0.15 s, below the compensation of 0.2 s. *)
Definition falling_ball : Inst R :=
  {| Name := "Ball"; IsA_Part := true;
     Position := {| X := 0; Y := 0; Z := 19 |};
     AssemblyLinearVelocity := {| X := 0; Y := 0; Z := -10 |};
     Attributes := ∅; Children := []; Character := None |}.

Definition rest : Vector3 R := {| X := 0; Y := 0; Z := 0 |}.

Definition duel : World R :=
  {| G := ∅; inst := fun _ => falling_ball; Workspace := 0; Workspace_Gravity := 196;
     Players := []; LocalPlayer := 1; conns := []; input := []; invoked := [];
     gravity := 196;
     balls := [ {| ball_instance := 8; ball_bin := Bin.new; active := true;
                   target := Some (AttrString "Alice"); isHit := false |} ];
     BallComponent_actives := <[8%nat := 0%nat]> ∅; BallComponent_active := None;
     characters := []; CharacterComponent_active := ∅;
     players := []; PlayerComponent_active := ∅ |}.

End Duel.

(** The place, with binary64 numbers. *)
Definition here : World float := place.

(** The place after the second generation has been loaded: the local
    player has a PlayerComponent (0) holding a CharacterComponent (0). *)
Definition loaded : World float := (main Gen2 here).2.

(** The local player respawns: character-removing, then character-added
    with the model 5. *)
Definition respawned : World float :=
  steps Gen2 [E_CharacterRemoving 1; E_CharacterAdded 1 5] loaded.

(** The Balls folder 9, holding the live ball 8, is added to Workspace
    after the load: the waiting binding calls the container callback, which
    constructs the ball component 0. *)
Definition tracking : list (Move (T:=float)) := [M_load; M_event (E_ChildAdded 0 9)].

End Fixtures.

(** ** What each function of the script can write *)

Module FrameSpec.
Import Script.

(** The state the script assigns to: its connections, the key log, the
    callback log, [gravity], the components and the three registries. *)
Inductive Field : Type :=
  | F_conns
  | F_input
  | F_invoked
  | F_gravity
  | F_balls
  | F_BallComponent_actives
  | F_BallComponent_active
  | F_characters
  | F_players
  | F_PlayerComponent_active.

(** The state a disposal can write: a connection is disconnected, or a
    closure removes a registry entry or clears [BallComponent.active]. *)
Definition writes_disposal : list Field :=
  [F_conns; F_BallComponent_actives; F_BallComponent_active; F_PlayerComponent_active].

Definition writes_updateActive (g : Generation) : list Field :=
  match g with
  | Gen1 => [F_balls]
  | Gen2 => [F_balls; F_BallComponent_active]
  end.

Definition writes_new_BallComponent (g : Generation) : list Field :=
  match g with
  | Gen1 => [F_balls; F_conns; F_BallComponent_actives]
  | Gen2 => [F_balls; F_conns; F_BallComponent_active]
  end.

Definition writes_new_CharacterComponent : list Field := [F_conns; F_characters].

Definition writes_CharacterComponent_destroy : list Field := F_characters :: writes_disposal.

Definition writes_onCharacterAdded : list Field :=
  F_players :: F_characters :: writes_disposal.

Definition writes_new_PlayerComponent : list Field :=
  F_players :: F_characters :: writes_disposal.

Definition writes_invoke : list Field :=
  [F_invoked; F_balls; F_conns; F_BallComponent_active].

Definition writes_useParry : list Field := [F_input; F_balls].

(** The state the module body can write besides [_G]. *)
Definition writes_init : list Field :=
  F_gravity :: F_invoked :: F_balls :: writes_new_PlayerComponent.

(** The state a handler can write when it runs. *)
Definition writes (g : Generation) (h : Handler) : list Field :=
  match h with
  | H_updateActive _ => writes_updateActive g
  | H_updateTarget _ => [F_balls]
  | H_destroyBall _ => F_balls :: writes_disposal
  | H_destroyRig _ => writes_CharacterComponent_destroy
  | H_onCharacterAdded _ => writes_onCharacterAdded
  | H_onCharacterRemoving _ => writes_onCharacterAdded
  | H_onBallAdded => writes_new_BallComponent g
  | H_onPlayerAdded => writes_new_PlayerComponent
  | H_onPlayerRemoving => F_players :: writes_disposal
  | H_bindToChild _ _ _ => writes_invoke
  | H_gravity => [F_gravity]
  | H_heartbeat _ => writes_useParry
  end.

(** The signal each handler is written for. *)
Definition wired_to (s : Signal) (h : Handler) : bool :=
  match h, s with
  | H_updateActive _, AttributeChanged _ attr => String.eqb attr "realBall"
  | H_updateTarget _, AttributeChanged _ attr => String.eqb attr "target"
  | H_destroyBall _, Destroying _ => true
  | H_destroyRig _, (Died _ | Destroying _) => true
  | H_onCharacterAdded _, CharacterAdded _ => true
  | H_onCharacterRemoving _, CharacterRemoving _ => true
  | H_onBallAdded, ChildAdded _ => true
  | H_onPlayerAdded, PlayerAdded => true
  | H_onPlayerRemoving, PlayerRemoving => true
  | H_bindToChild _ _ _, ChildAdded _ => true
  | H_gravity, AttributeChanged _ attr => String.eqb attr "Gravity"
  | H_heartbeat _, Heartbeat => true
  | _, _ => false
  end.

(** The signal the engine fires for an event, if any. *)
Definition fired {T : Type} (e : Event T) : option Signal :=
  match e with
  | E_Heartbeat => Some Heartbeat
  | E_SetAttribute i attr _ => Some (AttributeChanged i attr)
  | E_Destroying i => Some (Destroying i)
  | E_Died h => Some (Died h)
  | E_CharacterAdded player _ => Some (CharacterAdded player)
  | E_CharacterRemoving player => Some (CharacterRemoving player)
  | E_ChildAdded parent _ => Some (ChildAdded parent)
  | E_PlayerAdded _ => Some PlayerAdded
  | E_PlayerRemoving _ => Some PlayerRemoving
  | E_Physics _ _ _ => None
  | E_Gravity _ => None
  end.

Section Spec.
Context {T : Type} `{Number T}.

(** The reading [p] of the world does not look at the field. *)
Definition blind {A : Type} (p : World T -> A) (fd : Field) : Prop :=
  match fd with
  | F_conns => forall v w, p (set_conns v w) = p w
  | F_input => forall v w, p (set_input v w) = p w
  | F_invoked => forall v w, p (set_invoked v w) = p w
  | F_gravity => forall v w, p (set_gravity v w) = p w
  | F_balls => forall v w, p (set_balls v w) = p w
  | F_BallComponent_actives => forall v w, p (set_BallComponent_actives v w) = p w
  | F_BallComponent_active => forall v w, p (set_BallComponent_active v w) = p w
  | F_characters => forall v w, p (set_characters v w) = p w
  | F_players => forall v w, p (set_players v w) = p w
  | F_PlayerComponent_active => forall v w, p (set_PlayerComponent_active v w) = p w
  end.

Implicit Types (w : World T).

(** [p] looks at none of the fields in [written]. *)
Definition Frame {A : Type} (written : list Field) (p : World T -> A) : Prop :=
  forall fd, fd ∈ written -> blind p fd.

(** [n] taps of the F key: each a press followed by its release. *)
Definition taps (n : nat) : list KeyEvent :=
  concat (replicate n [keypress 70; keyrelease 70]).

(** From [w] to [w'] the key log has grown by taps of the F key only. *)
Definition tapped w w' : Prop := exists n, input w' = input w ++ taps n.

(** Every connection joins a handler to a signal it is written for. *)
Definition wired w : Prop :=
  forall k c, conns w !! k = Some c -> wired_to (signal c) (handler c) = true.

(** Every connection of [w'] is so wired, or is a connection of [w] (which
    may have been disconnected since). *)
Definition rewired w w' : Prop :=
  forall k c', conns w' !! k = Some c' ->
    wired_to (signal c') (handler c') = true
    \/ exists c, conns w !! k = Some c /\ signal c = signal c' /\ handler c = handler c'.

End Spec.
End FrameSpec.

(** ** Components: what a constructor makes *)

Module ComponentSpec.
Import Script.
Local Open Scope R_scope.

(** A connection after [Disconnect()]. *)
Definition off (c : Connection) : Connection :=
  {| signal := signal c; handler := handler c; Connected := false |}.

(** The three connections the BallComponent constructor makes for the
    component [this] of [instance]. *)
Definition ball_connections (instance this : nat) : list Connection :=
  [ {| signal := AttributeChanged instance "realBall";
       handler := H_updateActive this; Connected := true |};
    {| signal := AttributeChanged instance "target";
       handler := H_updateTarget this; Connected := true |};
    {| signal := Destroying instance;
       handler := H_destroyBall this; Connected := true |} ].

(** The two connections the PlayerComponent constructor makes. *)
Definition player_connections (instance this : nat) : list Connection :=
  [ {| signal := CharacterAdded instance;
       handler := H_onCharacterAdded this; Connected := true |};
    {| signal := CharacterRemoving instance;
       handler := H_onCharacterRemoving this; Connected := true |} ].

(** A ball at rest 20 studs beside and 9 studs above a player at rest at
    the origin: inside the cylinder of radius 21 and height 21, at
    distance sqrt 481 > 21 from the root. *)
Definition hovering_ball : Inst R :=
  {| Name := "Ball"; IsA_Part := true;
     Position := {| X := 20; Y := 9; Z := 0 |};
     AssemblyLinearVelocity := {| X := 0; Y := 0; Z := 0 |};
     Attributes := ∅; Children := []; Character := None |}.

Definition hover : World R :=
  {| G := ∅; inst := fun _ => hovering_ball; Workspace := 0; Workspace_Gravity := 196;
     Players := []; LocalPlayer := 1; conns := []; input := []; invoked := [];
     gravity := 196;
     balls := [ {| ball_instance := 8; ball_bin := Bin.new; active := true;
                   target := Some (AttrString "Alice"); isHit := false |} ];
     BallComponent_actives := ∅; BallComponent_active := Some 0%nat;
     characters := []; CharacterComponent_active := ∅;
     players := []; PlayerComponent_active := ∅ |}.

End ComponentSpec.

(** ** The solvers over the real numbers *)

Module SolverFacts.
Import Solver SolverSpec.
Local Open Scope R_scope.

Lemma Rltb_true (a b : R) : ltb a b = true <-> a < b.
Proof. cbn. destruct (Rlt_dec a b); split; intros; try lra; discriminate. Qed.

Lemma Rltb_false (a b : R) : ltb a b = false <-> b <= a.
Proof. cbn. destruct (Rlt_dec a b); split; intros; try lra; discriminate. Qed.

Lemma Rleb_true (a b : R) : leb a b = true <-> a <= b.
Proof. cbn. destruct (Rle_dec a b); split; intros; try lra; discriminate. Qed.

Lemma Rleb_false (a b : R) : leb a b = false <-> b < a.
Proof. cbn. destruct (Rle_dec a b); split; intros; try lra; discriminate. Qed.

(** Case analysis on one comparison of the source. *)
Ltac cmp a b H :=
  destruct (ltb (T:=R) a b) eqn:H;
  [ apply Rltb_true in H | apply Rltb_false in H ].

Ltac cmp_le a b H :=
  destruct (leb (T:=R) a b) eqn:H;
  [ apply Rleb_true in H | apply Rleb_false in H ].

Ltac to_R := cbn [lit add sub mul div neg math_sqrt R_Number] in *.

Lemma sq_R (x : R) : sq x = x * x.
Proof. reflexivity. Qed.

Lemma half_R : half = 1 / 2.
Proof. reflexivity. Qed.

Lemma math_max_R (a b : R) : math_max a b = Rmax a b.
Proof.
  unfold math_max. cmp a b Hc; unfold Rmax; destruct (Rle_dec a b); lra.
Qed.

Lemma evaluateIntercept_unfold (x y z vx vy vz r : R) :
  evaluateIntercept x y z vx vy vz r =
  if ltb (discriminant x y z vx vy vz r) 0 then None
  else if ltb 0 (root0 x y z vx vy vz r) then Some (root0 x y z vx vy vz r)
  else if ltb 0 (root1 x y z vx vy vz r) then Some (root1 x y z vx vy vz r)
  else None.
Proof. reflexivity. Qed.

Lemma coef_a_pos (vx vy vz : R) :
  vx <> 0 \/ vy <> 0 \/ vz <> 0 -> 0 < coef_a vx vy vz.
Proof. unfold coef_a, sq; to_R. intros [Hv | [Hv | Hv]]; nra. Qed.

Lemma sphere_root_quadratic (x y z vx vy vz r t : R) :
  sphere_root x y z vx vy vz r t <->
  coef_a vx vy vz * (t * t) + coef_b x y z vx vy vz * t + coef_c x y z r = 0.
Proof.
  unfold sphere_root, dist_sq, coef_a, coef_b, coef_c, sq; to_R. split; intros; nra.
Qed.

(** A quadratic with positive leading coefficient and non-negative
    discriminant has exactly the two roots of the usual formula. *)
Lemma quadratic_roots (a b c t : R) :
  0 < a -> 0 <= b * b - 4 * a * c ->
  (a * (t * t) + b * t + c = 0 <->
   t = (- b - sqrt (b * b - 4 * a * c)) / (2 * a)
   \/ t = (- b + sqrt (b * b - 4 * a * c)) / (2 * a)).
Proof.
  intros Ha Hd.
  set (s := sqrt (b * b - 4 * a * c)).
  assert (Hs : s * s = b * b - 4 * a * c) by (apply sqrt_sqrt; exact Hd).
  assert (Hs0 : 0 <= s) by apply sqrt_pos.
  split.
  - intros Hq.
    assert (Hf : (2 * a * t + b - s) * (2 * a * t + b + s) = 0) by nra.
    apply Rmult_integral in Hf. destruct Hf as [Hf | Hf].
    + right. apply Rmult_eq_reg_l with (r := 2 * a); [ field_simplify; lra | lra ].
    + left. apply Rmult_eq_reg_l with (r := 2 * a); [ field_simplify; lra | lra ].
  - intros [Ht | Ht].
    + assert (Hu : 2 * a * t = - b - s) by (rewrite Ht; field; lra).
      assert (Hz : 4 * a * (a * (t * t) + b * t + c) = 0) by nra.
      apply Rmult_integral in Hz. destruct Hz; lra.
    + assert (Hu : 2 * a * t = - b + s) by (rewrite Ht; field; lra).
      assert (Hz : 4 * a * (a * (t * t) + b * t + c) = 0) by nra.
      apply Rmult_integral in Hz. destruct Hz; lra.
Qed.

Lemma sqrt_eq (x s : R) : 0 <= s -> x = s * s -> sqrt x = s.
Proof. intros Hs ->. apply sqrt_square. exact Hs. Qed.

Lemma div_neg_pos (n d : R) : n < 0 -> 0 < d -> n / d < 0.
Proof.
  intros Hn Hd. unfold Rdiv. pose proof (Rinv_0_lt_compat d Hd). nra.
Qed.

Lemma div_by_zero (n : R) : n / 0 = 0.
Proof. unfold Rdiv. rewrite Rinv_0. ring. Qed.

Lemma roots_ordered (x y z vx vy vz r : R) :
  0 < coef_a vx vy vz -> root0 x y z vx vy vz r <= root1 x y z vx vy vz r.
Proof.
  intros Ha. unfold root0, root1.
  pose proof (sqrt_pos (discriminant x y z vx vy vz r)) as Hs.
  pose proof (Rinv_0_lt_compat (2 * coef_a vx vy vz) ltac:(lra)) as Hi.
  unfold Rdiv. nra.
Qed.

(** C1. With a nonzero relative velocity, [evaluateIntercept] returns the
    smaller root of [|p + v t|^2 = R^2] when it is strictly positive,
    otherwise the larger root when that one is strictly positive, otherwise
    nothing; with a negative discriminant the quadratic has no real root
    and nothing is returned. *)
Theorem evaluateIntercept_root_choice (x y z vx vy vz r : R) :
  vx <> 0 \/ vy <> 0 \/ vz <> 0 ->
  let d := discriminant x y z vx vy vz r in
  let t0 := root0 x y z vx vy vz r in
  let t1 := root1 x y z vx vy vz r in
  (d < 0 ->
     (forall t, sphere_root x y z vx vy vz r t -> False)
     /\ evaluateIntercept x y z vx vy vz r = None)
  /\ (0 <= d ->
     t0 <= t1
     /\ (forall t, sphere_root x y z vx vy vz r t <-> t = t0 \/ t = t1)
     /\ (0 < t0 -> evaluateIntercept x y z vx vy vz r = Some t0)
     /\ (t0 <= 0 -> 0 < t1 -> evaluateIntercept x y z vx vy vz r = Some t1)
     /\ (t1 <= 0 -> evaluateIntercept x y z vx vy vz r = None)).
Proof.
  intros Hv d t0 t1.
  pose proof (coef_a_pos vx vy vz Hv) as Ha.
  rewrite evaluateIntercept_unfold. fold d t0 t1. to_R.
  split.
  - intros Hd. split.
    + intros t Ht. apply sphere_root_quadratic in Ht.
      set (a := coef_a vx vy vz) in *. set (b := coef_b x y z vx vy vz) in *.
      set (c := coef_c x y z r) in *.
      assert (Hd' : b * b - 4 * a * c < 0) by exact Hd.
      clearbody a b c. clear d t0 t1 Hd.
      pose proof (Rle_0_sqr (2 * a * t + b)) as Hsq. unfold Rsqr in Hsq.
      nra.
    + cmp d 0 Hc; [ reflexivity | lra ].
  - intros Hd.
    assert (Hle : t0 <= t1) by (apply roots_ordered; exact Ha).
    split; [ exact Hle | ]. split.
    + intros t. rewrite sphere_root_quadratic.
      apply quadratic_roots; [ exact Ha | exact Hd ].
    + cmp d 0 Hc; [ lra | ].
      split; [ | split ].
      * intros H0. cmp 0 t0 Hc0; [ reflexivity | lra ].
      * intros H0 H1. cmp 0 t0 Hc0; [ lra | ].
        cmp 0 t1 Hc1; [ reflexivity | lra ].
      * intros H1. cmp 0 t0 Hc0; [ lra | ].
        cmp 0 t1 Hc1; [ lra | reflexivity ].
Qed.

(** Scenario A of the description: p = (0,0,5), v = (0,0,-10), R = 2. *)
Lemma scenario_A_roots :
  discriminant 0 0 5 0 0 (-10) 2 = 1600
  /\ root0 0 0 5 0 0 (-10) 2 = 3 / 10
  /\ root1 0 0 5 0 0 (-10) 2 = 7 / 10.
Proof.
  assert (Hd : discriminant 0 0 5 0 0 (-10) 2 = 1600)
    by (unfold discriminant, coef_a, coef_b, coef_c, sq; to_R; lra).
  split; [ exact Hd | ].
  unfold root0, root1. rewrite Hd.
  rewrite (sqrt_eq 1600 40) by lra.
  unfold coef_a, coef_b, sq; to_R. split; lra.
Qed.

Lemma evaluateIntercept_root_choice_witness :
  (0 <> 0 \/ 0 <> 0 \/ -10 <> 0)
  /\ evaluateIntercept 0 0 5 0 0 (-10) 2 = Some (3 / 10).
Proof.
  assert (Hv : 0 <> 0 \/ 0 <> 0 \/ -10 <> 0) by (right; right; lra).
  split; [ exact Hv | ].
  destruct scenario_A_roots as (Hd & H0 & H1).
  destruct (evaluateIntercept_root_choice 0 0 5 0 0 (-10) 2 Hv) as [_ Hpos].
  rewrite Hd, H0 in Hpos.
  destruct (Hpos ltac:(lra)) as (_ & _ & Hfirst & _).
  apply Hfirst. lra.
Defined.

(** C5. When the relative velocity is a positive multiple of the relative
    position and the start point is strictly outside the radius,
    [evaluateIntercept] returns nothing. *)
Theorem evaluateIntercept_moving_away (x y z k r : R) :
  0 < k -> 0 <= r -> r < sqrt (x * x + y * y + z * z) ->
  evaluateIntercept x y z (k * x) (k * y) (k * z) r = None.
Proof.
  intros Hk Hr Hout.
  set (P := x * x + y * y + z * z) in *.
  assert (HP0 : 0 <= P) by (unfold P; nra).
  assert (HP : r * r < P).
  { rewrite <- (sqrt_sqrt P HP0). pose proof (sqrt_pos P). nra. }
  rewrite evaluateIntercept_unfold. to_R.
  assert (Ha : coef_a (k * x) (k * y) (k * z) = k * k * P)
    by (unfold coef_a, sq, P; to_R; ring).
  assert (Hb : coef_b x y z (k * x) (k * y) (k * z) = 2 * k * P)
    by (unfold coef_b, P; to_R; ring).
  assert (Hc : coef_c x y z r = P - r * r)
    by (unfold coef_c, sq, P; to_R; ring).
  assert (Hd : discriminant x y z (k * x) (k * y) (k * z) r = 4 * (k * k) * P * (r * r)).
  { unfold discriminant. rewrite Ha, Hb, Hc. unfold sq; to_R. ring. }
  assert (Hkk : 0 < k * k) by nra.
  assert (Hapos : 0 < k * k * P) by nra.
  assert (HkP : 0 < k * P) by nra.
  assert (Hd0 : 0 <= 4 * (k * k) * P * (r * r)).
  { apply Rmult_le_pos; [ nra | nra ]. }
  set (s := sqrt (discriminant x y z (k * x) (k * y) (k * z) r)).
  assert (Hs0 : 0 <= s) by apply sqrt_pos.
  assert (Hss : s * s = 4 * (k * k) * P * (r * r)).
  { unfold s. rewrite Hd. apply sqrt_sqrt. exact Hd0. }
  assert (Hsb : s < 2 * k * P).
  { assert (Hlt : s * s < (2 * k * P) * (2 * k * P)).
    { rewrite Hss.
      replace (4 * (k * k) * P * (r * r)) with (4 * (k * k) * P * (r * r)) by ring.
      replace (2 * k * P * (2 * k * P)) with (4 * (k * k) * P * P) by ring.
      apply Rmult_lt_compat_l; [ nra | exact HP ]. }
    nra. }
  assert (H0 : root0 x y z (k * x) (k * y) (k * z) r < 0).
  { unfold root0. fold s. rewrite Ha, Hb. apply div_neg_pos; lra. }
  assert (H1 : root1 x y z (k * x) (k * y) (k * z) r < 0).
  { unfold root1. fold s. rewrite Ha, Hb. apply div_neg_pos; lra. }
  cmp (discriminant x y z (k * x) (k * y) (k * z) r) 0 Hc0; [ reflexivity | ].
  cmp 0 (root0 x y z (k * x) (k * y) (k * z) r) Hc1; [ lra | ].
  cmp 0 (root1 x y z (k * x) (k * y) (k * z) r) Hc2; [ lra | reflexivity ].
Qed.

(** Scenario B of the description: p = (0,0,5), v = 2p = (0,0,10), R = 2. *)
Lemma evaluateIntercept_moving_away_witness :
  (0 < 2 /\ 0 <= 2 /\ 2 < sqrt (0 * 0 + 0 * 0 + 5 * 5))
  /\ evaluateIntercept 0 0 5 (2 * 0) (2 * 0) (2 * 5) 2 = None.
Proof.
  assert (Hs : 2 < sqrt (0 * 0 + 0 * 0 + 5 * 5)).
  { rewrite (sqrt_eq (0 * 0 + 0 * 0 + 5 * 5) 5) by lra. lra. }
  split; [ repeat split; [ lra | lra | exact Hs ] | ].
  apply (evaluateIntercept_moving_away 0 0 5 2 2); [ lra | lra | exact Hs ].
Defined.

(** *** The cylinder solver *)

Lemma evaluateCylindricalCollision_unfold (x y z vx vy vz ay r h : R) :
  evaluateCylindricalCollision x y z vx vy vz ay r h =
  if leb (- (h / 2)) y && leb y (h / 2) && leb (sq x + sq z) (sq r) then Some 0
  else if ltb (sq r * (sq vx + sq vz) - sq (vx * z - vz * x)) 0 then None
  else match radiusIntersect y vy ay (h / 2) (radius_t0 x z vx vz r) with
       | Some t => Some t
       | None => heightIntersect x y z vx vy vz ay (sq r) (h / 2) (radius_t0 x z vx vz r)
       end.
Proof. reflexivity. Qed.

(** What the height path can return: one of the two cap candidates, and
    only where the horizontal distance is within the radius. *)
Lemma heightIntersect_Some (x y z vx vy vz ay r_sq D t0 t : R) :
  heightIntersect x y z vx vy vz ay r_sq D t0 = Some t ->
  ((t = upper_t y vy ay D /\ 0 < sq vy + 2 * ay * (D - y))
   \/ (t = lower_t y vy ay D /\ 0 < sq vy - 2 * ay * (D + y)))
  /\ radius_sq_at x z vx vz t <= r_sq.
Proof.
  unfold heightIntersect. to_R. fold (upper_t y vy ay D) (lower_t y vy ay D).
  set (m := math_max t0 0).
  set (ud := sq vy + 2 * ay * (D - y)). set (ld := sq vy - 2 * ay * (D + y)).
  intros Hres.
  assert (Hrad : forall u, (if ltb r_sq (sq (x + vx * u) + sq (z + vz * u))
                           then None else Some u) = Some t ->
                          u = t /\ radius_sq_at x z vx vz t <= r_sq).
  { intros u Hu. cmp r_sq (sq (x + vx * u) + sq (z + vz * u)) Hc; [ discriminate | ].
    injection Hu as ->. split; [ reflexivity | exact Hc ]. }
  cmp 0 ud Hu; cmp 0 ld Hl.
  - cmp m (upper_t y vy ay D) Hum.
    + cbn [orb] in Hres.
      destruct (ltb (lower_t y vy ay D) (upper_t y vy ay D) || ltb m (lower_t y vy ay D));
        apply Hrad in Hres as [<- Hr]; split; auto.
    + cbn [orb] in Hres. cmp m (lower_t y vy ay D) Hlm; [ | discriminate ].
      apply Hrad in Hres as [<- Hr]; split; auto.
  - cmp m (upper_t y vy ay D) Hum; [ | discriminate ].
    apply Hrad in Hres as [<- Hr]; split; auto.
  - cbn [orb] in Hres. cmp m (lower_t y vy ay D) Hlm; [ | discriminate ].
    apply Hrad in Hres as [<- Hr]; split; auto.
  - discriminate.
Qed.








(** *** The height path and the radius-crossing candidate *)

(** With a positive vertical acceleration the time returned by the height
    path is later than [max(t0, 0)]. *)
Lemma heightIntersect_after_min (x y z vx vy vz ay r_sq D t0 t : R) :
  0 < ay ->
  heightIntersect x y z vx vy vz ay r_sq D t0 = Some t ->
  Rmax t0 0 < t /\ radius_sq_at x z vx vz t <= r_sq.
Proof.
  intros Hay Hres.
  pose proof (heightIntersect_Some _ _ _ _ _ _ _ _ _ _ _ Hres) as [_ Hin].
  split; [ | exact Hin ]. clear Hin. revert Hres.
  unfold heightIntersect. to_R. fold (upper_t y vy ay D) (lower_t y vy ay D).
  rewrite math_max_R. set (m := Rmax t0 0).
  set (ud := sq vy + 2 * ay * (D - y)). set (ld := sq vy - 2 * ay * (D + y)).
  assert (Hrad : forall u, (if ltb r_sq (sq (x + vx * u) + sq (z + vz * u))
                           then None else Some u) = Some t -> u = t).
  { intros u Hu. destruct (ltb r_sq _); [ discriminate | ]. injection Hu as ->. reflexivity. }
  assert (Horder : 0 < ud -> 0 < ld -> upper_t y vy ay D <= lower_t y vy ay D).
  { intros Hu Hl. unfold upper_t, lower_t. fold ud ld.
    pose proof (sqrt_pos ud). pose proof (sqrt_pos ld).
    pose proof (Rinv_0_lt_compat ay Hay). unfold Rdiv. nra. }
  intros Hres.
  cmp 0 ud Hu; cmp 0 ld Hl.
  - specialize (Horder Hu Hl).
    cmp m (upper_t y vy ay D) Hum.
    + cbn [orb] in Hres.
      cmp (lower_t y vy ay D) (upper_t y vy ay D) Hlu; [ lra | ].
      cbn [orb] in Hres.
      cmp m (lower_t y vy ay D) Hlm; apply Hrad in Hres as <-; lra.
    + cbn [orb] in Hres. cmp m (lower_t y vy ay D) Hlm; [ | discriminate ].
      apply Hrad in Hres as <-. lra.
  - cmp m (upper_t y vy ay D) Hum; [ | discriminate ].
    apply Hrad in Hres as <-. lra.
  - cbn [orb] in Hres. cmp m (lower_t y vy ay D) Hlm; [ | discriminate ].
    apply Hrad in Hres as <-. lra.
  - discriminate.
Qed.

(** With a positive vertical acceleration, a time that
    [evaluateCylindricalCollision] returns from the height path is later
    than [max(t0, 0)], and the horizontal distance from the axis is within
    the radius at that time. *)
Theorem cap_path_after_min (x y z vx vy vz ay r h t : R) :
  0 < ay ->
  leb (- (h / 2)) y && leb y (h / 2) && leb (sq x + sq z) (sq r) = false ->
  radiusIntersect y vy ay (h / 2) (radius_t0 x z vx vz r) = None ->
  evaluateCylindricalCollision x y z vx vy vz ay r h = Some t ->
  Rmax (radius_t0 x z vx vz r) 0 < t /\ radius_sq_at x z vx vz t <= r * r.
Proof.
  intros Hay Hout Hrad. rewrite evaluateCylindricalCollision_unfold. to_R.
  rewrite Hout, Hrad.
  destruct (ltb (sq r * (sq vx + sq vz) - sq (vx * z - vz * x)) 0); [ discriminate | ].
  apply heightIntersect_after_min. exact Hay.
Qed.

(** x = -20, y = 106, z = 0, v = (1, -21, 0), ay = 2, R = 10, H = 4: the
    side is reached at t0 = 10, below the cylinder; the bottom cap is
    crossed upwards at 12, within the radius. *)
Lemma cap_path_after_min_witness :
  (0 < 2
   /\ leb (- (4 / 2)) 106 && leb 106 (4 / 2) && leb (sq (-20) + sq 0) (sq 10) = false
   /\ radiusIntersect 106 (-21) 2 (4 / 2) (radius_t0 (-20) 0 1 0 10) = None
   /\ evaluateCylindricalCollision (-20) 106 0 1 (-21) 0 2 10 4 = Some 12)
  /\ Rmax (radius_t0 (-20) 0 1 0 10) 0 < 12
  /\ radius_sq_at (-20) 0 1 0 12 <= 10 * 10.
Proof.
  assert (Ht0 : radius_t0 (-20) 0 1 0 10 = 10).
  { unfold radius_t0.
    rewrite (sqrt_eq (sq 10 * (sq 1 + sq 0) - sq (1 * 0 - 0 * -20)) 10)
      by (unfold sq; to_R; lra).
    unfold sq; to_R. lra. }
  assert (Hout : leb (- (4 / 2)) 106 && leb 106 (4 / 2) && leb (sq (-20) + sq 0) (sq 10) = false).
  { cmp_le 106 (4 / 2) Hc; [ lra | ]. now rewrite andb_false_r. }
  assert (Hrad : radiusIntersect 106 (-21) 2 (4 / 2) (radius_t0 (-20) 0 1 0 10) = None).
  { rewrite Ht0. unfold radiusIntersect, half, sq. to_R.
    cmp 0 10 Hc; [ | lra ].
    cmp_le (- (4 / 2)) (106 + -21 * 10 + 1 / 2 * 2 * (10 * 10)) Hlo; [ lra | reflexivity ]. }
  assert (Hh : heightIntersect (-20) 106 0 1 (-21) 0 2 (sq 10) (4 / 2) 10 = Some 12).
  { unfold heightIntersect. to_R. rewrite math_max_R.
    rewrite (sqrt_eq (sq (-21) + 2 * 2 * (4 / 2 - 106)) 5) by (unfold sq; to_R; lra).
    rewrite (sqrt_eq (sq (-21) - 2 * 2 * (4 / 2 + 106)) 3) by (unfold sq; to_R; lra).
    assert (Hm : Rmax 10 0 = 10) by (apply Rmax_left; lra). rewrite Hm.
    replace ((- -21 - 5) / 2) with 8 by lra.
    replace ((- -21 + 3) / 2) with 12 by lra.
    unfold sq; to_R.
    cmp 0 (-21 * -21 + 2 * 2 * (4 / 2 - 106)) H1; [ | lra ].
    cmp 0 (-21 * -21 - 2 * 2 * (4 / 2 + 106)) H2; [ | lra ].
    cmp 10 8 H3; [ lra | ].
    cmp 10 12 H4; [ | lra ]. cbn [orb].
    cmp (10 * 10) ((-20 + 1 * 12) * (-20 + 1 * 12) + (0 + 0 * 12) * (0 + 0 * 12)) H5;
      [ lra | reflexivity ]. }
  assert (Hres : evaluateCylindricalCollision (-20) 106 0 1 (-21) 0 2 10 4 = Some 12).
  { rewrite evaluateCylindricalCollision_unfold. to_R. rewrite Hout, Hrad, Ht0, Hh.
    cmp (sq 10 * (sq 1 + sq 0) - sq (1 * 0 - 0 * -20)) 0 H3; [ | reflexivity ].
    unfold sq in H3; to_R. lra. }
  split; [ repeat split; [ lra | exact Hout | exact Hrad | exact Hres ] | ].
  exact (cap_path_after_min (-20) 106 0 1 (-21) 0 2 10 4 12 ltac:(lra) Hout Hrad Hres).
Defined.

(** C2, where the code departs from it.  With a negative vertical
    acceleration the height path can return a time before [max(t0, 0)],
    here a negative one: x = 0, y = 5/4, z = 0, v = (1, 0, 0), ay = -2,
    R = 10, H = 2.  The containment test fails (y > H/2), t0 = -10 is not
    accepted, and the upper candidate 1/2 is replaced by the lower
    candidate -3/2 because it is smaller, without a comparison with
    [min = 0] (line 143). *)
Lemma evaluateCylindricalCollision_before_min :
  radius_t0 0 0 1 0 10 = -10
  /\ radiusIntersect (5 / 4) 0 (-2) (2 / 2) (-10) = None
  /\ heightIntersect 0 (5 / 4) 0 1 0 0 (-2) (sq 10) (2 / 2) (-10) = Some (- 3 / 2)
  /\ evaluateCylindricalCollision 0 (5 / 4) 0 1 0 0 (-2) 10 2 = Some (- 3 / 2)
  /\ - 3 / 2 < Rmax (-10) 0.
Proof.
  assert (Ht0 : radius_t0 0 0 1 0 10 = -10).
  { unfold radius_t0.
    rewrite (sqrt_eq (sq 10 * (sq 1 + sq 0) - sq (1 * 0 - 0 * 0)) 10)
      by (unfold sq; to_R; lra).
    unfold sq; to_R. lra. }
  assert (Hrad : radiusIntersect (5 / 4) 0 (-2) (2 / 2) (-10) = None).
  { unfold radiusIntersect. to_R. cmp 0 (-10) Hc; [ lra | reflexivity ]. }
  assert (Hh : heightIntersect 0 (5 / 4) 0 1 0 0 (-2) (sq 10) (2 / 2) (-10) = Some (- 3 / 2)).
  { unfold heightIntersect. to_R. rewrite math_max_R.
    rewrite (sqrt_eq (sq 0 + 2 * -2 * (2 / 2 - 5 / 4)) 1) by (unfold sq; to_R; lra).
    rewrite (sqrt_eq (sq 0 - 2 * -2 * (2 / 2 + 5 / 4)) 3) by (unfold sq; to_R; lra).
    assert (Hm : Rmax (-10) 0 = 0) by (apply Rmax_right; lra). rewrite Hm.
    replace ((- 0 - 1) / -2) with (1 / 2) by lra.
    replace ((- 0 + 3) / -2) with (- 3 / 2) by lra.
    unfold sq; to_R.
    cmp 0 (0 * 0 + 2 * -2 * (2 / 2 - 5 / 4)) H1; [ | lra ].
    cmp 0 (0 * 0 - 2 * -2 * (2 / 2 + 5 / 4)) H2; [ | lra ].
    cmp 0 (1 / 2) H3; [ | lra ].
    cmp (- 3 / 2) (1 / 2) H4; [ | lra ]. cbn [orb].
    cmp (10 * 10) ((0 + 1 * (- 3 / 2)) * (0 + 1 * (- 3 / 2)) + (0 + 0 * (- 3 / 2)) * (0 + 0 * (- 3 / 2))) H5;
      [ lra | reflexivity ]. }
  split; [ exact Ht0 | ]. split; [ exact Hrad | ]. split; [ exact Hh | ]. split.
  - rewrite evaluateCylindricalCollision_unfold. to_R. rewrite Ht0, Hrad, Hh.
    cmp_le (- (2 / 2)) (5 / 4) H1; [ | lra ].
    cmp_le (5 / 4) (2 / 2) H2; [ lra | ]. cbn [andb].
    cmp (sq 10 * (sq 1 + sq 0) - sq (1 * 0 - 0 * 0)) 0 H3; [ | reflexivity ].
    unfold sq in H3; to_R. lra.
  - rewrite Rmax_right by lra. lra.
Qed.

End SolverFacts.

(** ** Bin: the linked nodes hold a queue *)

Module BinFacts.
Import Bin BinSpec.
Section BinFacts.
Context {F : Type}.
Implicit Types (b : Bin.t F) (i : Destructible F) (ns : list (Node F)).
Implicit Types (items args : list (Destructible F)) (path : list nat).

Lemma linked_lt ns h path items :
  linked ns h path items -> Forall (fun a => a < length ns) path.
Proof.
  induction 1 as [| a n path items Ha _ IH]; constructor; [ | exact IH ].
  eapply lookup_lt_Some. exact Ha.
Qed.

Lemma linked_last ns h path items tl :
  linked ns h path items -> last path = Some tl ->
  exists n, ns !! tl = Some n /\ next n = None.
Proof.
  induction 1 as [| a n path items Ha Hrest IH]; [ discriminate | ].
  destruct path as [| a' path'].
  - cbn. intros [= <-]. inversion Hrest; subst. eauto.
  - rewrite last_cons_cons. exact IH.
Qed.

Lemma linked_length ns h path items :
  linked ns h path items -> length items = length path.
Proof. induction 1; cbn; congruence. Qed.

(** Appending a node and writing it into the [next] of the last node of
    the chain extends the chain by that node. *)
Lemma linked_extend ns h path items tl i :
  linked ns h path items -> last path = Some tl ->
  linked
    (alter (fun n => {| item := item n; next := Some (length ns) |}) tl
       (ns ++ [ {| item := i; next := None |} ]))
    h (path ++ [length ns]) (items ++ [i]).
Proof.
  intros Hl. revert tl.
  induction Hl as [| a n path items Ha Hrest IH]; intros tl Hlast; [ discriminate | ].
  pose proof (lookup_lt_Some _ _ _ Ha) as Hlt.
  destruct path as [| a' path'].
  - cbn in Hlast. injection Hlast as <-. inversion Hrest as [Hn | ]; subst.
    cbn [app]. 
    eapply (linked_cons _ a {| item := item n; next := Some (length ns) |}).
    + rewrite list_lookup_alter_eq, lookup_app_l, Ha by exact Hlt. reflexivity.
    + cbn [next].
      eapply (linked_cons _ (length ns) {| item := i; next := None |}); [ | constructor ].
      rewrite list_lookup_alter_ne by lia.
      rewrite lookup_app_r, Nat.sub_diag by lia. reflexivity.
  - rewrite last_cons_cons in Hlast.
    destruct (linked_last _ _ _ _ _ Hrest Hlast) as (nt & Hnt & Hnone).
    assert (Hne : tl <> a).
    { intros ->. rewrite Ha in Hnt. injection Hnt as ->.
      inversion Hrest; subst. congruence. }
    cbn [app]. eapply linked_cons.
    + rewrite list_lookup_alter_ne, lookup_app_l by (exact Hne || exact Hlt). exact Ha.
    + apply IH. exact Hlast.
Qed.

Lemma holds_new : holds (@Bin.new F) [].
Proof.
  exists []. cbn. split; [ constructor | ]. split; [ constructor | ].
  split; [ congruence | discriminate ].
Qed.

Lemma holds_link b items i : holds b items -> holds (link i b) (items ++ [i]).
Proof.
  destruct b as [ns h tl]. unfold holds, link. cbn [nodes head tail].
  intros (path & Hl & Hnd & Htail & Hvalid).
  pose proof (linked_lt _ _ _ _ Hl) as Hlt.
  exists (path ++ [length ns]).
  assert (Hfresh : length ns ∉ path).
  { intros Hin. rewrite Forall_forall in Hlt. specialize (Hlt _ Hin). lia. }
  split; [ | split; [ | split ] ].
  - destruct path as [| a path'].
    + inversion Hl; subst. cbn [app].
      eapply (linked_cons _ (length ns) {| item := i; next := None |});
        [ | constructor ].
      destruct tl as [tl |].
      * specialize (Hvalid tl eq_refl).
        rewrite list_lookup_alter_ne by lia.
        rewrite lookup_app_r, Nat.sub_diag by lia. reflexivity.
      * rewrite lookup_app_r, Nat.sub_diag by lia. reflexivity.
    + rewrite (Htail ltac:(discriminate)).
      destruct (last (a :: path')) as [tl' |] eqn:Hlast.
      * inversion Hl; subst. apply linked_extend; assumption.
      * apply last_None in Hlast. discriminate.
  - apply NoDup_app. split; [ exact Hnd | ]. split.
    + intros a Ha Hin. apply list_elem_of_singleton in Hin. subst. contradiction.
    + apply NoDup_singleton.
  - intros _. rewrite last_snoc. reflexivity.
  - intros tl' [= <-].
    destruct tl; rewrite ?length_alter, length_app; cbn; lia.
Qed.

Lemma holds_batch args : forall b items,
  holds b items -> holds (batch args b) (items ++ args).
Proof.
  induction args as [| i args IH]; intros b items Hb; cbn.
  - rewrite app_nil_r. exact Hb.
  - replace (items ++ i :: args) with ((items ++ [i]) ++ args)
      by (rewrite <- app_assoc; reflexivity).
    apply IH, holds_link, Hb.
Qed.

(** The loop disposes the linked items in order and ends on an empty head,
    given one iteration per linked node. *)
Lemma destroy_loop_linked ns tl : forall path h items fuel,
  linked ns h path items -> length path <= fuel ->
  destroy_loop fuel {| nodes := ns; head := h; tail := tl |}
  = Some ({| nodes := ns; head := None; tail := tl |}, dispose <$> items).
Proof.
  induction path as [| a path IH]; intros h items fuel Hl Hfuel;
    inversion Hl as [| a' n path' items' Ha Hrest]; subst.
  - destruct fuel; reflexivity.
  - destruct fuel as [| fuel]; [ cbn in Hfuel; lia | ].
    cbn [destroy_loop head nodes tail]. rewrite Ha.
    rewrite (IH (next n) items' fuel Hrest) by (cbn in Hfuel; lia).
    reflexivity.
Qed.

Lemma path_bound (path : list nat) (n : nat) :
  NoDup path -> Forall (fun a => a < n) path -> length path <= n.
Proof.
  intros Hnd Hlt.
  assert (Hn : length (seq 0 n) = n) by apply length_seq.
  rewrite <- Hn at 1. apply submseteq_length, NoDup_submseteq; [ exact Hnd | ].
  intros a Ha. rewrite Forall_forall in Hlt. apply elem_of_seq. specialize (Hlt a Ha). lia.
Qed.

(** [destroy()] on a bin holding [items]: the loop ends, having disposed
    exactly [items] in order, and the bin holds nothing. *)
Lemma destroy_holds b items :
  holds b items ->
  exists b',
    destroy b = Some (b', dispose <$> items)
    /\ holds b' [] /\ isEmpty b' = true
    /\ b' = {| nodes := nodes b; head := None; tail := tail b |}.
Proof.
  intros (path & Hl & Hnd & Htail & Hvalid).
  exists {| nodes := nodes b; head := None; tail := tail b |}.
  split; [ | split; [ | split; reflexivity ] ].
  - unfold destroy. destruct b as [ns h tl]. cbn [nodes head tail] in *.
    apply (destroy_loop_linked ns tl path); [ exact Hl | ].
    apply path_bound; [ exact Hnd | eapply linked_lt; exact Hl ].
  - exists []. cbn. split; [ constructor | ]. split; [ constructor | ].
    split; [ congruence | exact Hvalid ].
Qed.

Lemma destroy_empty b :
  head b = None -> destroy b = Some (b, []).
Proof.
  intros Hh. unfold destroy. destruct b as [ns h tl]. cbn in Hh. subst.
  destruct (length _); reflexivity.
Qed.

Lemma isEmpty_holds b items : holds b items -> isEmpty b = true <-> items = [].
Proof.
  intros (path & Hl & _). unfold isEmpty.
  inversion Hl; subst; split; intros; congruence.
Qed.

(** Any sequence of calls runs to its end; the disposals made are the
    handles inserted before the last [destroy()], and the bin holds the
    ones inserted since. *)
Lemma calls_holds (cs : list (Call F)) : forall b items log,
  holds b items ->
  exists b' log',
    calls cs (b, log) = Some (b', log')
    /\ holds b' (waiting cs items)
    /\ log' ++ (dispose <$> waiting cs items)
       = log ++ (dispose <$> (items ++ inserted cs)).
Proof.
  induction cs as [| c cs IH]; intros b items log Hb.
  - exists b, log. cbn. rewrite app_nil_r. auto.
  - destruct c as [i | args |]; cbn [calls call inserted waiting fst snd].
    + destruct (IH (add i b) (items ++ [i]) log (holds_link _ _ _ Hb))
        as (b' & log' & Hrun & Hh & Hlog).
      exists b', log'. rewrite Hrun, Hlog, <- app_assoc. auto.
    + destruct (IH (batch args b) (items ++ args) log (holds_batch _ _ _ Hb))
        as (b' & log' & Hrun & Hh & Hlog).
      exists b', log'. rewrite Hrun, Hlog, <- app_assoc. auto.
    + destruct (destroy_holds _ _ Hb) as (b1 & Hd & Hh1 & _).
      rewrite Hd.
      destruct (IH b1 [] (log ++ (dispose <$> items)) Hh1)
        as (b' & log' & Hrun & Hh & Hlog).
      exists b', log'. rewrite Hrun, Hlog. cbn [app].
      rewrite fmap_app, app_assoc. auto.
Qed.

(** C6. After any sequence of [add], [batch] and [destroy] calls on a new
    Bin, a further [destroy()] ends, disposes exactly the handles inserted
    since the previous [destroy()], each once and oldest first, and leaves
    [isEmpty()] true; over the whole history every inserted handle has then
    been disposed exactly once, in insertion order.  A second [destroy()]
    disposes nothing and changes nothing, and [destroy()] on a new Bin
    does nothing. *)
Theorem destroy_fifo_once (cs : list (Call F)) :
  exists b log b',
    calls cs (Bin.new, []) = Some (b, log)
    /\ destroy b = Some (b', dispose <$> waiting cs [])
    /\ log ++ (dispose <$> waiting cs []) = dispose <$> inserted cs
    /\ isEmpty b' = true
    /\ destroy b' = Some (b', [])
    /\ destroy (@Bin.new F) = Some (Bin.new, []).
Proof.
  destruct (calls_holds cs Bin.new [] [] holds_new) as (b & log & Hrun & Hh & Hlog).
  destruct (destroy_holds _ _ Hh) as (b' & Hd & Hh' & He & Hb').
  exists b, log, b'. repeat split; try assumption.
  apply destroy_empty. rewrite Hb'. reflexivity.
Qed.

End BinFacts.
End BinFacts.

(** ** The script in its engine: what no handler writes *)

Module ScriptFacts.
Import Script ScriptSpec.
Section Facts.
Context {T : Type} `{Number T}.
Implicit Types (w : World T) (g : Generation).

Section Untouched.
Context {A : Type} (p : World T -> A) `{!Untouched p}.

Ltac setters :=
  repeat first
    [ rewrite untouched_conns | rewrite untouched_input
    | rewrite untouched_invoked | rewrite untouched_gravity | rewrite untouched_balls
    | rewrite untouched_BallComponent_actives | rewrite untouched_BallComponent_active
    | rewrite untouched_characters | rewrite untouched_players
    | rewrite untouched_PlayerComponent_active ].

Lemma untouched_foldl {B : Type} (f : World T -> B -> World T) (l : list B) :
  (forall w b, p (f w b) = p w) -> forall w, p (foldl f w l) = p w.
Proof.
  intros Hf. induction l as [| b l IH]; intros w; cbn; [ reflexivity | ].
  rewrite IH. apply Hf.
Qed.

Lemma untouched_Connect s h w : p (Connect s h w).2 = p w.
Proof. unfold Connect. cbn. now setters. Qed.

Lemma untouched_Disconnect c w : p (Disconnect c w) = p w.
Proof. unfold Disconnect. now setters. Qed.

Lemma untouched_callClosure f w : p (callClosure f w) = p w.
Proof. destruct f; cbn; repeat case_match; now setters. Qed.

Lemma untouched_disposal w d : p (disposal w d) = p w.
Proof.
  destruct d; cbn; auto using untouched_callClosure, untouched_Disconnect.
Qed.

Lemma untouched_disposals ds w : p (foldl disposal w ds) = p w.
Proof. apply untouched_foldl. apply untouched_disposal. Qed.

Lemma untouched_set_ball this f w : p (set_ball this f w) = p w.
Proof. unfold set_ball. now setters. Qed.

Lemma untouched_updateTarget this w : p (updateTarget this w) = p w.
Proof. unfold updateTarget. case_match; [ apply untouched_set_ball | reflexivity ]. Qed.

Lemma untouched_updateActive g this w : p (updateActive g this w) = p w.
Proof.
  unfold updateActive. destruct g; repeat case_match; setters;
    rewrite ?untouched_set_ball; reflexivity.
Qed.

Lemma untouched_debounce this w : p (debounce this w) = p w.
Proof. apply untouched_set_ball. Qed.

Lemma untouched_ball_batch this args w : p (ball_batch this args w) = p w.
Proof. apply untouched_set_ball. Qed.

Lemma untouched_new_BallComponent g instance w :
  p (new_BallComponent g instance w).2 = p w.
Proof.
  unfold new_BallComponent, Connect. destruct g; lazy beta iota zeta; cbn [fst snd];
    setters; rewrite !untouched_ball_batch; setters;
    rewrite untouched_ball_batch; setters;
    rewrite untouched_updateTarget, untouched_updateActive; now setters.
Qed.

Lemma untouched_BallComponent_destroy this w : p (BallComponent_destroy this w) = p w.
Proof.
  unfold BallComponent_destroy. repeat case_match; try reflexivity.
  rewrite untouched_disposals. apply untouched_set_ball.
Qed.

Lemma untouched_new_CharacterComponent instance w :
  p (new_CharacterComponent instance w).2 = p w.
Proof.
  unfold new_CharacterComponent, Connect. repeat case_match; try reflexivity.
  lazy beta iota zeta; cbn [fst snd]. now setters.
Qed.

Lemma untouched_CharacterComponent_destroy this w :
  p (CharacterComponent_destroy this w) = p w.
Proof.
  unfold CharacterComponent_destroy. repeat case_match; try reflexivity.
  rewrite untouched_disposals. now setters.
Qed.

Lemma untouched_destroy_character_of this w : p (destroy_character_of this w) = p w.
Proof.
  unfold destroy_character_of. case_match;
    [ apply untouched_CharacterComponent_destroy | reflexivity ].
Qed.

Lemma untouched_onCharacterAdded this character w :
  p (onCharacterAdded this character w) = p w.
Proof.
  unfold onCharacterAdded.
  pose proof (untouched_new_CharacterComponent character (destroy_character_of this w)) as Hn.
  destruct (new_CharacterComponent character (destroy_character_of this w)) as [[c | msg] w'];
    cbn in Hn; unfold set_character; setters; rewrite Hn;
    apply untouched_destroy_character_of.
Qed.

Lemma untouched_onCharacterRemoving this w : p (onCharacterRemoving this w) = p w.
Proof.
  unfold onCharacterRemoving, set_character. setters.
  apply untouched_destroy_character_of.
Qed.

Lemma untouched_new_PlayerComponent instance w :
  p (new_PlayerComponent instance w).2 = p w.
Proof.
  unfold new_PlayerComponent, Connect, player_batch.
  lazy beta iota zeta; cbn [fst snd]. setters.
  case_match; [ rewrite untouched_onCharacterAdded | ]; now setters.
Qed.

Lemma untouched_PlayerComponent_destroy this w :
  p (PlayerComponent_destroy this w) = p w.
Proof.
  unfold PlayerComponent_destroy. repeat case_match; try reflexivity.
  rewrite untouched_disposals. now setters.
Qed.

Lemma untouched_onBallAdded g instance w : p (onBallAdded g instance w) = p w.
Proof.
  unfold onBallAdded. case_match; [ apply untouched_new_BallComponent | reflexivity ].
Qed.

Lemma untouched_onBallContainerAdded container w :
  p (onBallContainerAdded container w) = p w.
Proof.
  unfold onBallContainerAdded. rewrite untouched_Connect.
  apply untouched_foldl. intros; apply untouched_onBallAdded.
Qed.

Lemma untouched_onPlayerAdded instance w : p (onPlayerAdded instance w) = p w.
Proof. apply untouched_new_PlayerComponent. Qed.

Lemma untouched_invoke callback child w : p (invoke callback child w) = p w.
Proof.
  unfold invoke. destruct callback. rewrite untouched_onBallContainerAdded. now setters.
Qed.

Lemma untouched_bindToChild parent nm callback w :
  p (bindToChild parent nm callback w) = p w.
Proof.
  unfold bindToChild. case_match; [ apply untouched_invoke | apply untouched_Connect ].
Qed.

Lemma untouched_bindToChild_handler connection nm callback child w :
  p (bindToChild_handler connection nm callback child w) = p w.
Proof.
  unfold bindToChild_handler. case_match; [ | reflexivity ].
  rewrite untouched_invoke. apply untouched_Disconnect.
Qed.

Lemma untouched_useParry ball w : p (useParry ball w) = p w.
Proof. unfold useParry. rewrite untouched_debounce. now setters. Qed.

Lemma untouched_forEach_ball nm origin motion instance ball w :
  p (forEach_ball nm origin motion instance ball w) = p w.
Proof.
  unfold forEach_ball. repeat case_match; auto using untouched_useParry.
Qed.

Lemma untouched_parry_active nm origin motion ball w :
  p (parry_active nm origin motion ball w) = p w.
Proof.
  unfold parry_active. repeat case_match; auto using untouched_useParry.
Qed.

Lemma untouched_heartbeat g player w : p (heartbeat g player w) = p w.
Proof.
  unfold heartbeat. destruct g; repeat case_match; try reflexivity.
  - apply (map_fold_weak_ind (fun r _ => p r = p w)); [ reflexivity | ].
    intros i x m r _ Hr. rewrite untouched_forEach_ball. exact Hr.
  - apply untouched_parry_active.
Qed.

Lemma untouched_runHandler g h arg w : p (runHandler g h arg w) = p w.
Proof.
  destruct h, arg; cbn [runHandler]; repeat case_match;
    auto using untouched_updateActive, untouched_updateTarget,
      untouched_BallComponent_destroy, untouched_CharacterComponent_destroy,
      untouched_onCharacterAdded, untouched_onCharacterRemoving, untouched_onBallAdded,
      untouched_onPlayerAdded, untouched_PlayerComponent_destroy,
      untouched_bindToChild_handler, untouched_heartbeat, untouched_gravity.
Qed.

Lemma untouched_fire g s arg w : p (fire (runHandler g) s arg w) = p w.
Proof.
  unfold fire. apply untouched_foldl. intros w' c.
  repeat case_match; auto using untouched_runHandler.
Qed.

Lemma untouched_ComponentController_init g w :
  p (ComponentController_init g w).2 = p w.
Proof.
  unfold ComponentController_init.
  destruct g.
  - destruct (WaitForChild (Workspace w) "Balls" w) as [folder |]; [ | reflexivity ].
    cbn [snd]. rewrite !untouched_Connect.
    rewrite untouched_foldl by (intros; apply untouched_onPlayerAdded).
    rewrite untouched_Connect.
    apply untouched_foldl. intros; apply untouched_onBallAdded.
  - cbn [snd]. rewrite !untouched_Connect.
    rewrite untouched_foldl by (intros; apply untouched_onPlayerAdded).
    apply untouched_bindToChild.
Qed.

Lemma untouched_VariableController_init w : p (VariableController_init w) = p w.
Proof. unfold VariableController_init. rewrite untouched_Connect. now setters. Qed.

Lemma untouched_ParryController_init w : p (ParryController_init w) = p w.
Proof. unfold ParryController_init. apply untouched_Connect. Qed.

End Untouched.

Section UntouchedByEngine.
Context {A : Type} (p : World T -> A) `{!Untouched p, !UntouchedByEngine p}.

Lemma untouched_step g e w : p (step g e w) = p w.
Proof.
  destruct e; cbn [step]; unfold set_instance;
    rewrite ?untouched_inst, ?untouched_Players, ?untouched_Workspace_Gravity,
      ?(untouched_fire p);
    rewrite ?untouched_inst, ?untouched_Players; reflexivity.
Qed.

Lemma untouched_steps g es w : p (steps g es w) = p w.
Proof. apply (untouched_foldl p). intros; apply untouched_step. Qed.

End UntouchedByEngine.

(** *** The module guard *)

Lemma main_guarded g w :
  G w !! "bladeball" = Some true -> main g w = (Throw already_running, w).
Proof. intros Hg. unfold main. rewrite bool_decide_eq_true_2 by exact Hg. reflexivity. Qed.

(** A load that passes the guard leaves it set, whether or not the rest
    of the initialisation succeeds. *)
Lemma main_sets_guard g w :
  G w !! "bladeball" <> Some true ->
  G (main g w).2 = <["bladeball" := true]> (G w).
Proof.
  intros Hg. unfold main. rewrite bool_decide_eq_false_2 by exact Hg.
  set (w1 := match g with
             | Gen1 => set_G (<["bladeball":=true]> (G w)) w
             | Gen2 => set_gravity _ (set_G (<["bladeball":=true]> (G w)) w)
             end).
  assert (H1 : G w1 = <["bladeball" := true]> (G w)) by (destruct g; reflexivity).
  pose proof (untouched_ComponentController_init (@G T) g w1) as Hc.
  clearbody w1.
  destruct (ComponentController_init g w1) as [[[] | msg] w2]; cbn [snd] in *.
  - rewrite (untouched_ParryController_init (@G T)).
    destruct g; [ | rewrite (untouched_VariableController_init (@G T)) ]; congruence.
  - congruence.
Qed.

(** The second generation has no failing path after the guard. *)
Lemma main_Gen2_succeeds w :
  G w !! "bladeball" <> Some true ->
  (main Gen2 w).1 = Ok "Initialized Successfully".
Proof.
  intros Hg. unfold main. rewrite bool_decide_eq_false_2 by exact Hg. reflexivity.
Qed.

(** C9. Loading the module while [_G["bladeball"]] is set throws and leaves
    the world as it was: no component, connection or registry entry is
    made.  A load that passes the guard sets it, so that, whatever the
    engine does afterwards, a further load (of either generation) throws
    in the same way. *)
Theorem guard_refuses_second_load g g' w :
  (G w !! "bladeball" = Some true -> main g w = (Throw already_running, w))
  /\ (G w !! "bladeball" <> Some true ->
      forall es,
        G (steps g es (main g w).2) !! "bladeball" = Some true
        /\ main g' (steps g es (main g w).2)
           = (Throw already_running, steps g es (main g w).2)).
Proof.
  split; [ apply main_guarded | ].
  intros Hg es.
  assert (Hset : G (steps g es (main g w).2) !! "bladeball" = Some true).
  { rewrite (untouched_steps (@G T)), main_sets_guard by exact Hg.
    apply lookup_insert_eq. }
  split; [ exact Hset | apply main_guarded; exact Hset ].
Qed.

End Facts.
End ScriptFacts.

(** ** Every [destroy()] of a component returns *)

Module SoundFacts.
Import Script ScriptSpec ScriptFacts.
Section Facts.
Context {T : Type} `{Number T}.
Implicit Types (w : World T) (g : Generation).

Lemma bin_ok_new : bin_ok Bin.new.
Proof. exists []. apply BinFacts.holds_new. Qed.

Lemma bin_ok_batch args bin : bin_ok bin -> bin_ok (Bin.batch args bin).
Proof. intros [items Hh]. eexists. apply BinFacts.holds_batch, Hh. Qed.

Lemma bin_ok_destroy bin :
  bin_ok bin -> exists bin' ds, Bin.destroy bin = Some (bin', ds) /\ bin_ok bin'.
Proof.
  intros [items Hh]. destruct (BinFacts.destroy_holds _ _ Hh) as (bin' & Hd & Hh' & _).
  exists bin', (Bin.dispose <$> items). split; [ exact Hd | ]. exists []. exact Hh'.
Qed.

(** A world with the same components. *)
Lemma sound_same w w' :
  balls w' = balls w -> characters w' = characters w -> players w' = players w ->
  sound w -> sound w'.
Proof. unfold sound. intros -> -> ->. auto. Qed.

Lemma sound_set_balls v w :
  Forall (fun b => bin_ok (ball_bin b)) v -> sound w -> sound (set_balls v w).
Proof. intros Hv (_ & Hc & Hp). repeat split; assumption. Qed.

Lemma sound_set_characters v w :
  Forall (fun c => bin_ok (character_bin c)) v -> sound w -> sound (set_characters v w).
Proof. intros Hv (Hb & _ & Hp). repeat split; assumption. Qed.

Lemma sound_set_players v w :
  Forall (fun p => bin_ok (player_bin p)) v -> sound w -> sound (set_players v w).
Proof. intros Hv (Hb & Hc & _). repeat split; assumption. Qed.

(** Assignments to anything but the components. *)
Ltac peel :=
  repeat match goal with
  | |- sound (set_G _ ?w) => change (sound w)
  | |- sound (set_inst _ ?w) => change (sound w)
  | |- sound (set_Workspace_Gravity _ ?w) => change (sound w)
  | |- sound (set_Players _ ?w) => change (sound w)
  | |- sound (set_conns _ ?w) => change (sound w)
  | |- sound (set_input _ ?w) => change (sound w)
  | |- sound (set_invoked _ ?w) => change (sound w)
  | |- sound (set_gravity _ ?w) => change (sound w)
  | |- sound (set_BallComponent_actives _ ?w) => change (sound w)
  | |- sound (set_BallComponent_active _ ?w) => change (sound w)
  | |- sound (set_CharacterComponent_active _ ?w) => change (sound w)
  | |- sound (set_PlayerComponent_active _ ?w) => change (sound w)
  end.

Lemma sound_set_ball this f w :
  (forall b, bin_ok (ball_bin b) -> bin_ok (ball_bin (f b))) ->
  sound w -> sound (set_ball this f w).
Proof.
  intros Hf Hs. apply sound_set_balls; [ | exact Hs ].
  apply Forall_alter; [ apply Hs | ]. intros b _. apply Hf.
Qed.

Lemma sound_foldl {B : Type} (f : World T -> B -> World T) (l : list B) :
  (forall w b, sound w -> sound (f w b)) -> forall w, sound w -> sound (foldl f w l).
Proof.
  intros Hf. induction l as [| b l IH]; intros w Hs; cbn; [ exact Hs | ].
  apply IH, Hf, Hs.
Qed.

Lemma sound_Connect s h w : sound w -> sound (Connect s h w).2.
Proof. apply sound_same; reflexivity. Qed.

Lemma sound_Disconnect c w : sound w -> sound (Disconnect c w).
Proof. apply sound_same; reflexivity. Qed.

Lemma sound_callClosure f w : sound w -> sound (callClosure f w).
Proof. destruct f; cbn; repeat case_match; apply sound_same; reflexivity. Qed.

Lemma sound_disposal w d : sound w -> sound (disposal w d).
Proof. destruct d; cbn; auto using sound_callClosure, sound_Disconnect. Qed.

Lemma sound_disposals ds w : sound w -> sound (foldl disposal w ds).
Proof. apply sound_foldl. apply sound_disposal. Qed.

Lemma sound_updateTarget this w : sound w -> sound (updateTarget this w).
Proof.
  intros Hs. unfold updateTarget. case_match; [ | exact Hs ].
  apply sound_set_ball; [ intros b0 Hb0; exact Hb0 | exact Hs ].
Qed.

Lemma sound_updateActive g this w : sound w -> sound (updateActive g this w).
Proof.
  intros Hs. unfold updateActive. case_match; [ | exact Hs ].
  set (w1 := set_ball this _ w).
  assert (H1 : sound w1) by (apply sound_set_ball; [ intros b0 Hb0; exact Hb0 | exact Hs ]).
  clearbody w1. destruct g; repeat case_match; try exact H1;
    revert H1; apply sound_same; reflexivity.
Qed.

Lemma sound_debounce this w : sound w -> sound (debounce this w).
Proof. apply sound_set_ball. intros b0 Hb0; exact Hb0. Qed.

Lemma sound_ball_batch this args w : sound w -> sound (ball_batch this args w).
Proof. apply sound_set_ball. intros b0 Hb0. apply bin_ok_batch, Hb0. Qed.

Lemma sound_new_BallComponent g instance w :
  sound w -> sound (new_BallComponent g instance w).2.
Proof.
  intros Hs. unfold new_BallComponent, Connect.
  destruct g; lazy beta iota zeta; cbn [fst snd]; peel;
    apply sound_ball_batch; peel; apply sound_ball_batch; peel;
    apply sound_updateTarget, sound_updateActive;
    (apply sound_set_balls; [ | exact Hs ]);
    (apply Forall_app; split; [ apply Hs | ]);
    (constructor; [ apply bin_ok_new | constructor ]).
Qed.

Lemma sound_BallComponent_destroy this w :
  sound w -> sound (BallComponent_destroy this w).
Proof.
  intros Hs. unfold BallComponent_destroy.
  destruct (balls w !! this) as [b |] eqn:Hb; [ | exact Hs ].
  assert (Hok : bin_ok (ball_bin b)).
  { destruct Hs as (Hbs & _). rewrite Forall_lookup in Hbs. exact (Hbs _ _ Hb). }
  destruct (bin_ok_destroy _ Hok) as (bin' & ds & -> & Hok').
  apply sound_disposals, sound_set_balls; [ | exact Hs ].
  apply Forall_alter; [ apply Hs | ]. intros b0 _ _. exact Hok'.
Qed.

(** [destroy()] on a ball of a sound world returns: the bin is walked to
    its end and emptied. *)
Lemma BallComponent_destroy_returns this b w :
  sound w -> balls w !! this = Some b -> is_Some (Bin.destroy (ball_bin b)).
Proof.
  intros (Hbs & _) Hb. rewrite Forall_lookup in Hbs.
  destruct (bin_ok_destroy _ (Hbs _ _ Hb)) as (bin' & ds & Hd & _). eauto.
Qed.

Lemma sound_new_CharacterComponent instance w :
  sound w -> sound (new_CharacterComponent instance w).2.
Proof.
  intros Hs. unfold new_CharacterComponent, Connect. repeat case_match; try exact Hs.
  lazy beta iota zeta; cbn [fst snd].
  apply sound_set_characters; [ | peel; exact Hs ].
  apply Forall_app. split; [ apply Hs | ].
  constructor; [ apply bin_ok_batch, bin_ok_new | constructor ].
Qed.

Lemma sound_CharacterComponent_destroy this w :
  sound w -> sound (CharacterComponent_destroy this w).
Proof.
  intros Hs. unfold CharacterComponent_destroy.
  destruct (characters w !! this) as [c |] eqn:Hc; [ | exact Hs ].
  assert (Hok : bin_ok (character_bin c)).
  { destruct Hs as (_ & Hcs & _). rewrite Forall_lookup in Hcs. exact (Hcs _ _ Hc). }
  destruct (bin_ok_destroy _ Hok) as (bin' & ds & -> & Hok').
  apply sound_disposals, sound_set_characters; [ | exact Hs ].
  apply Forall_alter; [ apply Hs | ]. intros c0 _ _. exact Hok'.
Qed.

(** [destroy()] on a character of a sound world returns. *)
Lemma CharacterComponent_destroy_returns this c w :
  sound w -> characters w !! this = Some c -> is_Some (Bin.destroy (character_bin c)).
Proof.
  intros (_ & Hcs & _) Hc. rewrite Forall_lookup in Hcs.
  destruct (bin_ok_destroy _ (Hcs _ _ Hc)) as (bin' & ds & Hd & _). eauto.
Qed.

Lemma sound_set_character this c w : sound w -> sound (set_character this c w).
Proof.
  intros Hs. apply sound_set_players; [ | exact Hs ].
  apply Forall_alter; [ apply Hs | ]. intros p _ Hp. exact Hp.
Qed.

Lemma sound_destroy_character_of this w : sound w -> sound (destroy_character_of this w).
Proof.
  intros Hs. unfold destroy_character_of. case_match;
    [ apply sound_CharacterComponent_destroy, Hs | exact Hs ].
Qed.

Lemma sound_onCharacterAdded this character w :
  sound w -> sound (onCharacterAdded this character w).
Proof.
  intros Hs. unfold onCharacterAdded.
  pose proof (sound_new_CharacterComponent character _
                (sound_destroy_character_of this w Hs)) as Hn.
  destruct (new_CharacterComponent character (destroy_character_of this w)) as [[c | msg] w'];
    cbn [snd] in Hn; [ apply sound_set_character, Hn | exact Hn ].
Qed.

Lemma sound_onCharacterRemoving this w : sound w -> sound (onCharacterRemoving this w).
Proof.
  intros Hs. unfold onCharacterRemoving.
  apply sound_set_character, sound_destroy_character_of, Hs.
Qed.

Lemma sound_player_batch this args w : sound w -> sound (player_batch this args w).
Proof.
  intros Hs. apply sound_set_players; [ | exact Hs ].
  apply Forall_alter; [ apply Hs | ]. intros p _ Hp. apply bin_ok_batch, Hp.
Qed.

Lemma sound_new_PlayerComponent instance w :
  sound w -> sound (new_PlayerComponent instance w).2.
Proof.
  intros Hs. unfold new_PlayerComponent, Connect.
  lazy beta iota zeta; cbn [fst snd]. peel.
  apply sound_player_batch, sound_player_batch. peel.
  assert (H1 : sound (set_players
                        (players w ++ [ {| player_instance := instance; player_bin := Bin.new;
                                           name := Name (inst w instance);
                                           character := None |} ]) w)).
  { apply sound_set_players; [ | exact Hs ].
    apply Forall_app. split; [ apply Hs | ].
    constructor; [ apply bin_ok_new | constructor ]. }
  case_match; [ apply sound_onCharacterAdded, H1 | exact H1 ].
Qed.

Lemma sound_PlayerComponent_destroy this w :
  sound w -> sound (PlayerComponent_destroy this w).
Proof.
  intros Hs. unfold PlayerComponent_destroy.
  destruct (players w !! this) as [p |] eqn:Hp; [ | exact Hs ].
  assert (Hok : bin_ok (player_bin p)).
  { destruct Hs as (_ & _ & Hps). rewrite Forall_lookup in Hps. exact (Hps _ _ Hp). }
  destruct (bin_ok_destroy _ Hok) as (bin' & ds & -> & Hok').
  apply sound_disposals, sound_set_players; [ | exact Hs ].
  apply Forall_alter; [ apply Hs | ]. intros p0 _ _. exact Hok'.
Qed.

(** [destroy()] on a player of a sound world returns. *)
Lemma PlayerComponent_destroy_returns this p w :
  sound w -> players w !! this = Some p -> is_Some (Bin.destroy (player_bin p)).
Proof.
  intros (_ & _ & Hps) Hp. rewrite Forall_lookup in Hps.
  destruct (bin_ok_destroy _ (Hps _ _ Hp)) as (bin' & ds & Hd & _). eauto.
Qed.

Lemma sound_onBallAdded g instance w : sound w -> sound (onBallAdded g instance w).
Proof.
  intros Hs. unfold onBallAdded. case_match;
    [ apply sound_new_BallComponent, Hs | exact Hs ].
Qed.

Lemma sound_onBallContainerAdded container w :
  sound w -> sound (onBallContainerAdded container w).
Proof.
  intros Hs. unfold onBallContainerAdded. apply sound_Connect.
  apply sound_foldl; [ | exact Hs ]. intros w' i. apply sound_onBallAdded.
Qed.

Lemma sound_onPlayerAdded instance w : sound w -> sound (onPlayerAdded instance w).
Proof. apply sound_new_PlayerComponent. Qed.

Lemma sound_invoke callback child w : sound w -> sound (invoke callback child w).
Proof.
  intros Hs. unfold invoke. destruct callback.
  apply sound_onBallContainerAdded. peel. exact Hs.
Qed.

Lemma sound_bindToChild parent nm callback w :
  sound w -> sound (bindToChild parent nm callback w).
Proof.
  intros Hs. unfold bindToChild. case_match;
    [ apply sound_invoke, Hs | apply sound_Connect, Hs ].
Qed.

Lemma sound_bindToChild_handler connection nm callback child w :
  sound w -> sound (bindToChild_handler connection nm callback child w).
Proof.
  intros Hs. unfold bindToChild_handler. case_match; [ | exact Hs ].
  apply sound_invoke, sound_Disconnect, Hs.
Qed.

Lemma sound_useParry ball w : sound w -> sound (useParry ball w).
Proof. intros Hs. unfold useParry. apply sound_debounce. peel. exact Hs. Qed.

Lemma sound_forEach_ball nm origin motion instance ball w :
  sound w -> sound (forEach_ball nm origin motion instance ball w).
Proof.
  intros Hs. unfold forEach_ball. repeat case_match; auto using sound_useParry.
Qed.

Lemma sound_parry_active nm origin motion ball w :
  sound w -> sound (parry_active nm origin motion ball w).
Proof.
  intros Hs. unfold parry_active. repeat case_match; auto using sound_useParry.
Qed.

Lemma sound_heartbeat g player w : sound w -> sound (heartbeat g player w).
Proof.
  intros Hs. unfold heartbeat. destruct g; repeat case_match; try exact Hs.
  - apply (map_fold_weak_ind (fun r _ => sound r)); [ exact Hs | ].
    intros i x m r _ Hr. apply sound_forEach_ball, Hr.
  - apply sound_parry_active, Hs.
Qed.

Lemma sound_runHandler g h arg w : sound w -> sound (runHandler g h arg w).
Proof.
  intros Hs. destruct h, arg; cbn [runHandler]; repeat case_match;
    auto using sound_updateActive, sound_updateTarget,
      sound_BallComponent_destroy, sound_CharacterComponent_destroy,
      sound_onCharacterAdded, sound_onCharacterRemoving, sound_onBallAdded,
      sound_onPlayerAdded, sound_PlayerComponent_destroy,
      sound_bindToChild_handler, sound_heartbeat.
Qed.

Lemma sound_fire g s arg w : sound w -> sound (fire (runHandler g) s arg w).
Proof.
  unfold fire. apply sound_foldl. intros w' c Hs.
  repeat case_match; auto using sound_runHandler.
Qed.

Lemma sound_step g e w : sound w -> sound (step g e w).
Proof.
  intros Hs. destruct e; cbn [step]; unfold set_instance; peel;
    try apply sound_fire; peel; exact Hs.
Qed.

Lemma sound_steps g es w : sound w -> sound (steps g es w).
Proof. apply sound_foldl. intros w' e. apply sound_step. Qed.

Lemma sound_ComponentController_init g w :
  sound w -> sound (ComponentController_init g w).2.
Proof.
  intros Hs. unfold ComponentController_init. destruct g.
  - destruct (WaitForChild (Workspace w) "Balls" w) as [folder |]; [ | exact Hs ].
    cbn [snd]. apply sound_Connect, sound_Connect.
    apply sound_foldl; [ intros w' i; apply sound_onPlayerAdded | ].
    apply sound_Connect.
    apply sound_foldl; [ intros w' i; apply sound_onBallAdded | exact Hs ].
  - cbn [snd]. apply sound_Connect, sound_Connect.
    apply sound_foldl; [ intros w' i; apply sound_onPlayerAdded | ].
    apply sound_bindToChild, Hs.
Qed.

Lemma sound_main g w : sound w -> sound (main g w).2.
Proof.
  intros Hs. unfold main. case_match; [ exact Hs | ].
  set (w1 := match g with Gen1 => _ | Gen2 => _ end).
  assert (H1 : sound w1) by (destruct g; exact Hs).
  clearbody w1.
  pose proof (sound_ComponentController_init g w1 H1) as Hc.
  destruct (ComponentController_init g w1) as [[[] | msg] w2]; cbn [snd] in *;
    [ | exact Hc ].
  unfold ParryController_init. apply sound_Connect.
  destruct g; [ exact Hc | ].
  unfold VariableController_init. apply sound_Connect. peel. exact Hc.
Qed.

(** A world in which no component has been constructed yet. *)
Lemma sound_fresh w : balls w = [] -> characters w = [] -> players w = [] -> sound w.
Proof. unfold sound. intros -> -> ->. repeat split; constructor. Qed.

(** Whatever generation is loaded into a sound world and whatever the
    engine does afterwards, every component keeps a bin that [destroy()]
    walks to its end. *)
Lemma sound_run g es w : sound w -> sound (steps g es (main g w).2).
Proof. intros Hs. apply sound_steps, sound_main, Hs. Qed.

(** In every world reached by loading a generation into a sound world
    and letting the engine report events, [destroy()] returns on every
    component: the walk of its bin ends. *)
Theorem destroy_returns g es w :
  sound w ->
  let w' := steps g es (main g w).2 in
  (forall this b, balls w' !! this = Some b -> is_Some (Bin.destroy (ball_bin b)))
  /\ (forall this c, characters w' !! this = Some c ->
                     is_Some (Bin.destroy (character_bin c)))
  /\ (forall this p, players w' !! this = Some p ->
                     is_Some (Bin.destroy (player_bin p))).
Proof.
  intros Hs w'. pose proof (sound_run g es w Hs) as Hs'. fold w' in Hs'.
  split; [ | split ]; intros this x Hx.
  - exact (BallComponent_destroy_returns this x w' Hs' Hx).
  - exact (CharacterComponent_destroy_returns this x w' Hs' Hx).
  - exact (PlayerComponent_destroy_returns this x w' Hs' Hx).
Qed.

End Facts.
End SoundFacts.

(** ** Characters of a player *)

Module LifecycleFacts.
Import Script ScriptSpec ScriptFacts SoundFacts.
Section Facts.
Context {T : Type} `{Number T}.
Implicit Types (w : World T) (g : Generation).

Lemma destroy_loop_ends {F : Type} (fuel : nat) : forall (b b' : Bin.t F) ds,
  Bin.destroy_loop fuel b = Some (b', ds) -> Bin.isEmpty b' = true.
Proof.
  induction fuel as [| fuel IH]; intros b b' ds; cbn; unfold Bin.isEmpty.
  - destruct (Bin.head b) eqn:Hh; [ discriminate | ]. intros [= <- _]. now rewrite Hh.
  - destruct (Bin.head b) eqn:Hh; [ | intros [= <- _]; now rewrite Hh ].
    destruct (Bin.nodes b !! n) as [nd |]; [ | discriminate ].
    destruct (Bin.destroy_loop fuel _) as [[b1 ds1] |] eqn:Hl; [ | discriminate ].
    intros [= <- _]. exact (IH _ _ _ Hl).
Qed.

Lemma destroy_ends {F : Type} (b b' : Bin.t F) ds :
  Bin.destroy b = Some (b', ds) -> Bin.isEmpty b' = true.
Proof. apply destroy_loop_ends. Qed.

(** Disposals leave the components themselves alone. *)
Lemma characters_disposals ds : forall w, characters (foldl disposal w ds) = characters w.
Proof.
  induction ds as [| d ds IH]; intros w; cbn; [ reflexivity | ]. rewrite IH.
  destruct d as [[] | | | |]; cbn; repeat case_match; reflexivity.
Qed.

Lemma players_disposals ds : forall w, players (foldl disposal w ds) = players w.
Proof.
  induction ds as [| d ds IH]; intros w; cbn; [ reflexivity | ]. rewrite IH.
  destruct d as [[] | | | |]; cbn; repeat case_match; reflexivity.
Qed.

Lemma players_CharacterComponent_destroy c w :
  players (CharacterComponent_destroy c w) = players w.
Proof.
  unfold CharacterComponent_destroy. repeat case_match; try reflexivity.
  now rewrite players_disposals.
Qed.

Lemma length_characters_CharacterComponent_destroy c w :
  length (characters (CharacterComponent_destroy c w)) = length (characters w).
Proof.
  unfold CharacterComponent_destroy. repeat case_match; try reflexivity.
  rewrite characters_disposals. cbn. apply length_alter.
Qed.

(** [destroy()] on a character leaves every other character as it was. *)
Lemma CharacterComponent_destroy_other c c' w :
  c' <> c -> characters (CharacterComponent_destroy c w) !! c' = characters w !! c'.
Proof.
  intros Hne. unfold CharacterComponent_destroy. repeat case_match; try reflexivity.
  rewrite characters_disposals. cbn. apply list_lookup_alter_ne. congruence.
Qed.

(** [destroy()] on a character whose bin walk ends leaves it not live. *)
Lemma CharacterComponent_destroy_dead c cc w :
  characters w !! c = Some cc -> is_Some (Bin.destroy (character_bin cc)) ->
  CharacterComponent_live c (CharacterComponent_destroy c w) = false.
Proof.
  intros Hc [[b' ds] Hd]. unfold CharacterComponent_live, CharacterComponent_destroy.
  rewrite Hc, Hd, characters_disposals. cbn.
  rewrite list_lookup_alter_eq, Hc. cbn. now rewrite (destroy_ends _ _ _ Hd).
Qed.

Lemma FindFirstChild_inst parent nm w w' :
  inst w' = inst w -> FindFirstChild parent nm w' = FindFirstChild parent nm w.
Proof. intros Hi. unfold FindFirstChild. now rewrite Hi. Qed.

(** A successful construction appends the component, with two connections
    in its bin. *)
Lemma new_CharacterComponent_ok instance w r h :
  FindFirstChild instance "HumanoidRootPart" w = Some r ->
  FindFirstChild instance "Humanoid" w = Some h ->
  exists w',
    new_CharacterComponent instance w = (Ok (length (characters w)), w')
    /\ players w' = players w
    /\ CharacterComponent_active w' = CharacterComponent_active w
    /\ exists cc,
         characters w' = characters w ++ [cc]
         /\ character_instance cc = instance /\ root cc = r /\ humanoid cc = h
         /\ Bin.isEmpty (character_bin cc) = false.
Proof.
  intros Hr Hh. unfold new_CharacterComponent, WaitForChild. rewrite Hr, Hh.
  unfold Connect. lazy beta iota zeta. cbn [fst snd].
  eexists. split; [ reflexivity | ]. split; [ reflexivity | ]. split; [ reflexivity | ].
  eexists. split; [ reflexivity | ]. repeat split.
Qed.

(** C7, as the code has it. When a PlayerComponent handles
    character-removing and then character-added for a character model that
    has its HumanoidRootPart and Humanoid, it ends holding exactly one live
    CharacterComponent as its current character: the new one; the
    component it held before is no longer live, and no other component
    has become live.  [CharacterComponent.active] is not written: it has
    the entries it had before.  The world is any sound one, as every world
    the script runs in is ([SoundFacts.sound_run]). *)
Theorem respawn_one_live_character (this : PlayerRef) (model : Instance) w p r h :
  sound w ->
  players w !! this = Some p ->
  FindFirstChild model "HumanoidRootPart" w = Some r ->
  FindFirstChild model "Humanoid" w = Some h ->
  let w' := onCharacterAdded this model (onCharacterRemoving this w) in
  let fresh := length (characters w) in
  getCharacter this w' = Some fresh
  /\ CharacterComponent_live fresh w' = true
  /\ CharacterComponent_live fresh w = false
  /\ (forall c, c <> fresh -> CharacterComponent_live c w' = true ->
                CharacterComponent_live c w = true /\ character p <> Some c)
  /\ CharacterComponent_active w' = CharacterComponent_active w.
Proof.
  intros Hs Hp Hr Hh w' fresh.
  (* character-removing *)
  set (wd := destroy_character_of this w).
  assert (Hwd_players : players wd = players w).
  { unfold wd, destroy_character_of. case_match;
      [ apply players_CharacterComponent_destroy | reflexivity ]. }
  assert (Hwd_len : length (characters wd) = length (characters w)).
  { unfold wd, destroy_character_of. case_match;
      [ apply length_characters_CharacterComponent_destroy | reflexivity ]. }
  assert (Hwd_live : forall c, CharacterComponent_live c wd = true ->
                               CharacterComponent_live c w = true /\ character p <> Some c).
  { intros c Hlive. unfold wd, destroy_character_of, getCharacter in Hlive.
    rewrite Hp in Hlive. destruct (character p) as [c0 |] eqn:Hc0; [ | auto ].
    destruct (decide (c = c0)) as [-> | Hne].
    - destruct (characters w !! c0) as [cc0 |] eqn:Hcc0.
      + rewrite (CharacterComponent_destroy_dead c0 cc0 w Hcc0
                   (CharacterComponent_destroy_returns c0 cc0 w Hs Hcc0))
          in Hlive. discriminate.
      + unfold CharacterComponent_live, CharacterComponent_destroy in Hlive.
        rewrite Hcc0 in Hlive. cbn in Hlive. rewrite Hcc0 in Hlive. discriminate.
    - unfold CharacterComponent_live in *.
      rewrite CharacterComponent_destroy_other in Hlive by exact Hne.
      split; [ exact Hlive | congruence ]. }
  set (w1 := onCharacterRemoving this w).
  assert (Hw1_chars : characters w1 = characters wd) by reflexivity.
  assert (Hw1_this : players w1 !! this
                     = Some {| player_instance := player_instance p;
                               player_bin := player_bin p; name := name p;
                               character := None |}).
  { unfold w1, onCharacterRemoving, set_character. cbn. fold wd.
    rewrite list_lookup_alter_eq, Hwd_players, Hp. reflexivity. }
  assert (Hw1_inst : inst w1 = inst w).
  { unfold w1, onCharacterRemoving, set_character. cbn. fold wd.
    unfold wd. apply (untouched_destroy_character_of (@inst T)). }
  assert (Hw1_reg : CharacterComponent_active w1 = CharacterComponent_active w).
  { unfold w1. apply (untouched_onCharacterRemoving (@CharacterComponent_active T)). }
  (* character-added *)
  assert (Hnone : destroy_character_of this w1 = w1).
  { unfold destroy_character_of, getCharacter. now rewrite Hw1_this. }
  destruct (new_CharacterComponent_ok model w1 r h) as (w2 & Hnew & Hpl2 & Hreg2 & cc & Hch2 & _ & _ & _ & Hbin).
  { rewrite (FindFirstChild_inst _ _ w w1 Hw1_inst). exact Hr. }
  { rewrite (FindFirstChild_inst _ _ w w1 Hw1_inst). exact Hh. }
  assert (Hw' : w' = set_character this (Some fresh) w2).
  { unfold w', onCharacterAdded. fold w1. rewrite Hnone, Hnew.
    unfold fresh. now rewrite Hw1_chars, Hwd_len. }
  assert (Hchars' : characters w' = characters wd ++ [cc]).
  { rewrite Hw'. cbn. now rewrite Hch2, Hw1_chars. }
  assert (Hfresh_w : CharacterComponent_live fresh w = false).
  { unfold CharacterComponent_live, fresh.
    now rewrite (lookup_ge_None_2 (characters w) (length (characters w))) by lia. }
  split; [ | split; [ | split; [ exact Hfresh_w | split ] ] ].
  - rewrite Hw'. unfold getCharacter, set_character. cbn.
    rewrite list_lookup_alter_eq, Hpl2, Hw1_this. reflexivity.
  - unfold CharacterComponent_live. rewrite Hchars'.
    unfold fresh. rewrite <- Hwd_len.
    rewrite lookup_app_r, Nat.sub_diag by lia. cbn. now rewrite Hbin.
  - intros c Hne Hlive. apply Hwd_live.
    unfold CharacterComponent_live in *. rewrite Hchars' in Hlive.
    destruct (decide (c < length (characters wd))) as [Hlt | Hge].
    + now rewrite lookup_app_l in Hlive by exact Hlt.
    + rewrite lookup_app_r in Hlive by lia.
      destruct (c - length (characters wd)) as [| k] eqn:Hk;
        [ unfold fresh in Hne; lia | ].
      cbn in Hlive. discriminate.
  - rewrite Hw'. cbn. now rewrite Hreg2.
Qed.

(** [CharacterComponent.active] keeps, through loading and whatever the
    engine does afterwards, the entries it had before the load. *)
Lemma CharacterComponent_active_never_written g es w :
  CharacterComponent_active (steps g es (main g w).2) = CharacterComponent_active w.
Proof.
  rewrite (untouched_steps (@CharacterComponent_active T)).
  unfold main. case_match; [ reflexivity | ].
  set (w1 := match g with Gen1 => _ | Gen2 => _ end).
  assert (H1 : CharacterComponent_active w1 = CharacterComponent_active w)
    by (destruct g; reflexivity).
  clearbody w1.
  pose proof (untouched_ComponentController_init (@CharacterComponent_active T) g w1) as Hc.
  destruct (ComponentController_init g w1) as [[[] | msg] w2]; cbn [snd] in *.
  - rewrite (untouched_ParryController_init (@CharacterComponent_active T)).
    destruct g;
      [ | rewrite (untouched_VariableController_init (@CharacterComponent_active T)) ];
      congruence.
  - congruence.
Qed.

End Facts.
End LifecycleFacts.

(** ** The decision on one candidate ball *)

Module ParryFacts.
Import Script SolverSpec SolverFacts ParrySpec Fixtures.
Local Open Scope R_scope.
Implicit Types (w : World R) (g : Generation).

Lemma useParry_parried ball b w :
  balls w !! ball = Some b -> parried ball w (useParry ball w).
Proof.
  intros Hb. unfold parried, useParry, debounce, set_ball. cbn. split.
  - now rewrite <- app_assoc.
  - rewrite list_lookup_alter_eq, Hb. cbn. eauto.
Qed.

Lemma not_parried_same ball w : parried ball w w -> False.
Proof.
  intros [Hin _]. apply (f_equal length) in Hin. rewrite length_app in Hin. cbn in Hin. lia.
Qed.

(** C3. For a candidate that is not debounced, whose target is the local
    player's name, that is not already inside the radius and for which the
    solver predicts the time [t]: the first generation takes the parry
    action exactly when [t <= COMPENSATION], the second exactly when
    [COMPENSATION <= t]; otherwise nothing changes. *)
Theorem parry_threshold g (nm : string) (origin motion : Vector3 R)
    (instance ball : nat) (b : BallComponent) (t : R) w :
  balls w !! ball = Some b ->
  (g = Gen2 -> instance = ball_instance b) ->
  canParry b = true ->
  getTarget b = Some (AttrString nm) ->
  let position := Vector3_sub (Position (inst w instance)) origin in
  let velocity := Vector3_sub (AssemblyLinearVelocity (inst w instance)) motion in
  RADIUS g <= Magnitude position ->
  predicted_time g position velocity w = Some t ->
  let fires := match g with Gen1 => t <= COMPENSATION | Gen2 => COMPENSATION <= t end in
  let w' := decide_parry g nm origin motion instance ball w in
  (fires -> w' = useParry ball w)
  /\ ((fires -> False) -> w' = w)
  /\ (parried ball w w' <-> fires).
Proof.
  intros Hb Hinst Hcan Htarget position velocity Hout Hpred fires w'.
  assert (Hcases : (fires /\ w' = useParry ball w) \/ ((fires -> False) /\ w' = w)).
  { unfold w', fires, decide_parry. destruct g.
    - unfold forEach_ball. rewrite Hb, Hcan, Htarget. cbn [negb].
      rewrite bool_decide_eq_true_2 by reflexivity. cbn [negb].
      fold position velocity.
      cmp (Magnitude position) (RADIUS (T:=R) Gen1) Hin; [ lra | ].
      cbn [predicted_time] in Hpred. rewrite Hpred.
      cmp (COMPENSATION (T:=R)) t Hc; [ right | left ]; split; try reflexivity; lra.
    - specialize (Hinst eq_refl). subst instance.
      unfold parry_active. rewrite Hb, Hcan, Htarget. cbn [negb].
      rewrite bool_decide_eq_true_2 by reflexivity. cbn [negb].
      fold position velocity.
      cmp (Magnitude position) (RADIUS (T:=R) Gen2) Hin; [ lra | ].
      cbn [predicted_time] in Hpred. rewrite Hpred.
      cmp t (COMPENSATION (T:=R)) Hc; [ right | left ]; split; try reflexivity; lra. }
  split; [ | split ].
  - intros Hf. destruct Hcases as [[_ ->] | [Hnf _]]; [ reflexivity | contradiction ].
  - intros Hnf. destruct Hcases as [[Hf _] | [_ ->]]; [ contradiction | reflexivity ].
  - destruct Hcases as [[Hf ->] | [Hnf ->]]; split; intros Hx; try assumption.
    + eapply useParry_parried. exact Hb.
    + exfalso. eapply not_parried_same. exact Hx.
    + contradiction.
Qed.

(** The second generation's Heartbeat handler is that decision on
    [BallComponent.active], with the character's root as origin. *)
Lemma heartbeat_Gen2_decides (p : nat) pc c cc ball w :
  players w !! p = Some pc -> character pc = Some c -> characters w !! c = Some cc ->
  BallComponent_active w = Some ball ->
  heartbeat Gen2 (Some p) w
  = decide_parry Gen2 (name pc) (Position (inst w (root cc)))
      (Vector3_mul (AssemblyLinearVelocity (inst w (root cc))) Vector2D) 0 ball w.
Proof.
  intros Hp Hc Hcc Hball. unfold heartbeat. rewrite Hp, Hball, Hc, Hcc. reflexivity.
Qed.

(** The first generation's Heartbeat handler takes it on every entry of
    the registry. *)
Lemma heartbeat_Gen1_decides (p : nat) pc c cc w :
  players w !! p = Some pc -> character pc = Some c -> characters w !! c = Some cc ->
  heartbeat Gen1 (Some p) w
  = map_fold
      (decide_parry Gen1 (name pc) (Position (inst w (root cc)))
         (Vector3_mul (AssemblyLinearVelocity (inst w (root cc))) Vector2D))
      w (BallComponent_actives w).
Proof.
  intros Hp Hc Hcc. unfold heartbeat. rewrite Hp, Hc, Hcc. reflexivity.
Qed.

Lemma duel_prediction :
  Solver.evaluateIntercept 0 0 19 0 0 (-10) (35 / 2) = Some (3 / 20).
Proof.
  rewrite evaluateIntercept_unfold.
  assert (Hd : discriminant 0 0 19 0 0 (-10) (35 / 2) = 122500)
    by (unfold discriminant, coef_a, coef_b, coef_c, Solver.sq; to_R; lra).
  assert (H0 : root0 0 0 19 0 0 (-10) (35 / 2) = 3 / 20).
  { unfold root0. rewrite Hd, (sqrt_eq 122500 350) by lra.
    unfold coef_a, coef_b, Solver.sq; to_R. lra. }
  rewrite Hd, H0. to_R.
  cmp 122500 0 Hc; [ lra | ]. cmp 0 (3 / 20) Hc'; [ reflexivity | lra ].
Qed.

Lemma parry_threshold_witness :
  (balls duel !! 0%nat = Some {| ball_instance := 8; ball_bin := Bin.new; active := true;
                                 target := Some (AttrString "Alice"); isHit := false |}
   /\ RADIUS Gen1 <= Magnitude (Vector3_sub (Position (inst duel 8)) rest)
   /\ predicted_time Gen1 (Vector3_sub (Position (inst duel 8)) rest)
        (Vector3_sub (AssemblyLinearVelocity (inst duel 8)) rest) duel = Some (3 / 20))
  /\ decide_parry Gen1 "Alice" rest rest 8 0 duel = useParry 0 duel.
Proof.
  assert (Hpos : Vector3_sub (Position (inst duel 8)) rest = {| X := 0 - 0; Y := 0 - 0; Z := 19 - 0 |})
    by reflexivity.
  assert (Hmag : Magnitude (Vector3_sub (Position (inst duel 8)) rest) = 19).
  { rewrite Hpos. unfold Magnitude, Solver.sq; to_R. cbn [X Y Z].
    apply sqrt_eq; lra. }
  assert (Hout : RADIUS Gen1 <= Magnitude (Vector3_sub (Position (inst duel 8)) rest)).
  { rewrite Hmag. unfold RADIUS; to_R. lra. }
  assert (Hpred : predicted_time Gen1 (Vector3_sub (Position (inst duel 8)) rest)
                    (Vector3_sub (AssemblyLinearVelocity (inst duel 8)) rest) duel
                  = Some (3 / 20)).
  { cbn [predicted_time Vector3_sub X Y Z inst duel falling_ball Position
           AssemblyLinearVelocity rest RADIUS]. to_R.
    replace (0 - 0) with 0 by lra. replace (19 - 0) with 19 by lra.
    replace (-10 - 0) with (-10) by lra. exact duel_prediction. }
  split; [ repeat split; assumption | ].
  apply (parry_threshold Gen1 "Alice" rest rest 8 0 _ (3 / 20) duel eq_refl);
    [ discriminate | reflexivity | reflexivity | exact Hout | exact Hpred | ].
  unfold COMPENSATION; to_R. lra.
Defined.

End ParryFacts.

(** ** The active ball of the second generation *)

Module BallFacts.
Import Script ScriptSpec ScriptFacts.
Section Facts.
Context {T : Type} `{Number T}.
Implicit Types (w : World T) (g : Generation) (b : BallComponent).
Implicit Types (items : list (Bin.Destructible Closure)).

Lemma ball_handler_tracked h this : ball_handler h = Some this -> tracked h = true.
Proof. destruct h; cbn; congruence. Qed.

Lemma ball_quiet_refl w : ball_quiet w w.
Proof. repeat split; auto. Qed.

Lemma ball_quiet_trans w1 w2 w3 : ball_quiet w1 w2 -> ball_quiet w2 w3 -> ball_quiet w1 w3.
Proof.
  intros (Hb1 & Ha1 & Hi1 & Hc1) (Hb2 & Ha2 & Hi2 & Hc2).
  split; [ congruence | ]. split; [ | split; [ congruence | ] ].
  - destruct Ha2 as [-> | ->]; auto.
  - intros k c' Hk Hcon Hh. apply Hc1; auto.
Qed.

Lemma Inv_quiet w w' : ball_quiet w w' -> Inv w -> Inv w'.
Proof.
  intros (Hb & Ha & _ & Hc) [I1 I2 I3]. split.
  - intros this Hact. rewrite Hb. apply I1. destruct Ha as [<- | Hn]; congruence.
  - intros this b Hthis. rewrite Hb in Hthis.
    destruct (I2 this b Hthis) as (items & Hh & Hrel & Hcon).
    exists items. split; [ exact Hh | ]. split; [ exact Hrel | ].
    intros k c Hk Hconn Hbh.
    assert (Hk' : conns w !! k = Some c)
      by (apply Hc; [ assumption | assumption | eapply ball_handler_tracked; eauto ]).
    eauto.
  - intros k c this Hk Hconn Hbh. rewrite Hb.
    assert (Hk' : conns w !! k = Some c)
      by (apply Hc; [ assumption | assumption | eapply ball_handler_tracked; eauto ]).
    eauto.
Qed.

Lemma quiet_foldl {B : Type} (f : World T -> B -> World T) (l : list B) :
  (forall w x, ball_quiet w (f w x)) -> forall w, ball_quiet w (foldl f w l).
Proof.
  intros Hf. induction l as [| x l IH]; intros w; cbn; [ apply ball_quiet_refl | ].
  eapply ball_quiet_trans; [ apply Hf | apply IH ].
Qed.

(** Setting fields other than the three the relation reads. *)
Lemma quiet_fields w w' :
  balls w' = balls w -> BallComponent_active w' = BallComponent_active w ->
  invoked w' = invoked w -> conns w' = conns w -> ball_quiet w w'.
Proof. intros Hb Ha Hi Hc. unfold ball_quiet. rewrite Hb, Ha, Hi, Hc. auto. Qed.

Lemma quiet_Disconnect c w : ball_quiet w (Disconnect c w).
Proof.
  split; [ reflexivity | ]. split; [ left; reflexivity | ]. split; [ reflexivity | ].
  unfold Disconnect. cbn. intros k c' Hk Hcon _.
  destruct (decide (c = k)) as [-> | Hne].
  - rewrite list_lookup_alter_eq in Hk. destruct (conns w !! k); cbn in Hk; [ | discriminate ].
    injection Hk as <-. discriminate.
  - now rewrite list_lookup_alter_ne in Hk.
Qed.

Lemma quiet_Connect s h w :
  (forall c, tracked (h c) = false) -> ball_quiet w (Connect s h w).2.
Proof.
  intros Hh. split; [ reflexivity | ]. split; [ left; reflexivity | ].
  split; [ reflexivity | ].
  unfold Connect. cbn. intros k c' Hk _ Ha.
  destruct (decide (k < length (conns w))) as [Hlt | Hge].
  - now rewrite lookup_app_l in Hk.
  - rewrite lookup_app_r in Hk by lia.
    destruct (k - length (conns w)); cbn in Hk; [ | discriminate ].
    injection Hk as <-. cbn in Ha. rewrite Hh in Ha. discriminate.
Qed.

Lemma quiet_callClosure f w : ball_quiet w (callClosure f w).
Proof.
  destruct f; cbn; repeat case_match;
    (split; [ reflexivity
            | split; [ (left; reflexivity) || (right; reflexivity)
                     | split; [ reflexivity | auto ] ] ]).
Qed.

Lemma quiet_disposal w d : ball_quiet w (disposal w d).
Proof.
  destruct d; cbn; auto using quiet_callClosure, quiet_Disconnect, ball_quiet_refl.
Qed.

Lemma quiet_disposals ds w : ball_quiet w (foldl disposal w ds).
Proof. apply quiet_foldl. apply quiet_disposal. Qed.

Lemma quiet_CharacterComponent_destroy c w : ball_quiet w (CharacterComponent_destroy c w).
Proof.
  unfold CharacterComponent_destroy. repeat case_match; try apply ball_quiet_refl.
  eapply ball_quiet_trans; [ | apply quiet_disposals ]. now apply quiet_fields.
Qed.

Lemma quiet_destroy_character_of this w : ball_quiet w (destroy_character_of this w).
Proof.
  unfold destroy_character_of. case_match;
    [ apply quiet_CharacterComponent_destroy | apply ball_quiet_refl ].
Qed.

Lemma quiet_new_CharacterComponent instance w :
  ball_quiet w (new_CharacterComponent instance w).2.
Proof.
  unfold new_CharacterComponent.
  destruct (WaitForChild instance "HumanoidRootPart" w) as [r |]; [ | apply ball_quiet_refl ].
  destruct (WaitForChild instance "Humanoid" w) as [h |]; [ | apply ball_quiet_refl ].
  lazy beta iota zeta.
  set (this := length (characters w)).
  pose proof (quiet_Connect (Died h) (fun _ => H_destroyRig this) w (fun _ => eq_refl)) as H1.
  destruct (Connect (Died h) (fun _ => H_destroyRig this) w) as [c1 w1]. cbn [snd] in H1.
  pose proof (quiet_Connect (Destroying instance) (fun _ => H_destroyRig this) w1
                (fun _ => eq_refl)) as H2.
  destruct (Connect (Destroying instance) (fun _ => H_destroyRig this) w1) as [c2 w2].
  cbn [snd] in *.
  eapply ball_quiet_trans; [ exact H1 | ]. eapply ball_quiet_trans; [ exact H2 | ].
  now apply quiet_fields.
Qed.

Lemma quiet_set_character this c w : ball_quiet w (set_character this c w).
Proof. now apply quiet_fields. Qed.

Lemma quiet_onCharacterAdded this character w :
  ball_quiet w (onCharacterAdded this character w).
Proof.
  unfold onCharacterAdded.
  pose proof (quiet_new_CharacterComponent character (destroy_character_of this w)) as Hn.
  destruct (new_CharacterComponent character (destroy_character_of this w)) as [[c | msg] w'];
    cbn [snd] in Hn.
  - eapply ball_quiet_trans; [ apply quiet_destroy_character_of | ].
    eapply ball_quiet_trans; [ exact Hn | apply quiet_set_character ].
  - eapply ball_quiet_trans; [ apply quiet_destroy_character_of | exact Hn ].
Qed.

Lemma quiet_onCharacterRemoving this w : ball_quiet w (onCharacterRemoving this w).
Proof.
  unfold onCharacterRemoving.
  eapply ball_quiet_trans; [ apply quiet_destroy_character_of | apply quiet_set_character ].
Qed.

Lemma quiet_player_batch this args w : ball_quiet w (player_batch this args w).
Proof. now apply quiet_fields. Qed.

Lemma quiet_new_PlayerComponent instance w : ball_quiet w (new_PlayerComponent instance w).2.
Proof.
  unfold new_PlayerComponent. lazy beta iota zeta.
  set (this := length (players w)).
  set (w0 := set_players _ w).
  assert (H0 : ball_quiet w w0) by now apply quiet_fields.
  set (w1 := match Character (inst w0 instance) with
             | Some character => onCharacterAdded this character w0
             | None => w0
             end).
  assert (H1 : ball_quiet w0 w1).
  { unfold w1. case_match; [ apply quiet_onCharacterAdded | apply ball_quiet_refl ]. }
  clearbody w1 w0.
  pose proof (quiet_Connect (CharacterAdded instance) (fun _ => H_onCharacterAdded this) w1
                (fun _ => eq_refl)) as H2.
  destruct (Connect (CharacterAdded instance) (fun _ => H_onCharacterAdded this) w1)
    as [c1 w2].
  pose proof (quiet_Connect (CharacterRemoving instance)
                (fun _ => H_onCharacterRemoving this) w2 (fun _ => eq_refl)) as H3.
  destruct (Connect (CharacterRemoving instance) (fun _ => H_onCharacterRemoving this) w2)
    as [c2 w3].
  cbn [snd] in *.
  eapply ball_quiet_trans; [ exact H0 | ]. eapply ball_quiet_trans; [ exact H1 | ].
  eapply ball_quiet_trans; [ exact H2 | ]. eapply ball_quiet_trans; [ exact H3 | ].
  now apply quiet_fields.
Qed.

Lemma quiet_onPlayerAdded instance w : ball_quiet w (onPlayerAdded instance w).
Proof. apply quiet_new_PlayerComponent. Qed.

Lemma quiet_PlayerComponent_destroy this w : ball_quiet w (PlayerComponent_destroy this w).
Proof.
  unfold PlayerComponent_destroy. repeat case_match; try apply ball_quiet_refl.
  eapply ball_quiet_trans; [ | apply quiet_disposals ]. now apply quiet_fields.
Qed.

(** *** The operations of a BallComponent keep the invariant *)

Lemma lookup_alter_Some {A : Type} (f : A -> A) (l : list A) (i j : nat) (y : A) :
  alter f i l !! j = Some y ->
  exists x, l !! j = Some x /\ (y = x \/ (i = j /\ y = f x)).
Proof.
  destruct (decide (i = j)) as [-> | Hne].
  - rewrite list_lookup_alter_eq. destruct (l !! j) as [x |]; cbn; [ | discriminate ].
    intros [= <-]. eauto.
  - rewrite list_lookup_alter_ne by exact Hne. eauto.
Qed.

(** An update of the components that keeps their number and their bins,
    and of nothing else the invariant reads but [BallComponent.active]. *)
Lemma Inv_update w w' :
  conns w' = conns w ->
  length (balls w') = length (balls w) ->
  (forall this b', balls w' !! this = Some b' ->
                   exists b, balls w !! this = Some b /\ ball_bin b' = ball_bin b) ->
  (forall this, BallComponent_active w' = Some this ->
                exists b, balls w' !! this = Some b
                          /\ Bin.isEmpty (ball_bin b) = false /\ isActive b = true) ->
  Inv w -> Inv w'.
Proof.
  intros Hc Hlen Hbins Hact [I1 I2 I3]. split.
  - exact Hact.
  - intros this b' Hthis. destruct (Hbins this b' Hthis) as (b & Hb & ->).
    rewrite Hc. apply I2. exact Hb.
  - rewrite Hc, Hlen. exact I3.
Qed.

(** An update of one component that keeps its bin and its [active] flag. *)
Lemma Inv_set_ball this (f : BallComponent -> BallComponent) w :
  (forall b, ball_bin (f b) = ball_bin b /\ active (f b) = active b) ->
  Inv w -> Inv (set_ball this f w).
Proof.
  intros Hf HI. apply (Inv_update w); [ reflexivity | apply length_alter | | | exact HI ].
  - cbn. intros a b' Ha. apply lookup_alter_Some in Ha as (b & Hb & [-> | [_ ->]]); eauto.
    exists b. split; [ exact Hb | apply Hf ].
  - cbn. intros a Ha. destruct (inv_active w HI a Ha) as (b & Hb & He & Hact).
    destruct (decide (this = a)) as [-> | Hne].
    + exists (f b). rewrite list_lookup_alter_eq, Hb. cbn.
      destruct (Hf b) as [-> Hfa]. unfold isActive in *. rewrite Hfa. auto.
    + exists b. rewrite list_lookup_alter_ne by exact Hne. auto.
Qed.

Lemma Inv_updateTarget this w : Inv w -> Inv (updateTarget this w).
Proof.
  intros HI. unfold updateTarget. case_match; [ | exact HI ].
  apply Inv_set_ball; [ | exact HI ]. intros; split; reflexivity.
Qed.

Lemma Inv_debounce this w : Inv w -> Inv (debounce this w).
Proof. intros HI. apply Inv_set_ball; [ | exact HI ]. intros; split; reflexivity. Qed.

(** [updateActive] on a component that is not destroyed. *)
Lemma Inv_updateActive this w :
  Inv w -> BallComponent_live this w = true -> Inv (updateActive Gen2 this w).
Proof.
  intros HI Hlive. unfold updateActive. unfold BallComponent_live in Hlive.
  destruct (balls w !! this) as [b |] eqn:Hb; [ | exact HI ].
  apply negb_true_iff in Hlive.
  set (a := bool_decide (GetAttribute (ball_instance b) "realBall" w = Some (AttrBool true))).
  set (f := fun b0 => {| ball_instance := ball_instance b0; ball_bin := ball_bin b0;
                         active := a; target := target b0; isHit := false |}).
  assert (Hbins : forall this' b', alter f this (balls w) !! this' = Some b' ->
                    exists b0, balls w !! this' = Some b0 /\ ball_bin b' = ball_bin b0).
  { intros a' b' Ha. apply lookup_alter_Some in Ha as (b0 & Hb0 & [-> | [_ ->]]); eauto. }
  assert (Hthis : alter f this (balls w) !! this = Some (f b))
    by (rewrite list_lookup_alter_eq, Hb; reflexivity).
  assert (Hother : forall that, BallComponent_active w = Some that -> that <> this ->
            exists b0, alter f this (balls w) !! that = Some b0
                       /\ Bin.isEmpty (ball_bin b0) = false /\ isActive b0 = true).
  { intros that Hthat Hne. destruct (inv_active w HI that Hthat) as (b0 & Hb0 & He & Hact).
    exists b0. rewrite list_lookup_alter_ne by congruence. auto. }
  destruct a eqn:Ha.
  - apply (Inv_update w); [ reflexivity | apply length_alter | exact Hbins | | exact HI ].
    cbn. intros that [= <-]. exists (f b). auto.
  - case_bool_decide as Hact.
    + apply (Inv_update w); [ reflexivity | apply length_alter | exact Hbins | | exact HI ].
      cbn. discriminate.
    + apply (Inv_update w); [ reflexivity | apply length_alter | exact Hbins | | exact HI ].
      cbn in *. intros that Hthat. apply Hother; congruence.
Qed.

Lemma Inv_useParry ball w : Inv w -> Inv (useParry ball w).
Proof.
  intros HI. unfold useParry. apply Inv_debounce.
  eapply Inv_quiet; [ | exact HI ]. now apply quiet_fields.
Qed.

Lemma Inv_parry_active nm origin motion ball w :
  Inv w -> Inv (parry_active nm origin motion ball w).
Proof.
  intros HI. unfold parry_active. repeat case_match; auto using Inv_useParry.
Qed.

Lemma Inv_heartbeat player w : Inv w -> Inv (heartbeat Gen2 player w).
Proof.
  intros HI. unfold heartbeat. repeat case_match; auto using Inv_parry_active.
Qed.

(** *** [destroy()] *)

Lemma Disconnect_connected c w k c' :
  conns (Disconnect c w) !! k = Some c' -> Connected c' = true ->
  conns w !! k = Some c' /\ k <> c.
Proof.
  unfold Disconnect. cbn. intros Hk Hcon.
  destruct (decide (c = k)) as [-> | Hne].
  - rewrite list_lookup_alter_eq in Hk. destruct (conns w !! k); cbn in Hk; [ | discriminate ].
    injection Hk as <-. discriminate.
  - rewrite list_lookup_alter_ne in Hk by exact Hne. auto.
Qed.

Lemma disposal_connected w d k c' :
  conns (disposal w d) !! k = Some c' -> Connected c' = true ->
  conns w !! k = Some c' /\ d <> Bin.Disconnected k.
Proof.
  destruct d as [f | c | | |]; cbn; intros Hk Hcon; try (split; [ exact Hk | discriminate ]).
  - split; [ | discriminate ]. destruct f; cbn in Hk; repeat case_match; exact Hk.
  - apply Disconnect_connected in Hk as [Hk Hne]; [ | exact Hcon ].
    split; [ exact Hk | congruence ].
Qed.

(** A connection that is connected after the disposals was connected
    before them and is not among them. *)
Lemma disposals_connected ds : forall w k c',
  conns (foldl disposal w ds) !! k = Some c' -> Connected c' = true ->
  conns w !! k = Some c' /\ Bin.Disconnected k ∉ ds.
Proof.
  induction ds as [| d ds IH]; intros w k c' Hk Hcon; cbn in Hk.
  - split; [ exact Hk | apply not_elem_of_nil ].
  - destruct (IH _ _ _ Hk Hcon) as [Hk1 Hnot].
    destruct (disposal_connected _ _ _ _ Hk1 Hcon) as [Hk0 Hd].
    split; [ exact Hk0 | ]. intros Hin.
    apply elem_of_cons in Hin as [Heq | Hin]; [ congruence | auto ].
Qed.

(** After the disposals, [BallComponent.active] is no component whose
    release closure was among them. *)
Lemma disposals_released ds : forall w this,
  Bin.Called (releaseBall this) ∈ ds ->
  BallComponent_active (foldl disposal w ds) <> Some this.
Proof.
  induction ds as [| d ds IH]; intros w this Hin; [ now apply elem_of_nil in Hin | ].
  apply elem_of_cons in Hin as [<- | Hin]; [ | apply IH; exact Hin ].
  cbn [foldl]. destruct (quiet_disposals ds (disposal w (Bin.Called (releaseBall this))))
    as (_ & [-> | ->] & _ & _); [ | discriminate ].
  cbn. case_bool_decide as Hact; [ discriminate | exact Hact ].
Qed.

Lemma Inv_BallComponent_destroy this w : Inv w -> Inv (BallComponent_destroy this w).
Proof.
  intros HI. unfold BallComponent_destroy.
  destruct (balls w !! this) as [b |] eqn:Hb; [ | exact HI ].
  destruct (inv_bin w HI this b Hb) as (items & Hholds & Hrel & Hcon).
  destruct (BinFacts.destroy_holds _ _ Hholds) as (bin' & Hd & Hholds' & Hempty & _).
  rewrite Hd.
  set (f := fun b0 => {| ball_instance := ball_instance b0; ball_bin := bin';
                         active := active b0; target := target b0; isHit := isHit b0 |}).
  set (w0 := set_ball this f w).
  set (ds := Bin.dispose <$> items).
  destruct (quiet_disposals ds w0) as (Hballs & Hact & _ & _).
  assert (Hballs' : balls (foldl disposal w0 ds) = alter f this (balls w))
    by (rewrite Hballs; reflexivity).
  assert (Hconn : forall k c, conns (foldl disposal w0 ds) !! k = Some c ->
                    Connected c = true ->
                    conns w !! k = Some c /\ Bin.Connection k ∉ items).
  { intros k c Hk Hc. destruct (disposals_connected ds w0 k c Hk Hc) as [Hk0 Hnot].
    split; [ exact Hk0 | ]. intros Hin. apply Hnot.
    exact (list_elem_of_fmap_2 Bin.dispose items (Bin.Connection k) Hin). }
  split.
  - intros that Hthat.
    assert (Hthat0 : BallComponent_active w = Some that).
    { destruct Hact as [Hsame | Hnone]; [ | congruence ].
      rewrite <- Hthat, Hsame. reflexivity. }
    destruct (inv_active w HI that Hthat0) as (b0 & Hb0 & He & Ha).
    destruct (decide (that = this)) as [-> | Hne].
    + exfalso. rewrite Hb in Hb0. injection Hb0 as <-.
      assert (Hne : items <> []).
      { intros ->. rewrite (proj2 (BinFacts.isEmpty_holds _ _ Hholds) eq_refl) in He.
        discriminate. }
      apply (disposals_released ds w0 this); [ | exact Hthat ].
      exact (list_elem_of_fmap_2 Bin.dispose items (Bin.Function (releaseBall this))
               (Hrel Hne)).
    + exists b0. rewrite Hballs', list_lookup_alter_ne by congruence. auto.
  - intros that b' Hthat. rewrite Hballs' in Hthat.
    destruct (decide (this = that)) as [<- | Hne].
    + rewrite list_lookup_alter_eq, Hb in Hthat. injection Hthat as <-. cbn.
      exists []. split; [ exact Hholds' | ]. split; [ congruence | ].
      intros k c Hk Hc Hbh. exfalso.
      destruct (Hconn k c Hk Hc) as [Hk0 Hnot]. apply Hnot. eauto.
    + rewrite list_lookup_alter_ne in Hthat by exact Hne.
      destruct (inv_bin w HI that b' Hthat) as (items' & Hh' & Hrel' & Hcon').
      exists items'. split; [ exact Hh' | ]. split; [ exact Hrel' | ].
      intros k c Hk Hc Hbh. destruct (Hconn k c Hk Hc) as [Hk0 _]. eauto.
  - intros k c that Hk Hc Hbh. rewrite Hballs', length_alter.
    destruct (Hconn k c Hk Hc) as [Hk0 _]. eapply (inv_handler w HI); eauto.
Qed.

(** *** Construction *)

Lemma lookup_last {A : Type} (l : list A) (x : A) : (l ++ [x]) !! length l = Some x.
Proof. rewrite lookup_app_r, Nat.sub_diag by lia. reflexivity. Qed.

Lemma alter_last {A : Type} (f : A -> A) (l : list A) (x : A) :
  alter f (length l) (l ++ [x]) = l ++ [f x].
Proof.
  replace (length l) with (length l + 0) by lia. rewrite alter_app_r. reflexivity.
Qed.

Lemma updateActive_last (l : list BallComponent) b w :
  balls w = l ++ [b] ->
  let a := bool_decide (GetAttribute (ball_instance b) "realBall" w = Some (AttrBool true)) in
  let w' := updateActive Gen2 (length l) w in
  balls w'
  = l ++ [ {| ball_instance := ball_instance b; ball_bin := ball_bin b; active := a;
              target := target b; isHit := false |} ]
  /\ conns w' = conns w /\ inst w' = inst w
  /\ BallComponent_active w'
     = if a then Some (length l)
       else if bool_decide (BallComponent_active w = Some (length l)) then None
            else BallComponent_active w.
Proof.
  intros Hb a w'. unfold w', updateActive. rewrite Hb, lookup_last. fold a.
  unfold set_ball. rewrite Hb, alter_last.
  destruct a; cbn; [ auto | ]. case_bool_decide; cbn; auto.
Qed.

Lemma updateTarget_last (l : list BallComponent) b w :
  balls w = l ++ [b] ->
  let w' := updateTarget (length l) w in
  balls w'
  = l ++ [ {| ball_instance := ball_instance b; ball_bin := ball_bin b; active := active b;
              target := GetAttribute (ball_instance b) "target" w; isHit := false |} ]
  /\ conns w' = conns w /\ inst w' = inst w
  /\ BallComponent_active w' = BallComponent_active w.
Proof.
  intros Hb w'. unfold w', updateTarget. rewrite Hb, lookup_last.
  unfold set_ball. rewrite Hb, alter_last. cbn. auto.
Qed.

Lemma ball_batch_last (l : list BallComponent) b args w :
  balls w = l ++ [b] ->
  let w' := ball_batch (length l) args w in
  balls w'
  = l ++ [ {| ball_instance := ball_instance b; ball_bin := Bin.batch args (ball_bin b);
              active := active b; target := target b; isHit := isHit b |} ]
  /\ conns w' = conns w /\ BallComponent_active w' = BallComponent_active w.
Proof.
  intros Hb w'. unfold w', ball_batch, set_ball. rewrite Hb, alter_last. cbn. auto.
Qed.

(** What the constructor leaves, in the three fields the invariant
    reads. *)
Lemma new_BallComponent_Gen2_fields instance w :
  let this := length (balls w) in
  let k := length (conns w) in
  let a := bool_decide (GetAttribute instance "realBall" w = Some (AttrBool true)) in
  let w' := (new_BallComponent Gen2 instance w).2 in
  (exists b,
     balls w' = balls w ++ [b] /\ isActive b = a
     /\ ball_bin b
        = Bin.batch [Bin.Function (releaseBall this); Bin.Connection (S (S k))]
            (Bin.batch [Bin.Connection k; Bin.Connection (S k)] Bin.new))
  /\ conns w'
     = conns w ++
       [ {| signal := AttributeChanged instance "realBall";
            handler := H_updateActive this; Connected := true |};
         {| signal := AttributeChanged instance "target";
            handler := H_updateTarget this; Connected := true |};
         {| signal := Destroying instance;
            handler := H_destroyBall this; Connected := true |} ]
  /\ BallComponent_active w'
     = if a then Some this
       else if bool_decide (BallComponent_active w = Some this) then None
            else BallComponent_active w.
Proof.
  intros this k a w'. unfold w', new_BallComponent.
  set (b0 := {| ball_instance := instance; ball_bin := Bin.new; active := false;
                target := Some (AttrString ""); isHit := false |}).
  set (w0 := set_balls (balls w ++ [b0]) w).
  fold this.
  destruct (updateActive_last (balls w) b0 w0 eq_refl) as (HbA & HcA & HiA & HaA).
  fold this in HbA, HcA, HiA, HaA. cbn [ball_instance b0] in HaA.
  change (bool_decide (GetAttribute instance "realBall" w0 = Some (AttrBool true)))
    with a in *.
  set (wA := updateActive Gen2 this w0) in *.
  destruct (updateTarget_last (balls w) _ wA HbA) as (HbT & HcT & HiT & HaT).
  fold this in HbT, HcT, HiT, HaT. set (wT := updateTarget this wA) in *.
  unfold Connect. lazy beta iota zeta.
  set (w1 := set_conns (conns wT ++ [_]) wT).
  set (w2 := set_conns (conns w1 ++ [_]) w1).
  destruct (ball_batch_last (balls w) _
              [Bin.Connection (length (conns wT)); Bin.Connection (length (conns w1))]
              w2 HbT) as (Hb3 & Hc3 & Ha3).
  fold this in Hb3, Hc3, Ha3. set (w3 := ball_batch this _ w2) in *.
  set (w4 := set_conns (conns w3 ++ [_]) w3).
  destruct (ball_batch_last (balls w) _
              [Bin.Function (releaseBall this); Bin.Connection (length (conns w3))]
              w4 Hb3) as (Hb5 & Hc5 & Ha5).
  fold this in Hb5, Hc5, Ha5. set (w5 := ball_batch this _ w4) in *.
  cbn [snd].
  assert (HcT' : conns wT = conns w) by (rewrite HcT, HcA; reflexivity).
  assert (Hc1 : conns w1
                = conns w ++ [ {| signal := AttributeChanged instance "realBall";
                                  handler := H_updateActive this; Connected := true |} ]).
  { unfold w1. cbn [conns set_conns]. rewrite HcT'. reflexivity. }
  assert (Hc2 : conns w2
                = conns w1 ++ [ {| signal := AttributeChanged instance "target";
                                   handler := H_updateTarget this; Connected := true |} ])
    by reflexivity.
  assert (Hc4 : conns w4
                = conns w3 ++ [ {| signal := Destroying instance;
                                   handler := H_destroyBall this; Connected := true |} ])
    by reflexivity.
  assert (Ha4 : BallComponent_active w4 = BallComponent_active w3) by reflexivity.
  assert (Ha2 : BallComponent_active w2 = BallComponent_active wT) by reflexivity.
  assert (Hk1 : length (conns w1) = S k).
  { rewrite Hc1, length_app. cbn. unfold k. lia. }
  assert (Hk3 : length (conns w3) = S (S k)).
  { rewrite Hc3, Hc2, length_app, Hk1. cbn. lia. }
  clearbody w5 w4 w3 w2 w1 wT wA.
  split; [ | split ].
  - eexists. split; [ exact Hb5 | ]. split; [ reflexivity | ].
    cbn. rewrite HcT', Hk1, Hk3. reflexivity.
  - rewrite Hc5, Hc4, Hc3, Hc2, Hc1. rewrite <- !app_assoc. reflexivity.
  - rewrite Ha5, Ha4, Ha3, Ha2, HaT, HaA. reflexivity.
Qed.

Lemma lookup_snoc_Some {A : Type} (l : list A) (x y : A) (i : nat) :
  (l ++ [x]) !! i = Some y ->
  (i < length l /\ l !! i = Some y) \/ (i = length l /\ y = x).
Proof.
  intros Hi. destruct (decide (i < length l)) as [Hlt | Hge].
  - left. rewrite lookup_app_l in Hi by exact Hlt. auto.
  - right. rewrite lookup_app_r in Hi by lia.
    destruct (i - length l) as [| n] eqn:Hn; cbn in Hi; [ | discriminate ].
    injection Hi as <-. split; [ lia | reflexivity ].
Qed.

Lemma Inv_new_BallComponent instance w :
  Inv w -> Inv (new_BallComponent Gen2 instance w).2.
Proof.
  intros HI.
  destruct (new_BallComponent_Gen2_fields instance w) as ((b & Hballs & Hactive & Hbin) & Hconns & Hact).
  set (w' := (new_BallComponent Gen2 instance w).2) in *.
  set (this := length (balls w)) in *. set (k := length (conns w)) in *.
  set (a := bool_decide (GetAttribute instance "realBall" w = Some (AttrBool true))) in *.
  set (items := [Bin.Connection k; Bin.Connection (S k);
                 Bin.Function (releaseBall this); Bin.Connection (S (S k))]
                : list (Bin.Destructible Closure)).
  assert (Hholds : BinSpec.holds (ball_bin b) items).
  { rewrite Hbin.
    apply (BinFacts.holds_batch
             [Bin.Function (releaseBall this); Bin.Connection (S (S k))] _
             [Bin.Connection k; Bin.Connection (S k)]).
    apply (BinFacts.holds_batch [Bin.Connection k; Bin.Connection (S k)] _ []).
    apply BinFacts.holds_new. }
  assert (Hnonempty : Bin.isEmpty (ball_bin b) = false).
  { destruct (Bin.isEmpty (ball_bin b)) eqn:He; [ | reflexivity ].
    apply (BinFacts.isEmpty_holds _ _ Hholds) in He. discriminate. }
  (* a connection of the new world: an old one, or one of the three new *)
  assert (Hnew : forall k' c that, conns w' !! k' = Some c ->
            ball_handler (handler c) = Some that ->
            (conns w !! k' = Some c) \/ (that = this /\ Bin.Connection k' ∈ items)).
  { intros k' c that Hk' Hbh. rewrite Hconns in Hk'.
    destruct (decide (k' < length (conns w))) as [Hlt | Hge].
    - left. now rewrite lookup_app_l in Hk' by exact Hlt.
    - right. rewrite lookup_app_r in Hk' by lia.
      assert (Hk'' : k' = k + (k' - length (conns w))) by (unfold k; lia).
      destruct (k' - length (conns w)) as [| [| [| n]]]; cbn in Hk'; try discriminate;
        injection Hk' as <-; cbn in Hbh; injection Hbh as <-;
        (split; [ reflexivity | ]); rewrite Hk''; unfold items;
        rewrite ?Nat.add_0_r, ?Nat.add_1_r; try replace (k + 2) with (S (S k)) by lia;
        set_solver. }
  assert (Hold : forall that, that < this -> balls w' !! that = balls w !! that).
  { intros that Hlt. rewrite Hballs. apply lookup_app_l. exact Hlt. }
  split.
  - intros that Hthat. rewrite Hact in Hthat.
    destruct a eqn:Ha.
    + injection Hthat as <-. exists b. rewrite Hballs. unfold this. rewrite lookup_last. auto.
    + case_bool_decide as Hd; [ discriminate | ].
      destruct (inv_active w HI that Hthat) as (b0 & Hb0 & He & Hb0a).
      exists b0. rewrite Hold by (eapply lookup_lt_Some; exact Hb0). auto.
  - intros that b' Hthat. rewrite Hballs in Hthat.
    apply lookup_snoc_Some in Hthat as [[Hlt Hthat] | [-> ->]].
    + destruct (inv_bin w HI that b' Hthat) as (items' & Hh' & Hrel' & Hcon').
      exists items'. split; [ exact Hh' | ]. split; [ exact Hrel' | ].
      intros k' c Hk' Hc Hbh. destruct (Hnew k' c that Hk' Hbh) as [Hk0 | [-> _]].
      * eauto.
      * unfold this in Hlt. lia.
    + exists items. split; [ exact Hholds | ]. split; [ intros _; unfold items; set_solver | ].
      intros k' c Hk' Hc Hbh. destruct (Hnew k' c _ Hk' Hbh) as [Hk0 | [_ Hin]].
      * pose proof (inv_handler w HI k' c _ Hk0 Hc Hbh). lia.
      * exact Hin.
  - intros k' c that Hk' Hc Hbh. rewrite Hballs, length_app. cbn.
    destruct (Hnew k' c that Hk' Hbh) as [Hk0 | [-> _]].
    + pose proof (inv_handler w HI k' c _ Hk0 Hc Hbh). lia.
    + unfold this. lia.
Qed.

Lemma Inv_onBallAdded instance w : Inv w -> Inv (onBallAdded Gen2 instance w).
Proof.
  intros HI. unfold onBallAdded. case_match; [ apply Inv_new_BallComponent | ]; exact HI.
Qed.

Lemma Inv_foldl {B : Type} (f : World T -> B -> World T) (l : list B) :
  (forall w x, Inv w -> Inv (f w x)) -> forall w, Inv w -> Inv (foldl f w l).
Proof.
  intros Hf. induction l as [| x l IH]; intros w HI; cbn; [ exact HI | ].
  apply IH, Hf, HI.
Qed.

Lemma Inv_onBallContainerAdded container w : Inv w -> Inv (onBallContainerAdded container w).
Proof.
  intros HI. unfold onBallContainerAdded.
  eapply Inv_quiet; [ apply quiet_Connect; reflexivity | ].
  apply Inv_foldl; [ | exact HI ]. intros; now apply Inv_onBallAdded.
Qed.

Lemma Inv_set_invoked v w : Inv w -> Inv (set_invoked v w).
Proof. intros [I1 I2 I3]. split; assumption. Qed.

Lemma Inv_invoke callback child w : Inv w -> Inv (invoke callback child w).
Proof.
  intros HI. unfold invoke. destruct callback. apply Inv_onBallContainerAdded.
  apply Inv_set_invoked. exact HI.
Qed.

Lemma Inv_Connect s h w :
  (forall c, ball_handler (h c) = None) -> Inv w -> Inv (Connect s h w).2.
Proof.
  intros Hh [I1 I2 I3].
  assert (Hold : forall k c this, conns (Connect s h w).2 !! k = Some c ->
            ball_handler (handler c) = Some this -> conns w !! k = Some c).
  { unfold Connect. cbn. intros k c this Hk Hbh.
    apply lookup_snoc_Some in Hk as [[_ Hk] | [_ ->]]; [ exact Hk | ].
    cbn in Hbh. rewrite Hh in Hbh. discriminate. }
  split.
  - exact I1.
  - intros this b Hb. destruct (I2 this b Hb) as (items & Hholds & Hrel & Hcon).
    exists items. split; [ exact Hholds | ]. split; [ exact Hrel | ].
    intros k c Hk Hc Hbh. eauto.
  - intros k c this Hk Hc Hbh. apply (I3 k c); eauto.
Qed.

Lemma Inv_bindToChild parent nm callback w : Inv w -> Inv (bindToChild parent nm callback w).
Proof.
  intros HI. unfold bindToChild. case_match; [ now apply Inv_invoke | ].
  apply Inv_Connect; [ reflexivity | exact HI ].
Qed.

Lemma Inv_bindToChild_handler connection nm callback child w :
  Inv w -> Inv (bindToChild_handler connection nm callback child w).
Proof.
  intros HI. unfold bindToChild_handler. case_match; [ | exact HI ].
  apply Inv_invoke. eapply Inv_quiet; [ apply quiet_Disconnect | exact HI ].
Qed.

(** A handler run through a connection that is connected. *)
Lemma Inv_runHandler k c arg w :
  Inv w -> conns w !! k = Some c -> Connected c = true ->
  Inv (runHandler Gen2 (handler c) arg w).
Proof.
  intros HI Hk Hc.
  destruct (handler c) as [this | this | this | this | this | this | | | | cn nm cb | | p] eqn:Hh;
    destruct arg as [x |]; cbn [runHandler]; try exact HI;
    try (apply Inv_updateTarget; exact HI);
    try (apply Inv_BallComponent_destroy; exact HI);
    try (apply Inv_heartbeat; exact HI);
    try (apply Inv_onBallAdded; exact HI);
    try (apply Inv_bindToChild_handler; exact HI);
    try (eapply Inv_quiet; [ | exact HI ];
         first [ apply quiet_CharacterComponent_destroy | apply quiet_onCharacterAdded
               | apply quiet_onCharacterRemoving | apply quiet_onPlayerAdded
               | now apply quiet_fields ]).
  - apply Inv_updateActive; [ exact HI | ].
    assert (Hbh : ball_handler (handler c) = Some this) by (rewrite Hh; reflexivity).
    pose proof (inv_handler w HI k c this Hk Hc Hbh) as Hlt.
    apply lookup_lt_is_Some in Hlt as [b Hb].
    destruct (inv_bin w HI this b Hb) as (items & Hholds & _ & Hcon).
    unfold BallComponent_live. rewrite Hb.
    destruct (Bin.isEmpty (ball_bin b)) eqn:He; [ | reflexivity ].
    apply (BinFacts.isEmpty_holds _ _ Hholds) in He. subst items.
    specialize (Hcon k c Hk Hc Hbh). now apply elem_of_nil in Hcon.
  - apply Inv_updateActive; [ exact HI | ].
    assert (Hbh : ball_handler (handler c) = Some this) by (rewrite Hh; reflexivity).
    pose proof (inv_handler w HI k c this Hk Hc Hbh) as Hlt.
    apply lookup_lt_is_Some in Hlt as [b Hb].
    destruct (inv_bin w HI this b Hb) as (items & Hholds & _ & Hcon).
    unfold BallComponent_live. rewrite Hb.
    destruct (Bin.isEmpty (ball_bin b)) eqn:He; [ | reflexivity ].
    apply (BinFacts.isEmpty_holds _ _ Hholds) in He. subst items.
    specialize (Hcon k c Hk Hc Hbh). now apply elem_of_nil in Hcon.
  - case_match; [ | exact HI ].
    eapply Inv_quiet; [ apply quiet_PlayerComponent_destroy | exact HI ].
Qed.

Lemma Inv_fire s arg w : Inv w -> Inv (fire (runHandler Gen2) s arg w).
Proof.
  intros HI. unfold fire. apply Inv_foldl; [ | exact HI ].
  intros w0 k HI0. destruct (conns w0 !! k) as [c |] eqn:Hk; [ | exact HI0 ].
  destruct (Connected c) eqn:Hc; cbn [andb]; [ | exact HI0 ].
  case_match; [ | exact HI0 ]. eapply Inv_runHandler; eauto.
Qed.

Lemma Inv_step e w : Inv w -> Inv (step Gen2 e w).
Proof.
  intros HI.
  destruct e; cbn [step];
    repeat first
      [ exact HI
      | apply Inv_fire
      | apply (Inv_quiet (fire (runHandler Gen2) (CharacterRemoving player) None w));
        [ now apply quiet_fields | ]
      | apply (Inv_quiet (fire (runHandler Gen2) PlayerRemoving (Some player) w));
        [ now apply quiet_fields | ]
      | apply (Inv_quiet w); [ now apply quiet_fields | ] ].
Qed.

Lemma Inv_main w : Inv w -> Inv (main Gen2 w).2.
Proof.
  intros HI. unfold main. case_match; [ exact HI | ].
  unfold ComponentController_init. cbn [snd]. unfold ParryController_init, VariableController_init.
  eapply Inv_quiet; [ apply quiet_Connect; reflexivity | ].
  eapply Inv_quiet; [ apply quiet_Connect; reflexivity | ].
  eapply Inv_quiet; [ now apply quiet_fields | ].
  eapply Inv_quiet; [ apply quiet_Connect; reflexivity | ].
  eapply Inv_quiet; [ apply quiet_Connect; reflexivity | ].
  eapply Inv_quiet; [ apply quiet_foldl; intros; apply quiet_onPlayerAdded | ].
  apply Inv_bindToChild.
  apply (Inv_quiet w); [ now apply quiet_fields | exact HI ].
Qed.

(** *** Reachable states *)

Lemma Inv_move m w : Inv w -> Inv (move w m).
Proof.
  destruct m; cbn [move];
    auto using Inv_main, Inv_step, Inv_new_BallComponent, Inv_updateTarget,
      Inv_debounce, Inv_BallComponent_destroy.
  intros HI. destruct (BallComponent_live this w) eqn:Hlive;
    [ now apply Inv_updateActive | exact HI ].
Qed.

Lemma Inv_fresh w :
  balls w = [] -> conns w = [] -> BallComponent_active w = None -> Inv w.
Proof.
  intros Hb Hc Ha. split.
  - rewrite Ha. discriminate.
  - rewrite Hb. intros this b Hl. now rewrite lookup_nil in Hl.
  - rewrite Hc. intros k c this Hl. now rewrite lookup_nil in Hl.
Qed.

(** C10. In the second generation, in every state reached from a start
    without components or connections by loading the module, engine
    events, and constructing, updating, debouncing and destroying ball
    components: if [BallComponent.active] is defined, it is a component
    that has not been destroyed and whose [isActive()] is true. *)
Theorem active_ball_is_live (w0 : World T) (ms : list Move) (this : nat) :
  balls w0 = [] -> conns w0 = [] -> BallComponent_active w0 = None ->
  BallComponent_active (moves ms w0) = Some this ->
  BallComponent_live this (moves ms w0) = true
  /\ exists b, balls (moves ms w0) !! this = Some b /\ isActive b = true.
Proof.
  intros Hb Hc Ha Hact.
  assert (HI : Inv (moves ms w0)).
  { unfold moves. apply Inv_foldl; [ intros; now apply Inv_move | ].
    now apply Inv_fresh. }
  destruct (inv_active _ HI this Hact) as (b & Hthis & He & Hactive).
  split; [ | eauto ].
  unfold BallComponent_live. rewrite Hthis, He. reflexivity.
Qed.

End Facts.
End BallFacts.

(** ** bindToChild: the callback is called at most once *)

Module BindFacts.
Import Script ScriptSpec ScriptFacts BallFacts.
Section Facts.
Context {T : Type} `{Number T}.
Implicit Types (w : World T) (g : Generation).

Lemma bind_handler_tracked h : bind_handler h = true -> tracked h = true.
Proof. destruct h; cbn; congruence. Qed.

Lemma calm_refl w : calm w w.
Proof. split; auto. Qed.

Lemma calm_trans w1 w2 w3 : calm w1 w2 -> calm w2 w3 -> calm w1 w3.
Proof.
  intros [Hi1 Hc1] [Hi2 Hc2]. split; [ congruence | ].
  intros k c' Hk Hcon Hb. apply Hc1; auto.
Qed.

Lemma calm_quiet w w' : ball_quiet w w' -> calm w w'.
Proof.
  intros (_ & _ & Hi & Hc). split; [ exact Hi | ].
  intros k c' Hk Hcon Hb. apply Hc; auto using bind_handler_tracked.
Qed.

Lemma calm_fields w w' : invoked w' = invoked w -> conns w' = conns w -> calm w w'.
Proof. intros Hi Hc. unfold calm. rewrite Hi, Hc. auto. Qed.

Lemma calm_foldl {B : Type} (f : World T -> B -> World T) (l : list B) :
  (forall w x, calm w (f w x)) -> forall w, calm w (foldl f w l).
Proof.
  intros Hf. induction l as [| x l IH]; intros w; cbn; [ apply calm_refl | ].
  eapply calm_trans; [ apply Hf | apply IH ].
Qed.

Lemma calm_Connect s h w :
  (forall c, bind_handler (h c) = false) -> calm w (Connect s h w).2.
Proof.
  intros Hh. split; [ reflexivity | ].
  unfold Connect. cbn. intros k c' Hk _ Hb.
  apply lookup_snoc_Some in Hk as [[_ Hk] | [_ ->]]; [ exact Hk | ].
  cbn in Hb. rewrite Hh in Hb. discriminate.
Qed.

Lemma calm_set_ball this f w : calm w (set_ball this f w).
Proof. now apply calm_fields. Qed.

Lemma calm_updateTarget this w : calm w (updateTarget this w).
Proof. unfold updateTarget. case_match; [ apply calm_set_ball | apply calm_refl ]. Qed.

Lemma calm_updateActive g this w : calm w (updateActive g this w).
Proof.
  unfold updateActive. destruct g; repeat case_match;
    try apply calm_refl; now apply calm_fields.
Qed.

Lemma calm_new_BallComponent g instance w : calm w (new_BallComponent g instance w).2.
Proof.
  unfold new_BallComponent. lazy beta iota zeta.
  set (this := length (balls w)).
  set (w0 := set_balls _ w).
  assert (H0 : calm w w0) by now apply calm_fields.
  assert (HT : calm w0 (updateTarget this (updateActive g this w0)))
    by (eapply calm_trans; [ apply calm_updateActive | apply calm_updateTarget ]).
  set (wT := updateTarget this (updateActive g this w0)) in *. clearbody wT w0.
  pose proof (calm_Connect (AttributeChanged instance "realBall")
                (fun _ => H_updateActive this) wT (fun _ => eq_refl)) as H1.
  destruct (Connect (AttributeChanged instance "realBall") (fun _ => H_updateActive this) wT)
    as [c1 w1].
  pose proof (calm_Connect (AttributeChanged instance "target")
                (fun _ => H_updateTarget this) w1 (fun _ => eq_refl)) as H2.
  destruct (Connect (AttributeChanged instance "target") (fun _ => H_updateTarget this) w1)
    as [c2 w2].
  cbn [snd] in *.
  set (w3 := ball_batch this _ w2).
  assert (H3 : calm w2 w3) by apply calm_set_ball. clearbody w3.
  pose proof (calm_Connect (Destroying instance) (fun _ => H_destroyBall this) w3
                (fun _ => eq_refl)) as H4.
  destruct (Connect (Destroying instance) (fun _ => H_destroyBall this) w3) as [c3 w4].
  cbn [snd] in *.
  set (w5 := ball_batch this _ w4).
  assert (H5 : calm w4 w5) by apply calm_set_ball. clearbody w5.
  assert (Hall : calm w w5).
  { eapply calm_trans; [ exact H0 | ]. eapply calm_trans; [ exact HT | ].
    eapply calm_trans; [ exact H1 | ]. eapply calm_trans; [ exact H2 | ].
    eapply calm_trans; [ exact H3 | ]. eapply calm_trans; [ exact H4 | exact H5 ]. }
  destruct g; cbn [snd]; [ | exact Hall ].
  eapply calm_trans; [ exact Hall | now apply calm_fields ].
Qed.

Lemma calm_BallComponent_destroy this w : calm w (BallComponent_destroy this w).
Proof.
  unfold BallComponent_destroy. repeat case_match; try apply calm_refl.
  eapply calm_trans; [ apply calm_set_ball | apply calm_quiet, quiet_disposals ].
Qed.

Lemma calm_onBallAdded g instance w : calm w (onBallAdded g instance w).
Proof.
  unfold onBallAdded. case_match; [ apply calm_new_BallComponent | apply calm_refl ].
Qed.

Lemma calm_onBallContainerAdded container w : calm w (onBallContainerAdded container w).
Proof.
  unfold onBallContainerAdded.
  eapply calm_trans; [ | apply calm_Connect; reflexivity ].
  apply calm_foldl. intros; apply calm_onBallAdded.
Qed.

Lemma calm_useParry ball w : calm w (useParry ball w).
Proof.
  unfold useParry, debounce.
  eapply calm_trans; [ | apply calm_set_ball ]. now apply calm_fields.
Qed.

Lemma calm_forEach_ball nm origin motion instance ball w :
  calm w (forEach_ball nm origin motion instance ball w).
Proof.
  unfold forEach_ball. repeat case_match; auto using calm_useParry, calm_refl.
Qed.

Lemma calm_parry_active nm origin motion ball w :
  calm w (parry_active nm origin motion ball w).
Proof.
  unfold parry_active. repeat case_match; auto using calm_useParry, calm_refl.
Qed.

Lemma calm_heartbeat g player w : calm w (heartbeat g player w).
Proof.
  unfold heartbeat. destruct g; repeat case_match; try apply calm_refl.
  - apply (map_fold_weak_ind (fun r _ => calm w r)); [ apply calm_refl | ].
    intros i x m r _ Hr. eapply calm_trans; [ exact Hr | apply calm_forEach_ball ].
  - apply calm_parry_active.
Qed.

(** Every handler but the one [bindToChild] connects is calm. *)
Lemma calm_runHandler g h arg w :
  bind_handler h = false -> calm w (runHandler g h arg w).
Proof.
  intros Hb. destruct h; try discriminate; destruct arg as [x |]; cbn [runHandler];
    try apply calm_refl;
    auto using calm_updateActive, calm_updateTarget, calm_BallComponent_destroy,
      calm_onBallAdded, calm_heartbeat;
    try (apply calm_quiet;
         first [ apply quiet_CharacterComponent_destroy | apply quiet_onCharacterAdded
               | apply quiet_onCharacterRemoving | apply quiet_onPlayerAdded
               | now apply quiet_fields ]).
  case_match; [ apply calm_quiet, quiet_PlayerComponent_destroy | apply calm_refl ].
Qed.

(** *** The two states of a binding *)

(** Names do not change: the script never writes the data model, and no
    engine event of the model renames an object. *)
Lemma Name_runHandler g h arg w i :
  Name (inst (runHandler g h arg w) i) = Name (inst w i).
Proof. now rewrite (untouched_runHandler (@inst T)). Qed.

Lemma Name_fire g s arg w i :
  Name (inst (fire (runHandler g) s arg w) i) = Name (inst w i).
Proof. now rewrite (untouched_fire (@inst T)). Qed.

Lemma Name_step g e w i : Name (inst (step g e w) i) = Name (inst w i).
Proof.
  destruct e; cbn [step]; rewrite ?Name_fire; unfold set_instance;
    cbn [inst set_inst set_Players set_Workspace_Gravity];
    repeat case_bool_decide; cbn [Name]; rewrite ?Name_fire; reflexivity.
Qed.

Lemma Name_steps g es : forall w i, Name (inst (steps g es w) i) = Name (inst w i).
Proof.
  induction es as [| e es IH]; intros w i; cbn; [ reflexivity | ].
  unfold steps in IH. rewrite IH. apply Name_step.
Qed.

Lemma waiting_calm base k nm cb w w' :
  calm w w' -> waiting base k nm cb w -> waiting base k nm cb w'.
Proof.
  intros [Hi Hc] [Hbase Hw]. split; [ congruence | ].
  intros k' c Hk Hcon Hb. apply Hw; auto.
Qed.

Lemma called_calm base cb child w w' :
  calm w w' -> called base cb child w -> called base cb child w'.
Proof.
  intros [Hi Hc] [Hbase Hn]. split; [ congruence | ].
  intros k c Hk Hcon. destruct (bind_handler (handler c)) eqn:Hb; [ | reflexivity ].
  rewrite <- (Hn k c); auto.
Qed.

Lemma called_invoke base cb child w :
  invoked w = base -> none_waiting w -> called base cb child (invoke cb child w).
Proof.
  intros Hbase Hn. unfold invoke. destruct cb.
  apply (called_calm _ _ _ (set_invoked (invoked w ++ [(onBallContainerAdded_cb, child)]) w));
    [ apply calm_onBallContainerAdded | ].
  split; [ cbn; now rewrite Hbase | exact Hn ].
Qed.

Lemma advance_trans w0 nm st1 st2 st3 :
  advance w0 nm st1 st2 -> advance w0 nm st2 st3 -> advance w0 nm st1 st3.
Proof.
  intros [-> | [-> (c & -> & Hn)]] [-> | [Hnone (c' & -> & Hn')]];
    unfold advance; eauto; discriminate.
Qed.

Lemma binding_calm base k nm cb st w w' :
  calm w w' -> binding base k nm cb st w -> binding base k nm cb st w'.
Proof. destruct st; cbn; eauto using waiting_calm, called_calm. Qed.

(** Running the handler of a connected connection. *)
Lemma binding_runHandler base k nm cb w0 st k' c arg w :
  conns w !! k' = Some c -> Connected c = true ->
  binding base k nm cb st w ->
  (forall i, Name (inst w i) = Name (inst w0 i)) ->
  exists st', advance w0 nm st st'
              /\ binding base k nm cb st' (runHandler Gen2 (handler c) arg w).
Proof.
  intros Hk Hcon Hstate Hnames.
  destruct (bind_handler (handler c)) eqn:Hb.
  - destruct st as [child |]; cbn in Hstate.
    { destruct Hstate as [_ Hn]. rewrite (Hn k' c Hk Hcon) in Hb. discriminate. }
    destruct Hstate as [Hbase Hw].
    destruct (Hw k' c Hk Hcon Hb) as [-> Hh]. rewrite Hh.
    destruct arg as [child |]; cbn [runHandler];
      [ | exists None; split; [ now left | split; assumption ] ].
    unfold bindToChild_handler.
    destruct (String.eqb (Name (inst w child)) nm) eqn:Hname;
      [ | exists None; split; [ now left | split; assumption ] ].
    exists (Some child). split.
    + right. split; [ reflexivity | ]. exists child. split; [ reflexivity | ].
      apply String.eqb_eq in Hname. now rewrite <- Hnames.
    + apply called_invoke; [ exact Hbase | ].
      intros k2 c2 Hk2 Hc2. destruct (bind_handler (handler c2)) eqn:Hb2; [ | reflexivity ].
      apply Disconnect_connected in Hk2 as [Hk2 Hne]; [ | exact Hc2 ].
      destruct (Hw k2 c2 Hk2 Hc2 Hb2) as [-> _]. contradiction.
  - exists st. split; [ now left | ].
    eapply binding_calm; [ apply calm_runHandler; exact Hb | exact Hstate ].
Qed.

Lemma binding_fire base k nm cb w0 s arg : forall st w,
  binding base k nm cb st w ->
  (forall i, Name (inst w i) = Name (inst w0 i)) ->
  exists st', advance w0 nm st st'
              /\ binding base k nm cb st' (fire (runHandler Gen2) s arg w).
Proof.
  intros st w. unfold fire. generalize (seq 0 (length (conns w))). intros ks.
  revert st w.
  induction ks as [| k' ks IH]; intros st w Hstate Hnames; cbn [foldl];
    [ exists st; split; [ now left | exact Hstate ] | ].
  destruct (conns w !! k') as [c |] eqn:Hk; [ | now apply IH ].
  destruct (Connected c) eqn:Hcon; cbn [andb]; [ | now apply IH ].
  case_bool_decide; [ | now apply IH ].
  destruct (binding_runHandler base k nm cb w0 st k' c arg w Hk Hcon Hstate Hnames)
    as (st1 & Hadv1 & Hst1).
  destruct (IH st1 _ Hst1) as (st2 & Hadv2 & Hst2).
  { intros i. now rewrite Name_runHandler. }
  exists st2. split; [ eapply advance_trans; eauto | exact Hst2 ].
Qed.

Lemma binding_step base k nm cb w0 e st w :
  binding base k nm cb st w ->
  (forall i, Name (inst w i) = Name (inst w0 i)) ->
  exists st', advance w0 nm st st' /\ binding base k nm cb st' (step Gen2 e w).
Proof.
  intros Hstate Hnames.
  assert (Hset : forall st1 w1 w2, conns w2 = conns w1 -> invoked w2 = invoked w1 ->
            binding base k nm cb st1 w1 -> binding base k nm cb st1 w2).
  { intros st1 w1 w2 Hc Hi. apply binding_calm. now apply calm_fields. }
  assert (Hinst : forall j f i, Name (inst w j) = Name (f (inst w j)) ->
            Name (inst (set_instance j f w) i) = Name (inst w0 i)).
  { intros j f i Hf. rewrite <- Hnames. unfold set_instance. cbn.
    case_bool_decide; [ subst; now rewrite <- Hf | reflexivity ]. }
  assert (Hafter : forall s arg (f : World T -> World T),
            (forall w1, conns (f w1) = conns w1 /\ invoked (f w1) = invoked w1) ->
            exists st', advance w0 nm st st'
                        /\ binding base k nm cb st' (f (fire (runHandler Gen2) s arg w))).
  { intros s arg f Hf.
    destruct (binding_fire base k nm cb w0 s arg st w Hstate Hnames) as (st' & Hadv & Hst').
    exists st'. split; [ exact Hadv | ].
    destruct (Hf (fire (runHandler Gen2) s arg w)) as [Hc Hi].
    eapply Hset; eauto. }
  destruct e as [ | i attr v | i | h | player character | player | parent child
                | player | player | i position velocity | a ]; cbn [step].
  - apply binding_fire; assumption.
  - apply binding_fire; [ | intros j; now apply Hinst ].
    apply (Hset st w); [ reflexivity | reflexivity | exact Hstate ].
  - apply binding_fire; assumption.
  - apply binding_fire; assumption.
  - apply binding_fire; [ | intros j; now apply Hinst ].
    apply (Hset st w); [ reflexivity | reflexivity | exact Hstate ].
  - apply (Hafter (CharacterRemoving player) None
             (set_instance player
                (fun o => {| Name := Name o; IsA_Part := IsA_Part o; Position := Position o;
                             AssemblyLinearVelocity := AssemblyLinearVelocity o;
                             Attributes := Attributes o; Children := Children o;
                             Character := None |}))).
    intros w1. split; reflexivity.
  - apply binding_fire; [ | intros j; now apply Hinst ].
    apply (Hset st w); [ reflexivity | reflexivity | exact Hstate ].
  - apply binding_fire; [ | exact Hnames ].
    apply (Hset st w); [ reflexivity | reflexivity | exact Hstate ].
  - apply (Hafter PlayerRemoving (Some player)
             (fun w1 => set_Players (filter (fun p => p <> player) (Players w1)) w1)).
    intros w1. split; reflexivity.
  - exists st. split; [ now left | ].
    apply (Hset st w); [ reflexivity | reflexivity | exact Hstate ].
  - exists st. split; [ now left | ].
    apply (Hset st w); [ reflexivity | reflexivity | exact Hstate ].
Qed.

Lemma binding_steps base k nm cb w0 es : forall st w,
  binding base k nm cb st w ->
  (forall i, Name (inst w i) = Name (inst w0 i)) ->
  exists st', advance w0 nm st st' /\ binding base k nm cb st' (steps Gen2 es w).
Proof.
  induction es as [| e es IH]; intros st w Hstate Hnames;
    [ exists st; split; [ now left | exact Hstate ] | ].
  destruct (binding_step base k nm cb w0 e st w Hstate Hnames) as (st1 & Hadv1 & Hst1).
  destruct (IH st1 (step Gen2 e w) Hst1) as (st2 & Hadv2 & Hst2).
  { intros i. now rewrite Name_step. }
  exists st2. split; [ eapply advance_trans; eauto | exact Hst2 ].
Qed.


(** *** The first matching child *)

(** Firing a signal that only the last connection listens to. *)
Lemma fire_only_last (run : Handler -> option nat -> World T -> World T) s arg w cs c :
  conns w = cs ++ [c] ->
  (forall k' c', cs !! k' = Some c' -> signal c' <> s) ->
  fire run s arg w
  = if Connected c && bool_decide (signal c = s) then run (handler c) arg w else w.
Proof.
  intros Hc Hothers. unfold fire. rewrite Hc, length_app. cbn [length].
  rewrite Nat.add_1_r, seq_S, foldl_app. cbn [foldl Nat.add].
  assert (Hskip : forall ks, (forall k', k' ∈ ks -> k' < length cs) ->
            foldl (fun w0 c0 =>
                     match conns w0 !! c0 with
                     | Some k0 =>
                         if Connected k0 && bool_decide (signal k0 = s)
                         then run (handler k0) arg w0 else w0
                     | None => w0
                     end) w ks = w).
  { induction ks as [| k' ks IH]; intros Hks; [ reflexivity | ]. cbn [foldl].
    assert (Hlt : k' < length cs) by (apply Hks; left).
    rewrite Hc, lookup_app_l by exact Hlt.
    destruct (cs !! k') as [c' |] eqn:Hk'; [ | apply IH; intros; apply Hks; now right ].
    rewrite (bool_decide_eq_false_2 _ (Hothers k' c' Hk')), andb_false_r.
    apply IH. intros; apply Hks; now right. }
  rewrite Hskip by (intros k' Hk'; apply elem_of_seq in Hk'; lia).
  rewrite Hc, lookup_last. reflexivity.
Qed.

(** When nothing else listens to [parent.ChildAdded] and the children
    [cs] are added to [parent] one after the other, the callback is called
    on the first of them that has the awaited name, and on no other. *)
Lemma bindToChild_first_match (parent : nat) (nm : string) (cb : Callback)
    (w : World T) (cs : list nat) :
  none_waiting w ->
  (forall k c, conns w !! k = Some c -> signal c <> ChildAdded parent) ->
  FindFirstChild parent nm w = None ->
  invoked (steps Gen2 (E_ChildAdded parent <$> cs) (bindToChild parent nm cb w))
  = invoked w
    ++ match find (fun c => String.eqb (Name (inst w c)) nm) cs with
       | Some c => [(cb, c)]
       | None => []
       end.
Proof.
  intros Hnone Hothers Hfind.
  set (k := length (conns w)).
  set (bound := {| signal := ChildAdded parent; handler := H_bindToChild k nm cb;
                   Connected := true |}).
  assert (Hgen : forall w1,
            conns w1 = conns w ++ [bound] -> invoked w1 = invoked w ->
            (forall i, Name (inst w1 i) = Name (inst w i)) ->
            invoked (steps Gen2 (E_ChildAdded parent <$> cs) w1)
            = invoked w
              ++ match find (fun c => String.eqb (Name (inst w c)) nm) cs with
                 | Some c => [(cb, c)]
                 | None => []
                 end).
  { induction cs as [| c cs IH]; intros w1 Hc1 Hi1 Hn1.
    - cbn. now rewrite app_nil_r.
    - cbn [fmap list_fmap find]. unfold steps. cbn [foldl]. fold (steps Gen2).
      cbn [step].
      set (wi := set_instance parent _ w1).
      assert (Hci : conns wi = conns w ++ [bound]) by exact Hc1.
      assert (Hni : forall i, Name (inst wi i) = Name (inst w i)).
      { intros i. rewrite <- Hn1. unfold wi, set_instance. cbn.
        case_bool_decide; [ subst; reflexivity | reflexivity ]. }
      rewrite (fire_only_last (runHandler Gen2) (ChildAdded parent) (Some c) wi
                 (conns w) bound Hci Hothers).
      cbn [Connected bound signal handler andb]. rewrite bool_decide_eq_true_2 by reflexivity.
      cbn [runHandler]. unfold bindToChild_handler. rewrite Hni.
      destruct (String.eqb (Name (inst w c)) nm) eqn:Hname.
      + assert (Hst : binding (invoked w) k nm cb (Some c)
                        (invoke cb c (Disconnect k wi))).
        { apply called_invoke; [ exact Hi1 | ].
          intros k2 c2 Hk2 Hc2.
          apply Disconnect_connected in Hk2 as [Hk2 Hne]; [ | exact Hc2 ].
          rewrite Hci in Hk2. apply lookup_snoc_Some in Hk2 as [[_ Hk2] | [Hk2 _]].
          - exact (Hnone k2 c2 Hk2 Hc2).
          - contradiction. }
        destruct (binding_steps (invoked w) k nm cb w (E_ChildAdded parent <$> cs)
                    (Some c) _ Hst) as (st' & [-> | [Habs _]] & Hst');
          [ | apply Hst' | discriminate ].
        intros i. unfold invoke. destruct cb.
        rewrite (untouched_onBallContainerAdded (@inst T)). cbn. apply Hni.
      + apply IH; [ exact Hci | exact Hi1 | exact Hni ]. }
  apply Hgen.
  - unfold bindToChild. rewrite Hfind. reflexivity.
  - unfold bindToChild. rewrite Hfind. reflexivity.
  - intros i. unfold bindToChild. rewrite Hfind. reflexivity.
Qed.

End Facts.
End BindFacts.

(** ** More on the solvers *)

Module SolverMore.
Import Solver SolverSpec SolverFacts Draft.
Local Open Scope R_scope.

(** The crossing times of the sphere, for a nonzero velocity. *)
Lemma sphere_roots (x y z vx vy vz r : R) :
  0 < coef_a vx vy vz ->
  (discriminant x y z vx vy vz r < 0 -> forall t, ~ sphere_root x y z vx vy vz r t)
  /\ (0 <= discriminant x y z vx vy vz r ->
      forall t, sphere_root x y z vx vy vz r t
                <-> t = root0 x y z vx vy vz r \/ t = root1 x y z vx vy vz r).
Proof.
  intros Ha. split.
  - intros Hd t Ht. apply sphere_root_quadratic in Ht.
    unfold discriminant, sq in Hd. to_R.
    set (a := coef_a vx vy vz) in *. set (b := coef_b x y z vx vy vz) in *.
    set (c := coef_c x y z r) in *. clearbody a b c.
    pose proof (Rle_0_sqr (2 * a * t + b)) as Hsq. unfold Rsqr in Hsq. nra.
  - intros Hd t. rewrite sphere_root_quadratic.
    apply quadratic_roots; [ exact Ha | exact Hd ].
Qed.

(** With a nonzero relative velocity, [evaluateIntercept] returns [t]
    exactly when [t] is the earliest strictly positive time at which the
    distance from the centre is [R]; it returns nothing exactly when there
    is no such time. *)
Theorem evaluateIntercept_first_hit (x y z vx vy vz r t : R) :
  vx <> 0 \/ vy <> 0 \/ vz <> 0 ->
  evaluateIntercept x y z vx vy vz r = Some t
  <-> 0 < t /\ sphere_root x y z vx vy vz r t
      /\ forall u, 0 < u -> u < t -> ~ sphere_root x y z vx vy vz r u.
Proof.
  intros Hv. pose proof (coef_a_pos vx vy vz Hv) as Ha.
  destruct (sphere_roots x y z vx vy vz r Ha) as [Hnone Hroots].
  pose proof (roots_ordered x y z vx vy vz r Ha) as Hord.
  rewrite evaluateIntercept_unfold. to_R.
  set (d := discriminant x y z vx vy vz r) in *.
  set (t0 := root0 x y z vx vy vz r) in *. set (t1 := root1 x y z vx vy vz r) in *.
  cmp d 0 Hd.
  - split; [ discriminate | ]. intros (_ & Ht & _). exfalso. exact (Hnone Hd t Ht).
  - specialize (Hroots Hd). cmp 0 t0 H0.
    + split.
      * intros [= <-]. split; [ exact H0 | ]. split; [ apply Hroots; now left | ].
        intros u Hu Hlt Hroot. apply Hroots in Hroot. destruct Hroot; lra.
      * intros (Hpos & Ht & Hmin). f_equal.
        apply Hroots in Ht. destruct Ht as [-> | ->]; [ reflexivity | ].
        destruct (Rle_lt_or_eq_dec t0 t1 Hord) as [Hlt | Heq]; [ | exact Heq ].
        exfalso. apply (Hmin t0 H0 Hlt). apply Hroots. now left.
    + cmp 0 t1 H1.
      * split.
        -- intros [= <-]. split; [ exact H1 | ]. split; [ apply Hroots; now right | ].
           intros u Hu Hlt Hroot. apply Hroots in Hroot. destruct Hroot; lra.
        -- intros (Hpos & Ht & _). f_equal.
           apply Hroots in Ht. destruct Ht as [-> | ->]; [ lra | reflexivity ].
      * split; [ discriminate | ]. intros (Hpos & Ht & _).
        apply Hroots in Ht. destruct Ht; lra.
Qed.

(** Scenario A of the description: the first time at distance 2 is 0.3. *)
Lemma evaluateIntercept_first_hit_witness :
  ((0 <> 0 \/ 0 <> 0 \/ -10 <> 0)
   /\ evaluateIntercept 0 0 5 0 0 (-10) 2 = Some (3 / 10))
  /\ 0 < 3 / 10 /\ sphere_root 0 0 5 0 0 (-10) 2 (3 / 10).
Proof.
  assert (Hv : 0 <> 0 \/ 0 <> 0 \/ -10 <> 0) by (right; right; lra).
  assert (Hres : evaluateIntercept 0 0 5 0 0 (-10) 2 = Some (3 / 10)).
  { rewrite evaluateIntercept_unfold.
    destruct scenario_A_roots as (Hd & H0 & H1). rewrite Hd, H0. to_R.
    cmp 1600 0 Hc; [ lra | ]. cmp 0 (3 / 10) Hc'; [ reflexivity | lra ]. }
  split; [ split; assumption | ].
  destruct (proj1 (evaluateIntercept_first_hit 0 0 5 0 0 (-10) 2 (3 / 10) Hv) Hres)
    as (Hpos & Hroot & _).
  split; assumption.
Defined.

(** From a start strictly inside the radius, with a nonzero velocity,
    [evaluateIntercept] always returns a time: the strictly positive one
    at which the sphere is left (the other root is negative). *)
Theorem evaluateIntercept_from_inside (x y z vx vy vz r : R) :
  vx <> 0 \/ vy <> 0 \/ vz <> 0 ->
  x * x + y * y + z * z < r * r ->
  root0 x y z vx vy vz r < 0 < root1 x y z vx vy vz r
  /\ evaluateIntercept x y z vx vy vz r = Some (root1 x y z vx vy vz r).
Proof.
  intros Hv Hin. pose proof (coef_a_pos vx vy vz Hv) as Ha.
  assert (Hc : coef_c x y z r < 0) by (unfold coef_c, sq; to_R; lra).
  set (a := coef_a vx vy vz) in *. set (b := coef_b x y z vx vy vz).
  set (c := coef_c x y z r) in *.
  assert (Hd : b * b < discriminant x y z vx vy vz r).
  { unfold discriminant, sq. to_R. fold a b c. nra. }
  assert (Hd0 : 0 <= discriminant x y z vx vy vz r) by nra.
  set (s := sqrt (discriminant x y z vx vy vz r)).
  assert (Hs0 : 0 <= s) by apply sqrt_pos.
  assert (Hss : s * s = discriminant x y z vx vy vz r) by (apply sqrt_sqrt; exact Hd0).
  assert (Hsb : - s < b < s) by (split; nra).
  pose proof (Rinv_0_lt_compat (2 * a) ltac:(lra)) as Hi.
  assert (H0 : root0 x y z vx vy vz r < 0).
  { unfold root0. fold a b s. apply div_neg_pos; lra. }
  assert (H1 : 0 < root1 x y z vx vy vz r).
  { unfold root1. fold a b s. unfold Rdiv. apply Rmult_lt_0_compat; lra. }
  split; [ split; assumption | ].
  rewrite evaluateIntercept_unfold. to_R.
  cmp (discriminant x y z vx vy vz r) 0 Hc0; [ lra | ].
  cmp 0 (root0 x y z vx vy vz r) Hc1; [ lra | ].
  cmp 0 (root1 x y z vx vy vz r) Hc2; [ reflexivity | lra ].
Qed.

Lemma evaluateIntercept_from_inside_witness :
  ((0 <> 0 \/ 0 <> 0 \/ -10 <> 0) /\ 0 * 0 + 0 * 0 + 1 * 1 < 2 * 2)
  /\ evaluateIntercept 0 0 1 0 0 (-10) 2 = Some (root1 0 0 1 0 0 (-10) 2).
Proof.
  assert (Hv : 0 <> 0 \/ 0 <> 0 \/ -10 <> 0) by (right; right; lra).
  assert (Hin : 0 * 0 + 0 * 0 + 1 * 1 < 2 * 2) by lra.
  split; [ split; assumption | ].
  exact (proj2 (evaluateIntercept_from_inside 0 0 1 0 0 (-10) 2 Hv Hin)).
Defined.

(** *** The cylinder solver *)



(** *** The draft solver [evaluate] of part_000 *)

(** A time [t] with [m t = b + s], where [s] squares to the discriminant
    of the horizontal quadratic, is at horizontal distance [r]. *)
Lemma horizontal_root (x z vx vz r s t : R) :
  vx * vx + vz * vz <> 0 ->
  s * s = r * r * (vx * vx + vz * vz) - (vx * z - vz * x) * (vx * z - vz * x) ->
  (vx * vx + vz * vz) * t = - vx * x - vz * z + s ->
  radius_sq_at x z vx vz t = r * r.
Proof.
  intros Hm Hs Ht. unfold radius_sq_at.
  set (m := vx * vx + vz * vz) in *.
  assert (Hz : m * ((x + vx * t) * (x + vx * t) + (z + vz * t) * (z + vz * t) - r * r) = 0).
  { unfold m in *. nra. }
  apply Rmult_integral in Hz. destruct Hz; lra.
Qed.

Lemma evaluate_side_Some (x y z vx vy vz ay r h t : R) :
  evaluate_side x y z vx vy vz ay r h = Some t ->
  0 < t /\ radius_sq_at x z vx vz t = r * r /\ height_at y vy ay t < h.
Proof.
  unfold evaluate_side, half, sq. to_R.
  set (d := r * r * (vx * vx + vz * vz) - (vx * z - vz * x) * (vx * z - vz * x)).
  set (m := vx * vx + vz * vz).
  cmp 0 d Hd; [ | discriminate ].
  assert (Hss : sqrt d * sqrt d = d) by (apply sqrt_sqrt; lra).
  assert (Hroot : forall s u, s * s = d -> u = (- vx * x - vz * z + s) / m -> 0 < u ->
            radius_sq_at x z vx vz u = r * r).
  { intros s u Hs Hu Hpos.
    destruct (Req_dec m 0) as [Hz | Hnz].
    - rewrite Hz, div_by_zero in Hu. lra.
    - apply (horizontal_root x z vx vz r s u Hnz Hs).
      rewrite Hu. fold m. field. exact Hnz. }
  cmp 0 ((- vx * x - vz * z - sqrt d) / m) H0.
  - match goal with |- (if ltb ?dy h then _ else _) = _ -> _ => cmp dy h Hy end;
      [ | discriminate ].
    intros [= <-]. split; [ exact H0 | ]. split; [ | exact Hy ].
    apply (Hroot (- sqrt d)); [ lra | reflexivity | exact H0 ].
  - cmp 0 ((- vx * x - vz * z + sqrt d) / m) H1; [ | discriminate ].
    match goal with |- (if ltb ?dy h then _ else _) = _ -> _ => cmp dy h Hy end;
      [ | discriminate ].
    intros [= <-]. split; [ exact H1 | ]. split; [ | exact Hy ].
    apply (Hroot (sqrt d)); [ exact Hss | reflexivity | exact H1 ].
Qed.

Lemma evaluate_top_Some (x z vx vy vz ay r h t : R) :
  evaluate_top x z vx vy vz ay r h = Some t ->
  0 < t /\ radius_sq_at x z vx vz t < r * r.
Proof.
  unfold evaluate_top, calculateRadius, half, sq. to_R.
  destruct (ltb 0 (ay * h + 1 / 2 * (vy * vy))); [ | discriminate ].
  set (u := (- vy + sqrt (ay * h + 1 / 2 * (vy * vy))) / ay).
  cmp 0 u H0; [ | discriminate ].
  cmp (sqrt ((x + vx * u) * (x + vx * u) + (z + vz * u) * (z + vz * u))) r Hr;
    [ | discriminate ].
  intros [= <-]. split; [ exact H0 | ]. unfold radius_sq_at. clearbody u.
  set (q := (x + vx * u) * (x + vx * u) + (z + vz * u) * (z + vz * u)) in *.
  assert (Hq : 0 <= q).
  { unfold q. apply Rplus_le_le_0_compat; apply Rle_0_sqr. }
  clearbody q. pose proof (sqrt_pos q) as Hs. rewrite <- (sqrt_sqrt q Hq). nra.
Qed.

(** Whatever the draft [evaluate] returns is a strictly positive time at
    which the horizontal distance from the axis is within the radius. *)
Theorem evaluate_within_radius (x y z vx vy vz ay r h t : R) :
  evaluate x y z vx vy vz ay r h = Some t ->
  0 < t /\ radius_sq_at x z vx vz t <= r * r.
Proof.
  unfold evaluate.
  destruct (evaluate_side x y z vx vy vz ay r h) as [u |] eqn:Hside.
  - intros [= <-]. apply evaluate_side_Some in Hside as (Hpos & Hr & _). split; lra.
  - destruct (evaluate_top x z vx vy vz ay r h) as [u |] eqn:Htop.
    + intros [= <-]. apply evaluate_top_Some in Htop as (Hpos & Hr). split; lra.
    + destruct (ltb _ _); discriminate.
Qed.

(** x = -20, y = 0, z = 0, v = (1, 0, 0), ay = -2, R = 10, H = 4: the
    side is reached at t = 10, where the height -100 is below H. *)
Lemma evaluate_within_radius_witness :
  evaluate (-20) 0 0 1 0 0 (-2) 10 4 = Some 10
  /\ 0 < 10 /\ radius_sq_at (-20) 0 1 0 10 <= 10 * 10.
Proof.
  assert (Hres : evaluate (-20) 0 0 1 0 0 (-2) 10 4 = Some 10).
  { unfold evaluate, evaluate_side, half, sq. to_R.
    rewrite (sqrt_eq (10 * 10 * (1 * 1 + 0 * 0) - (1 * 0 - 0 * -20) * (1 * 0 - 0 * -20)) 10)
      by lra.
    replace ((- (1) * -20 - 0 * 0 - 10) / (1 * 1 + 0 * 0)) with 10 by lra.
    cmp 0 (10 * 10 * (1 * 1 + 0 * 0) - (1 * 0 - 0 * -20) * (1 * 0 - 0 * -20)) H1; [ | lra ].
    cmp 0 10 H2; [ | lra ].
    cmp (0 + 0 * 10 + 1 / 2 * -2 * (10 * 10)) 4 H3; [ reflexivity | lra ]. }
  split; [ exact Hres | ].
  exact (evaluate_within_radius (-20) 0 0 1 0 0 (-2) 10 4 10 Hres).
Defined.

End SolverMore.

(** ** More on Bin *)

Module BinMore.
Import Bin BinSpec BinFacts.
Section Facts.
Context {F : Type}.

(** After any sequence of [add], [batch] and [destroy] calls on a new Bin,
    [isEmpty()] is true exactly when no handle has been inserted since the
    last [destroy()] (or at all, if there was none). *)
Theorem isEmpty_iff_nothing_waiting (cs : list (Call F)) :
  exists b log,
    calls cs (Bin.new, []) = Some (b, log)
    /\ (isEmpty b = true <-> waiting cs [] = []).
Proof.
  destruct (calls_holds cs Bin.new [] [] holds_new) as (b & log & Hrun & Hh & _).
  exists b, log. split; [ exact Hrun | ]. apply (isEmpty_holds _ _ Hh).
Qed.

End Facts.
End BinMore.

(** ** What each function of the script leaves alone *)

Module FrameFacts.
Import Script FrameSpec.

Lemma Frame_mono {T A : Type} `{Number T} (l1 l2 : list Field) (p : World T -> A) :
  l1 ⊆ l2 -> Frame l2 p -> Frame l1 p.
Proof. intros Hs HF fd Hfd. apply HF, Hs, Hfd. Qed.

(** The write sets, spelled out. *)
Ltac spell :=
  cbv [writes writes_disposal writes_updateActive writes_new_BallComponent
       writes_new_CharacterComponent writes_CharacterComponent_destroy
       writes_onCharacterAdded writes_new_PlayerComponent writes_invoke
       writes_useParry writes_init].

Ltac spell_in HF :=
  cbv [writes writes_disposal writes_updateActive writes_new_BallComponent
       writes_new_CharacterComponent writes_CharacterComponent_destroy
       writes_onCharacterAdded writes_new_PlayerComponent writes_invoke
       writes_useParry writes_init] in HF.

(** Membership of a field in a write set. *)
Ltac member := solve [ repeat constructor ].

(** A field that is not in a write set. *)
Ltac absent Hin :=
  spell_in Hin;
  repeat (apply elem_of_cons in Hin as [Hin | Hin]; [ discriminate | ]);
  apply elem_of_nil in Hin; contradiction.

(** Inclusion of one write set in another. *)
Ltac included :=
  let fd := fresh "fd" in
  let Hfd := fresh "Hfd" in
  spell; intros fd Hfd;
  repeat (apply elem_of_cons in Hfd as [-> | Hfd]);
  first [ member | (apply elem_of_nil in Hfd; contradiction) ].

(** Weakening of the frame at hand. *)
Ltac framed := eapply Frame_mono; [ | eassumption ]; included.

(** A reading that is one field of the world is blind to the others. *)
Ltac blinded :=
  let fd := fresh "fd" in
  let Hfd := fresh "Hfd" in
  intros fd Hfd; destruct fd; try (intros ? ?; reflexivity); absent Hfd.

(** Assignments the frame at hand covers. *)
Ltac assigned HF :=
  spell_in HF;
  repeat first
    [ rewrite (HF F_conns ltac:(member))
    | rewrite (HF F_input ltac:(member))
    | rewrite (HF F_invoked ltac:(member))
    | rewrite (HF F_gravity ltac:(member))
    | rewrite (HF F_balls ltac:(member))
    | rewrite (HF F_BallComponent_actives ltac:(member))
    | rewrite (HF F_BallComponent_active ltac:(member))
    | rewrite (HF F_characters ltac:(member))
    | rewrite (HF F_players ltac:(member))
    | rewrite (HF F_PlayerComponent_active ltac:(member)) ].

Section Facts.
Context {T : Type} `{Number T}.
Implicit Types (w : World T) (g : Generation).

Section Frame.
Context {A : Type} (p : World T -> A).

Lemma frame_foldl {B : Type} (f : World T -> B -> World T) (l : list B) :
  (forall w b, p (f w b) = p w) -> forall w, p (foldl f w l) = p w.
Proof.
  intros Hf. induction l as [| b l IH]; intros w; cbn; [ reflexivity | ].
  rewrite IH. apply Hf.
Qed.

Lemma frame_Connect s h w : Frame [F_conns] p -> p (Connect s h w).2 = p w.
Proof. intros HF. unfold Connect. cbn. now assigned HF. Qed.

Lemma frame_Disconnect c w : Frame [F_conns] p -> p (Disconnect c w) = p w.
Proof. intros HF. unfold Disconnect. now assigned HF. Qed.

Lemma frame_disposal w d : Frame writes_disposal p -> p (disposal w d) = p w.
Proof.
  intros HF. destruct d as [[] | | | |]; cbn; repeat case_match;
    unfold Disconnect; now assigned HF.
Qed.

Lemma frame_disposals ds w : Frame writes_disposal p -> p (foldl disposal w ds) = p w.
Proof. intros HF. apply frame_foldl. intros; now apply frame_disposal. Qed.

Lemma frame_set_ball this f w : Frame [F_balls] p -> p (set_ball this f w) = p w.
Proof. intros HF. unfold set_ball. now assigned HF. Qed.

Lemma frame_updateTarget this w : Frame [F_balls] p -> p (updateTarget this w) = p w.
Proof.
  intros HF. unfold updateTarget. case_match; [ now apply frame_set_ball | reflexivity ].
Qed.

Lemma frame_updateActive g this w :
  Frame (writes_updateActive g) p -> p (updateActive g this w) = p w.
Proof.
  intros HF. unfold updateActive, set_ball.
  destruct g; repeat case_match; now assigned HF.
Qed.

Lemma frame_debounce this w : Frame [F_balls] p -> p (debounce this w) = p w.
Proof. apply frame_set_ball. Qed.

Lemma frame_ball_batch this args w : Frame [F_balls] p -> p (ball_batch this args w) = p w.
Proof. apply frame_set_ball. Qed.

Lemma frame_new_BallComponent g instance w :
  Frame (writes_new_BallComponent g) p -> p (new_BallComponent g instance w).2 = p w.
Proof.
  intros HF. unfold new_BallComponent, Connect.
  destruct g; lazy beta iota zeta; cbn [fst snd].
  - assert (HF' : Frame [F_balls; F_conns; F_BallComponent_actives] p) by exact HF.
    assigned HF'. rewrite !frame_ball_batch by framed. assigned HF'.
    rewrite frame_ball_batch by framed. assigned HF'.
    rewrite frame_updateTarget, (frame_updateActive Gen1) by framed. now assigned HF'.
  - assert (HF' : Frame [F_balls; F_conns; F_BallComponent_active] p) by exact HF.
    rewrite !frame_ball_batch by framed. assigned HF'.
    rewrite frame_ball_batch by framed. assigned HF'.
    rewrite frame_updateTarget, (frame_updateActive Gen2) by framed. now assigned HF'.
Qed.

Lemma frame_BallComponent_destroy this w :
  Frame (F_balls :: writes_disposal) p -> p (BallComponent_destroy this w) = p w.
Proof.
  intros HF. unfold BallComponent_destroy. repeat case_match; try reflexivity.
  rewrite frame_disposals by framed. apply frame_set_ball. framed.
Qed.

Lemma frame_new_CharacterComponent instance w :
  Frame writes_new_CharacterComponent p -> p (new_CharacterComponent instance w).2 = p w.
Proof.
  intros HF. unfold new_CharacterComponent, Connect. repeat case_match; try reflexivity.
  lazy beta iota zeta; cbn [fst snd]. now assigned HF.
Qed.

Lemma frame_CharacterComponent_destroy this w :
  Frame writes_CharacterComponent_destroy p -> p (CharacterComponent_destroy this w) = p w.
Proof.
  intros HF. unfold CharacterComponent_destroy. repeat case_match; try reflexivity.
  rewrite frame_disposals by framed. now assigned HF.
Qed.

Lemma frame_destroy_character_of this w :
  Frame writes_CharacterComponent_destroy p -> p (destroy_character_of this w) = p w.
Proof.
  intros HF. unfold destroy_character_of. case_match;
    [ now apply frame_CharacterComponent_destroy | reflexivity ].
Qed.

Lemma frame_set_character this c w : Frame [F_players] p -> p (set_character this c w) = p w.
Proof. intros HF. unfold set_character. now assigned HF. Qed.

Lemma frame_onCharacterAdded this character w :
  Frame writes_onCharacterAdded p -> p (onCharacterAdded this character w) = p w.
Proof.
  intros HF. unfold onCharacterAdded.
  pose proof (frame_new_CharacterComponent character (destroy_character_of this w)
                ltac:(framed)) as Hn.
  destruct (new_CharacterComponent character (destroy_character_of this w)) as [[c | msg] w'];
    cbn [snd] in Hn; rewrite ?frame_set_character by framed; rewrite Hn;
    apply frame_destroy_character_of; framed.
Qed.

Lemma frame_onCharacterRemoving this w :
  Frame writes_onCharacterAdded p -> p (onCharacterRemoving this w) = p w.
Proof.
  intros HF. unfold onCharacterRemoving. rewrite frame_set_character by framed.
  apply frame_destroy_character_of. framed.
Qed.

Lemma frame_player_batch this args w :
  Frame [F_players] p -> p (player_batch this args w) = p w.
Proof. intros HF. unfold player_batch. now assigned HF. Qed.

Lemma frame_new_PlayerComponent instance w :
  Frame writes_new_PlayerComponent p -> p (new_PlayerComponent instance w).2 = p w.
Proof.
  intros HF. unfold new_PlayerComponent, Connect.
  lazy beta iota zeta; cbn [fst snd].
  assert (HF' : Frame (F_players :: F_characters :: writes_disposal) p) by exact HF.
  assigned HF'. rewrite !frame_player_batch by framed. assigned HF'.
  case_match; [ rewrite frame_onCharacterAdded by framed | ]; now assigned HF'.
Qed.

Lemma frame_PlayerComponent_destroy this w :
  Frame (F_players :: writes_disposal) p -> p (PlayerComponent_destroy this w) = p w.
Proof.
  intros HF. unfold PlayerComponent_destroy. repeat case_match; try reflexivity.
  rewrite frame_disposals by framed. now assigned HF.
Qed.

Lemma frame_onBallAdded g instance w :
  Frame (writes_new_BallComponent g) p -> p (onBallAdded g instance w) = p w.
Proof.
  intros HF. unfold onBallAdded. case_match;
    [ now apply frame_new_BallComponent | reflexivity ].
Qed.

Lemma frame_onBallContainerAdded container w :
  Frame (writes_new_BallComponent Gen2) p -> p (onBallContainerAdded container w) = p w.
Proof.
  intros HF. unfold onBallContainerAdded. rewrite frame_Connect by framed.
  apply frame_foldl. intros; now apply frame_onBallAdded.
Qed.

Lemma frame_invoke callback child w :
  Frame writes_invoke p -> p (invoke callback child w) = p w.
Proof.
  intros HF. unfold invoke. destruct callback.
  rewrite frame_onBallContainerAdded by framed. now assigned HF.
Qed.

Lemma frame_bindToChild parent nm callback w :
  Frame writes_invoke p -> p (bindToChild parent nm callback w) = p w.
Proof.
  intros HF. unfold bindToChild. case_match;
    [ now apply frame_invoke | apply frame_Connect; framed ].
Qed.

Lemma frame_bindToChild_handler connection nm callback child w :
  Frame writes_invoke p -> p (bindToChild_handler connection nm callback child w) = p w.
Proof.
  intros HF. unfold bindToChild_handler. case_match; [ | reflexivity ].
  rewrite frame_invoke by exact HF. apply frame_Disconnect. framed.
Qed.

Lemma frame_useParry ball w : Frame writes_useParry p -> p (useParry ball w) = p w.
Proof.
  intros HF. unfold useParry. rewrite frame_debounce by framed. now assigned HF.
Qed.

Lemma frame_forEach_ball nm origin motion instance ball w :
  Frame writes_useParry p -> p (forEach_ball nm origin motion instance ball w) = p w.
Proof.
  intros HF. unfold forEach_ball. repeat case_match; auto using frame_useParry.
Qed.

Lemma frame_parry_active nm origin motion ball w :
  Frame writes_useParry p -> p (parry_active nm origin motion ball w) = p w.
Proof.
  intros HF. unfold parry_active. repeat case_match; auto using frame_useParry.
Qed.

Lemma frame_heartbeat g player w :
  Frame writes_useParry p -> p (heartbeat g player w) = p w.
Proof.
  intros HF. unfold heartbeat. destruct g; repeat case_match; try reflexivity.
  - apply (map_fold_weak_ind (fun r _ => p r = p w)); [ reflexivity | ].
    intros i x m r _ Hr. rewrite frame_forEach_ball by exact HF. exact Hr.
  - now apply frame_parry_active.
Qed.

Lemma frame_runHandler g h arg w :
  Frame (writes g h) p -> p (runHandler g h arg w) = p w.
Proof.
  intros HF. destruct h, arg; cbn [runHandler writes] in *; try reflexivity.
  all: repeat case_match; try reflexivity.
  all: first
    [ now apply frame_updateActive
    | now apply frame_updateTarget
    | now apply frame_BallComponent_destroy
    | now apply frame_CharacterComponent_destroy
    | now apply frame_onCharacterAdded
    | now apply frame_onCharacterRemoving
    | now apply frame_onBallAdded
    | now apply (frame_new_PlayerComponent)
    | now apply frame_PlayerComponent_destroy
    | now apply frame_bindToChild_handler
    | now apply frame_heartbeat
    | now assigned HF ].
Qed.

(** A handler changes nothing outside its write set: a reading that
    looks at none of the fields in [writes g h] has the same value before
    and after the handler has run. *)
Theorem handler_writes g h arg w :
  Frame (writes g h) p -> p (runHandler g h arg w) = p w.
Proof. apply frame_runHandler. Qed.

Lemma frame_ComponentController_init g w :
  Frame writes_init p -> p (ComponentController_init g w).2 = p w.
Proof.
  intros HF. unfold ComponentController_init. destruct g.
  - destruct (WaitForChild (Workspace w) "Balls" w) as [folder |]; [ | reflexivity ].
    cbn [snd]. rewrite !frame_Connect by framed.
    rewrite frame_foldl by (intros; apply frame_new_PlayerComponent; framed).
    rewrite frame_Connect by framed.
    apply frame_foldl. intros; apply frame_onBallAdded. framed.
  - cbn [snd]. rewrite !frame_Connect by framed.
    rewrite frame_foldl by (intros; apply frame_new_PlayerComponent; framed).
    apply frame_bindToChild. framed.
Qed.

(** The module body changes nothing outside [_G] and its write set. *)
Lemma frame_main g w :
  Frame writes_init p -> (forall v w', p (set_G v w') = p w') -> p (main g w).2 = p w.
Proof.
  intros HF HG. unfold main. case_match; [ reflexivity | ].
  set (w1 := match g with Gen1 => _ | Gen2 => _ end).
  assert (H1 : p w1 = p w).
  { unfold w1. destruct g; [ apply HG | ]. assigned HF. apply HG. }
  clearbody w1.
  pose proof (frame_ComponentController_init g w1 HF) as Hc.
  destruct (ComponentController_init g w1) as [[[] | msg] w2]; cbn [snd] in *;
    [ | congruence ].
  unfold ParryController_init. rewrite frame_Connect by framed.
  destruct g; [ congruence | ].
  unfold VariableController_init. rewrite frame_Connect by framed. assigned HF. congruence.
Qed.

End Frame.
End Facts.
End FrameFacts.

(** ** Components and their registries *)

Module ComponentMore.
Import Script ScriptSpec ScriptFacts SoundFacts LifecycleFacts BallFacts.
Import FrameSpec FrameFacts ComponentSpec.
Section Facts.
Context {T : Type} `{Number T}.
Implicit Types (w : World T) (g : Generation).

Lemma GetAttribute_inst i attr w w' :
  inst w' = inst w -> GetAttribute i attr w' = GetAttribute i attr w.
Proof. intros Hi. unfold GetAttribute. now rewrite Hi. Qed.

Lemma updateActive_balls g (l : list BallComponent) b w :
  balls w = l ++ [b] ->
  balls (updateActive g (length l) w)
  = l ++ [ {| ball_instance := ball_instance b; ball_bin := ball_bin b;
              active := bool_decide (GetAttribute (ball_instance b) "realBall" w
                                     = Some (AttrBool true));
              target := target b; isHit := false |} ].
Proof.
  intros Hb. unfold updateActive. rewrite Hb, lookup_last. unfold set_ball.
  destruct g; repeat case_match; cbn; now rewrite Hb, alter_last.
Qed.

(** What the BallComponent constructor makes: the component, with its
    fields read from the attributes and four items in its bin, and three
    connections. *)
Lemma new_BallComponent_made g instance w :
  let this := length (balls w) in
  let k := length (conns w) in
  let f := match g with Gen1 => unregisterBall instance | Gen2 => releaseBall this end in
  let w' := (new_BallComponent g instance w).2 in
  balls w'
  = balls w ++
    [ {| ball_instance := instance;
         ball_bin := Bin.batch [Bin.Function f; Bin.Connection (S (S k))]
                       (Bin.batch [Bin.Connection k; Bin.Connection (S k)] Bin.new);
         active := bool_decide (GetAttribute instance "realBall" w = Some (AttrBool true));
         target := GetAttribute instance "target" w;
         isHit := false |} ]
  /\ conns w' = conns w ++ ball_connections instance this.
Proof.
  intros this k f w'. subst f. unfold w', new_BallComponent. fold this.
  set (b0 := {| ball_instance := instance; ball_bin := Bin.new; active := false;
                target := Some (AttrString ""); isHit := false |}).
  set (w0 := set_balls (balls w ++ [b0]) w).
  pose proof (updateActive_balls g (balls w) b0 w0 eq_refl) as HbA. fold this in HbA.
  assert (HcA : conns (updateActive g this w0) = conns w)
    by (rewrite frame_updateActive by (destruct g; blinded); reflexivity).
  assert (HiA : inst (updateActive g this w0) = inst w)
    by (rewrite frame_updateActive by (destruct g; blinded); reflexivity).
  set (wA := updateActive g this w0) in *.
  destruct (updateTarget_last (balls w) _ wA HbA) as (HbT & HcT & HiT & _).
  fold this in HbT, HcT, HiT. set (wT := updateTarget this wA) in *.
  cbn [ball_instance b0] in HbT.
  rewrite (GetAttribute_inst instance "target" w wA HiA) in HbT.
  change (GetAttribute instance "realBall" w0) with (GetAttribute instance "realBall" w) in HbT.
  unfold Connect. lazy beta iota zeta.
  set (f := match g with Gen1 => unregisterBall instance | Gen2 => releaseBall this end).
  set (w1 := set_conns (conns wT ++ [_]) wT).
  set (w2 := set_conns (conns w1 ++ [_]) w1).
  destruct (ball_batch_last (balls w) _
              [Bin.Connection (length (conns wT)); Bin.Connection (length (conns w1))]
              w2 HbT) as (Hb3 & Hc3 & _).
  fold this in Hb3, Hc3. set (w3 := ball_batch this _ w2) in *.
  set (w4 := set_conns (conns w3 ++ [_]) w3).
  destruct (ball_batch_last (balls w) _
              [Bin.Function f; Bin.Connection (length (conns w3))]
              w4 Hb3) as (Hb5 & Hc5 & _).
  fold this in Hb5, Hc5.
  assert (HcT' : conns wT = conns w) by (rewrite HcT, HcA; reflexivity).
  assert (Hc1 : conns w1 = conns w ++ [ {| signal := AttributeChanged instance "realBall";
                                           handler := H_updateActive this;
                                           Connected := true |} ]).
  { unfold w1. cbn [conns set_conns]. rewrite HcT'. reflexivity. }
  assert (Hc2 : conns w2 = conns w1 ++ [ {| signal := AttributeChanged instance "target";
                                            handler := H_updateTarget this;
                                            Connected := true |} ]) by reflexivity.
  assert (Hc4 : conns w4 = conns w3 ++ [ {| signal := Destroying instance;
                                            handler := H_destroyBall this;
                                            Connected := true |} ]) by reflexivity.
  assert (Hk1 : length (conns w1) = S k).
  { rewrite Hc1, length_app. cbn. unfold k. lia. }
  assert (Hk3 : length (conns w3) = S (S k)).
  { rewrite Hc3, Hc2, length_app, Hk1. cbn. lia. }
  set (w5 := ball_batch this [Bin.Function f; Bin.Connection (length (conns w3))] w4) in *.
  clearbody w5 w4 w3 w2 w1 wT wA.
  assert (HB : balls w5
               = balls w ++
                 [ {| ball_instance := instance;
                      ball_bin := Bin.batch [Bin.Function f; Bin.Connection (S (S k))]
                                    (Bin.batch [Bin.Connection k; Bin.Connection (S k)]
                                       Bin.new);
                      active := bool_decide (GetAttribute instance "realBall" w
                                             = Some (AttrBool true));
                      target := GetAttribute instance "target" w;
                      isHit := false |} ]).
  { rewrite Hb5. cbn. rewrite HcT', Hk1, Hk3. reflexivity. }
  assert (HC : conns w5 = conns w ++ ball_connections instance this).
  { rewrite Hc5, Hc4, Hc3, Hc2, Hc1. rewrite <- !app_assoc. reflexivity. }
  destruct g; split; first [ exact HB | exact HC ].
Qed.

Lemma alter_app_at {A : Type} (f : A -> A) (l l' : list A) (i : nat) :
  alter f (i + length l) (l ++ l') = l ++ alter f i l'.
Proof. rewrite Nat.add_comm. apply alter_app_r. Qed.

Lemma Disconnect_conns c w : conns (Disconnect c w) = alter off c (conns w).
Proof. reflexivity. Qed.

(** [destroy()] on the component just constructed: its bin is walked, the
    three connections are disconnected and its closure is called. *)
Lemma fresh_ball_destroy g instance w :
  let this := length (balls w) in
  let k := length (conns w) in
  let f := match g with Gen1 => unregisterBall instance | Gen2 => releaseBall this end in
  let w1 := (new_BallComponent g instance w).2 in
  exists bin',
    Bin.isEmpty bin' = true
    /\ BallComponent_destroy this w1
       = Disconnect (S (S k))
           (callClosure f
              (Disconnect (S k)
                 (Disconnect k
                    (set_ball this
                       (fun b => {| ball_instance := ball_instance b; ball_bin := bin';
                                    active := active b; target := target b;
                                    isHit := isHit b |}) w1)))).
Proof.
  intros this k f w1. subst this.
  destruct (new_BallComponent_made g instance w) as [HB _]. fold k f w1 in HB.
  unfold BallComponent_destroy. rewrite HB, lookup_last. cbn [ball_bin].
  eexists. split; [ | reflexivity ]. reflexivity.
Qed.

(** part_000.  Constructing a BallComponent registers it under its
    instance and makes three connections; [destroy()] on it removes the
    entry of that instance, disconnects the three connections and leaves
    the component destroyed. *)
Theorem ball_registry_round_trip instance w :
  let this := length (balls w) in
  let w1 := (new_BallComponent Gen1 instance w).2 in
  let w2 := BallComponent_destroy this w1 in
  (BallComponent_actives w1 = <[instance := this]> (BallComponent_actives w)
   /\ conns w1 = conns w ++ ball_connections instance this
   /\ BallComponent_live this w1 = true)
  /\ (BallComponent_actives w2 = delete instance (BallComponent_actives w)
      /\ conns w2 = conns w ++ (off <$> ball_connections instance this)
      /\ BallComponent_live this w2 = false).
Proof.
  intros this w1 w2. subst this.
  destruct (new_BallComponent_made Gen1 instance w) as [HB HC]. fold w1 in HB, HC.
  assert (HA : BallComponent_actives w1
               = <[instance := length (balls w)]> (BallComponent_actives w)).
  { unfold w1, new_BallComponent, Connect. lazy beta iota zeta. cbn [fst snd].
    cbn [BallComponent_actives set_BallComponent_actives]. f_equal.
    rewrite !frame_ball_batch by blinded. cbn [BallComponent_actives set_conns].
    rewrite frame_ball_batch by blinded. cbn [BallComponent_actives set_conns].
    rewrite frame_updateTarget, (frame_updateActive _ Gen1) by blinded. reflexivity. }
  split; [ split; [ exact HA | split; [ exact HC | ] ] | ].
  { unfold BallComponent_live. rewrite HB, lookup_last. reflexivity. }
  destruct (fresh_ball_destroy Gen1 instance w) as (bin' & Hempty & Hd).
  fold w1 w2 in Hd. cbn [callClosure] in Hd. clearbody w2 w1. subst w2.
  split; [ | split ].
  - cbn. rewrite HA. apply delete_insert_eq.
  - rewrite !Disconnect_conns.
    cbn [callClosure conns set_BallComponent_actives].
    rewrite !Disconnect_conns. cbn [set_ball conns set_balls]. rewrite HC.
    change (S (S (length (conns w)))) with (2 + length (conns w)).
    change (S (length (conns w))) with (1 + length (conns w)).
    change (length (conns w)) with (0 + length (conns w)) at 3.
    rewrite !alter_app_at. reflexivity.
  - unfold BallComponent_live. cbn. rewrite HB, alter_last, lookup_last.
    cbn. now rewrite Hempty.
Qed.

(** part_001.  Constructing a BallComponent for an instance whose
    realBall attribute is [true] makes it [BallComponent.active], and
    [destroy()] on it clears [BallComponent.active]; for any other instance
    both leave [BallComponent.active] as it was.  Either way [destroy()]
    disconnects the three connections and leaves the component destroyed. *)
Theorem active_ball_round_trip instance w :
  (forall b, BallComponent_active w = Some b -> b < length (balls w)) ->
  let this := length (balls w) in
  let real := bool_decide (GetAttribute instance "realBall" w = Some (AttrBool true)) in
  let w1 := (new_BallComponent Gen2 instance w).2 in
  let w2 := BallComponent_destroy this w1 in
  BallComponent_active w1 = (if real then Some this else BallComponent_active w)
  /\ BallComponent_active w2 = (if real then None else BallComponent_active w)
  /\ conns w2 = conns w ++ (off <$> ball_connections instance this)
  /\ BallComponent_live this w2 = false.
Proof.
  intros Hold this real w1 w2. subst this.
  destruct (new_BallComponent_made Gen2 instance w) as [HB HC]. fold w1 in HB, HC.
  destruct (new_BallComponent_Gen2_fields instance w) as (_ & _ & HA).
  cbv zeta in HA. fold w1 real in HA.
  assert (Hfresh : BallComponent_active w <> Some (length (balls w))).
  { intros Ha. specialize (Hold _ Ha). lia. }
  rewrite (bool_decide_eq_false_2 _ Hfresh) in HA.
  destruct (fresh_ball_destroy Gen2 instance w) as (bin' & Hempty & Hd).
  fold w1 w2 in Hd. clearbody w2 w1. subst w2.
  split; [ exact HA | ]. split; [ | split ].
  - match goal with
    | |- BallComponent_active (Disconnect _ (callClosure _ ?x)) = _ =>
        assert (Hx : BallComponent_active x = BallComponent_active w1) by reflexivity;
        change (BallComponent_active (callClosure (releaseBall (length (balls w))) x)
                = (if real then None else BallComponent_active w));
        cbn [callClosure]; rewrite Hx, HA; clear Hx;
        destruct real;
          [ rewrite bool_decide_eq_true_2 by reflexivity; reflexivity
          | rewrite (bool_decide_eq_false_2 _ Hfresh); exact HA ]
    end.
  - rewrite Disconnect_conns.
    assert (Hc : forall x : World T, conns (callClosure (releaseBall (length (balls w))) x) = conns x)
      by (intros x; cbn [callClosure]; destruct (bool_decide (BallComponent_active x = _)); reflexivity).
    rewrite Hc, !Disconnect_conns. cbn [set_ball conns set_balls]. rewrite HC.
    change (S (S (length (conns w)))) with (2 + length (conns w)).
    change (S (length (conns w))) with (1 + length (conns w)).
    change (length (conns w)) with (0 + length (conns w)) at 3.
    rewrite !alter_app_at. reflexivity.
  - unfold BallComponent_live.
    assert (Hb : forall x : World T, balls (callClosure (releaseBall (length (balls w))) x) = balls x)
      by (intros x; cbn [callClosure]; destruct (bool_decide (BallComponent_active x = _)); reflexivity).
    cbn [Disconnect balls set_conns]. rewrite Hb. cbn. rewrite HB, alter_last, lookup_last.
    cbn. now rewrite Hempty.
Qed.

(** *** Players *)

(** [onCharacterAdded] on a player that holds no character. *)
Lemma onCharacterAdded_first this character w :
  getCharacter this w = None ->
  onCharacterAdded this character w
  = match new_CharacterComponent character w with
    | (Ok c, w') => set_character this (Some c) w'
    | (Throw _, w') => w'
    end.
Proof.
  intros Hnone. unfold onCharacterAdded, destroy_character_of. now rewrite Hnone.
Qed.

(** What the PlayerComponent constructor makes. *)
Lemma new_PlayerComponent_made instance w :
  let this := length (players w) in
  let w1 := (new_PlayerComponent instance w).2 in
  exists cs held,
    players w1
    = players w ++
      [ {| player_instance := instance;
           player_bin := Bin.batch [Bin.Function (unregisterPlayer instance)]
                           (Bin.batch [Bin.Connection (length cs);
                                       Bin.Connection (S (length cs))] Bin.new);
           name := Name (inst w instance);
           character := held |} ]
    /\ conns w1 = cs ++ player_connections instance this
    /\ PlayerComponent_active w1 = <[instance := this]> (PlayerComponent_active w).
Proof.
  intros this w1. subst this. unfold w1, new_PlayerComponent.
  set (p0 := {| player_instance := instance; player_bin := Bin.new;
                name := Name (inst w instance); character := None |}).
  set (w0 := set_players (players w ++ [p0]) w).
  set (wc := match Character (inst w0 instance) with
             | Some model => onCharacterAdded (length (players w)) model w0
             | None => w0
             end).
  assert (Hwc : (exists held,
                   players wc
                   = players w ++ [ {| player_instance := instance; player_bin := Bin.new;
                                       name := Name (inst w instance);
                                       character := held |} ])
                /\ PlayerComponent_active wc = PlayerComponent_active w).
  { unfold wc. destruct (Character (inst w0 instance)) as [model |];
      [ | split; [ exists None; reflexivity | reflexivity ] ].
    rewrite onCharacterAdded_first
      by (unfold getCharacter, w0; cbn; now rewrite lookup_last).
    pose proof (frame_new_CharacterComponent (@players T) model w0 ltac:(blinded)) as Hp.
    pose proof (frame_new_CharacterComponent (@PlayerComponent_active T) model w0
                  ltac:(blinded)) as Ha.
    destruct (new_CharacterComponent model w0) as [[c | msg] w']; cbn [snd] in Hp, Ha.
    - split; [ | exact Ha ]. exists (Some c).
      unfold set_character. cbn. rewrite Hp. unfold w0. cbn.
      now rewrite alter_last.
    - split; [ exists None; exact Hp | exact Ha ]. }
  destruct Hwc as [[held Hplayers] Hactive]. clearbody wc.
  exists (conns wc), held.
  unfold Connect, player_batch. lazy beta iota zeta. cbn [fst snd].
  cbn [players conns PlayerComponent_active set_PlayerComponent_active set_players
       set_conns].
  rewrite Hplayers, Hactive, !alter_last, length_app. cbn [length].
  replace (length (conns wc) + 1) with (S (length (conns wc))) by lia.
  rewrite <- app_assoc. split; [ reflexivity | ]. split; reflexivity.
Qed.

(** Constructing a PlayerComponent registers it under its instance;
    [destroy()] on it removes that entry and disconnects its two
    connections.  It does not destroy the CharacterComponent the player
    holds: the characters, and every other connection, are as before. *)
Theorem player_registry_round_trip instance w :
  let this := length (players w) in
  let w1 := (new_PlayerComponent instance w).2 in
  let w2 := PlayerComponent_destroy this w1 in
  PlayerComponent_active w1 = <[instance := this]> (PlayerComponent_active w)
  /\ PlayerComponent_active w2 = delete instance (PlayerComponent_active w)
  /\ characters w2 = characters w1
  /\ getCharacter this w2 = getCharacter this w1
  /\ exists cs,
       conns w1 = cs ++ player_connections instance this
       /\ conns w2 = cs ++ (off <$> player_connections instance this).
Proof.
  intros this w1 w2. subst this.
  destruct (new_PlayerComponent_made instance w) as (cs & held & HP & HC & HA).
  fold w1 in HP, HC, HA.
  assert (Hd : exists bin',
            w2 = callClosure (unregisterPlayer instance)
                   (Disconnect (S (length cs))
                      (Disconnect (length cs)
                         (set_players
                            (alter (fun p => {| player_instance := player_instance p;
                                                player_bin := bin';
                                                name := name p;
                                                character := character p |})
                               (length (players w)) (players w1)) w1)))).
  { unfold w2, PlayerComponent_destroy. rewrite HP, lookup_last. cbn [player_bin].
    eexists. reflexivity. }
  destruct Hd as [bin' Hd]. clearbody w2 w1. subst w2.
  split; [ exact HA | ]. split; [ | split; [ reflexivity | split ] ].
  - cbn. rewrite HA. apply delete_insert_eq.
  - unfold getCharacter. cbn. rewrite HP, alter_last, !lookup_last. reflexivity.
  - exists cs. split; [ exact HC | ].
    cbn [callClosure conns set_PlayerComponent_active]. rewrite !Disconnect_conns.
    cbn [conns set_players]. rewrite HC.
    change (S (length cs)) with (1 + length cs).
    change (length cs) with (0 + length cs) at 2.
    rewrite !alter_app_at. reflexivity.
Qed.

(** *** The ball container *)

Lemma onBallAdded_instances g i w :
  ball_instance <$> balls (onBallAdded g i w)
  = (ball_instance <$> balls w) ++ (if IsA_Part (inst w i) then [i] else []).
Proof.
  unfold onBallAdded. destruct (IsA_Part (inst w i)); [ | now rewrite app_nil_r ].
  destruct (new_BallComponent_made g i w) as [HB _]. rewrite HB, fmap_app. reflexivity.
Qed.

Lemma onBallAdded_fold g (l : list nat) : forall w,
  ball_instance <$> balls (foldl (fun w i => onBallAdded g i w) w l)
  = (ball_instance <$> balls w) ++ filter (fun i => IsA_Part (inst w i) = true) l.
Proof.
  induction l as [| i l IH]; intros w; cbn [foldl].
  - now rewrite app_nil_r.
  - rewrite IH, onBallAdded_instances, filter_cons.
    rewrite (untouched_onBallAdded (@inst T)).
    destruct (IsA_Part (inst w i)) eqn:Hi.
    + rewrite decide_True by reflexivity. now rewrite <- app_assoc.
    + rewrite decide_False by discriminate. now rewrite app_nil_r.
Qed.

(** The container callback constructs one BallComponent for each child
    of the container that is a Part, in the order of the children, and
    none for the others; then it listens for further children. *)
Theorem onBallContainerAdded_tracks_parts container w :
  let w' := onBallContainerAdded container w in
  ball_instance <$> balls w'
  = (ball_instance <$> balls w)
    ++ filter (fun i => IsA_Part (inst w i) = true) (Children (inst w container))
  /\ last (conns w')
     = Some {| signal := ChildAdded container; handler := H_onBallAdded;
               Connected := true |}.
Proof.
  intros w'. unfold w', onBallContainerAdded, Connect. cbn [snd]. split.
  - cbn [balls set_conns]. apply onBallAdded_fold.
  - cbn [conns set_conns]. apply last_snoc.
Qed.

(** *** A character model without its parts *)


End Facts.
End ComponentMore.

(** ** The keys the script presses *)

Module KeyFacts.
Import Script FrameSpec FrameFacts.
Section Facts.
Context {T : Type} `{Number T}.
Implicit Types (w : World T) (g : Generation).

Lemma taps_add (n m : nat) : taps (n + m) = taps n ++ taps m.
Proof. unfold taps. now rewrite replicate_add, concat_app. Qed.

Lemma tapped_refl w : tapped w w.
Proof. exists 0. cbn. now rewrite app_nil_r. Qed.

Lemma tapped_trans w1 w2 w3 : tapped w1 w2 -> tapped w2 w3 -> tapped w1 w3.
Proof.
  intros [n Hn] [m Hm]. exists (n + m). now rewrite Hm, Hn, taps_add, app_assoc.
Qed.

Lemma tapped_same w w' : input w' = input w -> tapped w w'.
Proof. intros Hi. exists 0. cbn. now rewrite app_nil_r. Qed.

Lemma tapped_foldl {B : Type} (f : World T -> B -> World T) (l : list B) :
  (forall w x, tapped w (f w x)) -> forall w, tapped w (foldl f w l).
Proof.
  intros Hf. induction l as [| x l IH]; intros w; cbn; [ apply tapped_refl | ].
  eapply tapped_trans; [ apply Hf | apply IH ].
Qed.

(** The key log is blind to every field but itself. *)
Lemma input_frame (l : list Field) : F_input ∉ l -> Frame l (@input T).
Proof.
  intros Hnot fd Hfd. destruct fd; try (intros v w; reflexivity).
  contradiction.
Qed.

Lemma useParry_input ball w :
  input (useParry ball w) = input w ++ [keypress 70; keyrelease 70].
Proof. unfold useParry, debounce, set_ball. cbn. now rewrite <- app_assoc. Qed.

Lemma tapped_useParry ball w : tapped w (useParry ball w).
Proof. exists 1. rewrite useParry_input. reflexivity. Qed.

Lemma tapped_forEach_ball nm origin motion instance ball w :
  tapped w (forEach_ball nm origin motion instance ball w).
Proof.
  unfold forEach_ball. repeat case_match; auto using tapped_refl, tapped_useParry.
Qed.

Lemma tapped_parry_active nm origin motion ball w :
  tapped w (parry_active nm origin motion ball w).
Proof.
  unfold parry_active. repeat case_match; auto using tapped_refl, tapped_useParry.
Qed.

Lemma tapped_heartbeat g player w : tapped w (heartbeat g player w).
Proof.
  unfold heartbeat. destruct g; repeat case_match; try apply tapped_refl.
  - apply (map_fold_weak_ind (fun r _ => tapped w r)); [ apply tapped_refl | ].
    intros i x m r _ Hr. eapply tapped_trans; [ exact Hr | apply tapped_forEach_ball ].
  - apply tapped_parry_active.
Qed.

(** Every handler but the Heartbeat one leaves the key log as it is. *)
Lemma other_handlers_input g h arg w :
  (forall player, h <> H_heartbeat player) ->
  input (runHandler g h arg w) = input w.
Proof.
  intros Hh. apply frame_runHandler. apply input_frame.
  destruct h, g; cbn; try (intros Hin; repeat (apply elem_of_cons in Hin as [Hin | Hin];
    [ discriminate | ]); now apply elem_of_nil in Hin).
  all: exfalso; eapply Hh; reflexivity.
Qed.

Lemma tapped_runHandler g h arg w : tapped w (runHandler g h arg w).
Proof.
  destruct h; try (apply tapped_same, other_handlers_input; discriminate).
  destruct arg; cbn [runHandler]; apply tapped_heartbeat.
Qed.

Lemma tapped_fire g s arg w : tapped w (fire (runHandler g) s arg w).
Proof.
  unfold fire. apply tapped_foldl. intros w' c.
  repeat case_match; auto using tapped_refl, tapped_runHandler.
Qed.

Lemma tapped_step g e w : tapped w (step g e w).
Proof.
  destruct e; cbn [step]; try (apply tapped_same; reflexivity);
    try apply tapped_fire.
  all: match goal with
       | |- tapped ?w0 (fire _ _ _ ?w1) =>
           apply (tapped_trans w0 w1); [ apply tapped_same; reflexivity | apply tapped_fire ]
       | |- tapped ?w0 (?f (fire _ ?s ?a ?w0)) =>
           apply (tapped_trans w0 (fire (runHandler g) s a w0));
             [ apply tapped_fire | apply tapped_same; reflexivity ]
       end.
Qed.

Lemma tapped_steps g es w : tapped w (steps g es w).
Proof. apply tapped_foldl. intros w' e. apply tapped_step. Qed.

Lemma main_input g w : input (main g w).2 = input w.
Proof.
  apply frame_main; [ | reflexivity ]. apply input_frame.
  cbv [writes_init writes_new_PlayerComponent writes_disposal].
  intros Hin. repeat (apply elem_of_cons in Hin as [Hin | Hin]; [ discriminate | ]).
  now apply elem_of_nil in Hin.
Qed.

(** The only key events the script ever issues are taps of F (a press
    followed at once by its release), and no handler but the Heartbeat
    one issues any. *)
Theorem keys_are_taps g es w :
  (exists n, input (steps g es (main g w).2) = input w ++ taps n)
  /\ (forall h arg w',
        (forall player, h <> H_heartbeat player) ->
        input (runHandler g h arg w') = input w').
Proof.
  split; [ | intros h arg w'; apply other_handlers_input ].
  destruct (tapped_steps g es (main g w).2) as [n Hn]. exists n.
  now rewrite Hn, main_input.
Qed.

End Facts.
End KeyFacts.

(** ** The Heartbeat handler *)

Module ParryMore.
Import Script ScriptSpec FrameSpec KeyFacts.
Section Facts.
Context {T : Type} `{Number T}.
Implicit Types (w : World T) (g : Generation).

Lemma parry_active_cases nm origin motion ball w :
  parry_active nm origin motion ball w = w
  \/ exists b, balls w !! ball = Some b
               /\ parry_active nm origin motion ball w = useParry ball w.
Proof.
  unfold parry_active. destruct (balls w !! ball) as [b |]; [ | now left ].
  repeat case_match; eauto.
Qed.

(** A ball that has just been parried is debounced: the decision on it
    changes nothing. *)
Lemma parry_active_debounced nm origin motion ball b w :
  balls w !! ball = Some b ->
  parry_active nm origin motion ball (useParry ball w) = useParry ball w.
Proof.
  intros Hb. unfold parry_active at 1.
  assert (Hl : balls (useParry ball w) !! ball
               = Some {| ball_instance := ball_instance b; ball_bin := ball_bin b;
                         active := active b; target := target b; isHit := true |}).
  { unfold useParry, debounce, set_ball. cbn. now rewrite list_lookup_alter_eq, Hb. }
  rewrite Hl. reflexivity.
Qed.

(** part_001.  Running the Heartbeat handler a second time, with nothing
    happening in between, changes nothing: the ball it parried is
    debounced.  One run issues no key event or exactly one tap of F. *)
Lemma heartbeat_active_once player w :
  let w' := heartbeat Gen2 player w in
  heartbeat Gen2 player w' = w'
  /\ (input w' = input w \/ input w' = input w ++ [keypress 70; keyrelease 70]).
Proof.
  intros w'. unfold w', heartbeat.
  destruct player as [p |]; [ | auto ].
  destruct (players w !! p) as [pc |] eqn:Hp; [ | rewrite Hp; auto ].
  destruct (BallComponent_active w) as [ball |] eqn:Ha; [ | rewrite Hp, Ha; auto ].
  destruct (character pc) as [c |] eqn:Hc; [ | rewrite Hp, Ha, Hc; auto ].
  destruct (characters w !! c) as [cc |] eqn:Hcc; [ | rewrite Hp, Ha, Hc, Hcc; auto ].
  set (origin := Position (inst w (root cc))).
  set (motion := Vector3_mul (AssemblyLinearVelocity (inst w (root cc))) Vector2D).
  destruct (parry_active_cases (name pc) origin motion ball w) as [Heq | (b & Hb & Heq)];
    rewrite Heq.
  - rewrite Hp, Ha, Hc, Hcc. fold origin motion. rewrite Heq. auto.
  - split; [ | right; apply useParry_input ].
    change (players (useParry ball w)) with (players w).
    change (BallComponent_active (useParry ball w)) with (BallComponent_active w).
    rewrite Hp, Ha, Hc.
    change (characters (useParry ball w)) with (characters w). rewrite Hcc.
    change (inst (useParry ball w)) with (inst w). fold origin motion.
    now apply (parry_active_debounced _ _ _ _ b).
Qed.

(** *** The registry of part_000 *)

Lemma useParry_changes ball w : useParry ball w <> w.
Proof.
  intros Heq. apply (f_equal (fun x => length (input x))) in Heq.
  rewrite useParry_input, length_app in Heq. cbn in Heq. lia.
Qed.

Lemma forEach_ball_cases nm origin motion instance ball w :
  forEach_ball nm origin motion instance ball w = w
  \/ exists b, balls w !! ball = Some b
               /\ forEach_ball nm origin motion instance ball w = useParry ball w.
Proof.
  unfold forEach_ball. destruct (balls w !! ball) as [b |]; [ | now left ].
  repeat case_match; eauto.
Qed.

Lemma forEach_ball_debounced nm origin motion instance ball b w :
  balls w !! ball = Some b ->
  forEach_ball nm origin motion instance ball (useParry ball w) = useParry ball w.
Proof.
  intros Hb. unfold forEach_ball at 1.
  assert (Hl : balls (useParry ball w) !! ball
               = Some {| ball_instance := ball_instance b; ball_bin := ball_bin b;
                         active := active b; target := target b; isHit := true |}).
  { unfold useParry, debounce, set_ball. cbn. now rewrite list_lookup_alter_eq, Hb. }
  rewrite Hl. reflexivity.
Qed.

(** A ball on which the decision is to do nothing stays so when another
    ball is parried. *)
Lemma forEach_ball_settled nm origin motion instance ball other b w :
  balls w !! other = Some b ->
  forEach_ball nm origin motion instance ball w = w ->
  forEach_ball nm origin motion instance ball (useParry other w) = useParry other w.
Proof.
  intros Hother Hsettled.
  destruct (decide (ball = other)) as [-> | Hne];
    [ now apply (forEach_ball_debounced _ _ _ _ _ b) | ].
  revert Hsettled. unfold forEach_ball.
  assert (Hl : balls (useParry other w) !! ball = balls w !! ball).
  { unfold useParry, debounce, set_ball. cbn. apply list_lookup_alter_ne. congruence. }
  rewrite Hl. change (inst (useParry other w)) with (inst w).
  destruct (balls w !! ball) as [b0 |]; [ | reflexivity ].
  repeat case_match; intros Hx; try reflexivity; exfalso; exact (useParry_changes _ _ Hx).
Qed.

(** Folding the decision over a list of registry entries leaves every
    entry settled. *)
Lemma forEach_settles nm origin motion (l : list (nat * nat)) w :
  let F := uncurry (forEach_ball nm origin motion) in
  forall e, e ∈ l -> F e (foldr F w l) = foldr F w l.
Proof.
  intros F. induction l as [| [i ball] l IH]; intros e He; [ now apply elem_of_nil in He | ].
  cbn [foldr]. set (w0 := foldr F w l) in *.
  destruct (forEach_ball_cases nm origin motion i ball w0) as [Heq | (b & Hb & Heq)].
  - change (F (i, ball) w0) with (forEach_ball nm origin motion i ball w0). rewrite Heq.
    apply elem_of_cons in He as [-> | He]; [ exact Heq | now apply IH ].
  - change (F (i, ball) w0) with (forEach_ball nm origin motion i ball w0). rewrite Heq.
    apply elem_of_cons in He as [-> | He].
    + now apply (forEach_ball_debounced _ _ _ _ _ b).
    + destruct e as [i' ball']. apply (forEach_ball_settled _ _ _ _ _ _ b _ Hb).
      exact (IH _ He).
Qed.

Lemma forEach_again nm origin motion (l : list (nat * nat)) w :
  let F := uncurry (forEach_ball nm origin motion) in
  (forall e, e ∈ l -> F e w = w) -> foldr F w l = w.
Proof.
  intros F. induction l as [| e l IH]; intros Hl; [ reflexivity | ].
  cbn [foldr]. rewrite IH by (intros e' He'; apply Hl; now right).
  apply Hl. now left.
Qed.

(** part_000.  Running the Heartbeat handler a second time, with nothing
    happening in between, changes nothing: every ball it parried is
    debounced, and the others are decided as before. *)
Lemma heartbeat_registry_once player w :
  heartbeat Gen1 player (heartbeat Gen1 player w) = heartbeat Gen1 player w.
Proof.
  unfold heartbeat at 2 3.
  destruct player as [p |]; [ | reflexivity ].
  destruct (players w !! p) as [pc |] eqn:Hp; [ | unfold heartbeat; now rewrite Hp ].
  destruct (character pc) as [c |] eqn:Hc; [ | unfold heartbeat; now rewrite Hp, Hc ].
  destruct (characters w !! c) as [cc |] eqn:Hcc;
    [ | unfold heartbeat; now rewrite Hp, Hc, Hcc ].
  set (origin := Position (inst w (root cc))).
  set (motion := Vector3_mul (AssemblyLinearVelocity (inst w (root cc))) Vector2D).
  set (w1 := map_fold (forEach_ball (name pc) origin motion) w (BallComponent_actives w)).
  assert (Hframe : players w1 = players w /\ characters w1 = characters w
                   /\ inst w1 = inst w
                   /\ BallComponent_actives w1 = BallComponent_actives w).
  { unfold w1.
    apply (map_fold_weak_ind
             (fun r _ => players r = players w /\ characters r = characters w
                         /\ inst r = inst w
                         /\ BallComponent_actives r = BallComponent_actives w));
      [ auto | ].
    intros i x m r _ Hr.
    destruct (forEach_ball_cases (name pc) origin motion i x r) as [-> | (b & _ & ->)];
      [ exact Hr | exact Hr ]. }
  destruct Hframe as (Hp1 & Hc1 & Hi1 & Ha1).
  unfold heartbeat. rewrite Hp1, Hp, Hc, Hc1, Hcc, Hi1, Ha1. fold origin motion.
  unfold w1 at 1 2. rewrite !map_fold_foldr. fold w1.
  apply forEach_again. intros e He. now apply forEach_settles.
Qed.

(** In both generations, running the Heartbeat handler a second time
    with nothing happening in between changes nothing: a ball is parried
    once and then debounced, and a ball that was not parried is decided as
    before.  In part_001 one run issues at most one tap of F. *)
Theorem heartbeat_debounces g player w :
  heartbeat g player (heartbeat g player w) = heartbeat g player w
  /\ (g = Gen2 ->
      input (heartbeat g player w) = input w
      \/ input (heartbeat g player w) = input w ++ [keypress 70; keyrelease 70]).
Proof.
  destruct g.
  - split; [ apply heartbeat_registry_once | discriminate ].
  - split; [ | intros _ ]; apply heartbeat_active_once.
Qed.

End Facts.
End ParryMore.

(** ** The cylinder and the sphere of part_001 *)

Module ZoneFacts.
Import Script SolverSpec SolverFacts ParrySpec Fixtures ComponentSpec.
Local Open Scope R_scope.
Implicit Types (w : World R).

(** part_001.  A ball that is inside the cylinder but not within RADIUS of
    the root (above or below it, near the rim) is not parried: the solver
    answers 0, which is below COMPENSATION. *)
Theorem contained_ball_not_parried (nm : string) (origin motion : Vector3 R)
    (ball : nat) (b : BallComponent) w :
  balls w !! ball = Some b ->
  let position := Vector3_sub (Position (inst w (ball_instance b))) origin in
  RADIUS Gen2 <= Magnitude position ->
  - (HEIGHT / 2) <= Y position <= HEIGHT / 2 ->
  X position * X position + Z position * Z position <= RADIUS Gen2 * RADIUS Gen2 ->
  parry_active nm origin motion ball w = w.
Proof.
  intros Hb position Hfar Hy Hxz. unfold parry_active. rewrite Hb. fold position.
  destruct (negb (canParry b)); [ reflexivity | ].
  destruct (negb (bool_decide (getTarget b = Some (AttrString nm)))); [ reflexivity | ].
  cmp (Magnitude position) (RADIUS (T:=R) Gen2) Hin; [ lra | ].
  rewrite evaluateCylindricalCollision_unfold. to_R.
  cmp_le (- (HEIGHT / 2)) (Y position) H1; [ | lra ].
  cmp_le (Y position) (HEIGHT (T:=R) / 2) H2; [ | lra ].
  cmp_le (Solver.sq (X position) + Solver.sq (Z position)) (Solver.sq (RADIUS (T:=R) Gen2)) H3;
    [ | unfold Solver.sq in H3; to_R; lra ].
  cbn [andb]. cmp 0 (COMPENSATION (T:=R)) Hc; [ reflexivity | ].
  unfold COMPENSATION in Hc; to_R. lra.
Qed.

Lemma contained_ball_not_parried_witness :
  (RADIUS Gen2 <= Magnitude (Vector3_sub (Position (inst hover 8)) rest)
   /\ - (HEIGHT / 2) <= Y (Vector3_sub (Position (inst hover 8)) rest) <= HEIGHT / 2)
  /\ parry_active "Alice" rest rest 0 hover = hover.
Proof.
  assert (Hpos : Vector3_sub (Position (inst hover 8)) rest
                 = {| X := 20 - 0; Y := 9 - 0; Z := 0 - 0 |}) by reflexivity.
  assert (Hfar : RADIUS Gen2 <= Magnitude (Vector3_sub (Position (inst hover 8)) rest)).
  { rewrite Hpos. unfold Magnitude, RADIUS, Solver.sq; to_R. cbn [X Y Z].
    rewrite <- (sqrt_square 21) at 1 by lra. apply sqrt_le_1_alt. lra. }
  assert (Hy : - (HEIGHT / 2) <= Y (Vector3_sub (Position (inst hover 8)) rest) <= HEIGHT / 2).
  { rewrite Hpos. unfold HEIGHT; to_R. cbn [Y]. lra. }
  split; [ split; assumption | ].
  apply (contained_ball_not_parried "Alice" rest rest 0 _ hover eq_refl Hfar Hy).
  change (ball_instance _) with 8%nat. rewrite Hpos. unfold RADIUS; to_R. cbn [X Z]. lra.
Defined.

End ZoneFacts.

(** ** Which event can run which handler *)

Module WiredFacts.
Import Script ScriptSpec ScriptFacts BallFacts FrameSpec FrameFacts ComponentSpec.
Import ComponentMore.
Section Facts.
Context {T : Type} `{Number T}.
Implicit Types (w : World T) (g : Generation).

Lemma wired_rewired w w' : wired w -> rewired w w' -> wired w'.
Proof.
  intros Hw Hr k c' Hk. destruct (Hr k c' Hk) as [Hok | (c & Hc & Hs & Hh)];
    [ exact Hok | ].
  rewrite <- Hs, <- Hh. exact (Hw k c Hc).
Qed.

Lemma rewired_refl w : rewired w w.
Proof. intros k c Hk. right. eauto. Qed.

Lemma rewired_trans w1 w2 w3 : rewired w1 w2 -> rewired w2 w3 -> rewired w1 w3.
Proof.
  intros H12 H23 k c3 Hk. destruct (H23 k c3 Hk) as [Hok | (c2 & Hc2 & Hs & Hh)];
    [ now left | ].
  destruct (H12 k c2 Hc2) as [Hok | (c1 & Hc1 & Hs1 & Hh1)].
  - left. now rewrite <- Hs, <- Hh.
  - right. exists c1. split; [ exact Hc1 | ]. split; congruence.
Qed.

Lemma rewired_same w w' : conns w' = conns w -> rewired w w'.
Proof. intros Hc k c Hk. right. exists c. rewrite <- Hc. auto. Qed.

Lemma rewired_foldl {B : Type} (f : World T -> B -> World T) (l : list B) :
  (forall w x, rewired w (f w x)) -> forall w, rewired w (foldl f w l).
Proof.
  intros Hf. induction l as [| x l IH]; intros w; cbn; [ apply rewired_refl | ].
  eapply rewired_trans; [ apply Hf | apply IH ].
Qed.

(** New connections, each to a signal its handler is written for. *)
Lemma rewired_app w w' (cs : list Connection) :
  conns w' = conns w ++ cs ->
  Forall (fun c => wired_to (signal c) (handler c) = true) cs ->
  rewired w w'.
Proof.
  intros Hc Hcs k c' Hk. rewrite Hc in Hk.
  apply lookup_app_Some in Hk as [Hk | [_ Hk]].
  - right. eauto.
  - left. rewrite Forall_forall in Hcs. apply Hcs.
    eapply list_elem_of_lookup_2. exact Hk.
Qed.

Lemma rewired_Connect s h w :
  wired_to s (h (length (conns w))) = true -> rewired w (Connect s h w).2.
Proof.
  intros Hs. apply (rewired_app _ _ [ {| signal := s; handler := h (length (conns w));
                                         Connected := true |} ]);
    [ reflexivity | ].
  constructor; [ exact Hs | constructor ].
Qed.

Lemma rewired_Disconnect c w : rewired w (Disconnect c w).
Proof.
  intros k c' Hk. right. rewrite Disconnect_conns in Hk.
  destruct (decide (c = k)) as [-> | Hne].
  - rewrite list_lookup_alter_eq in Hk. destruct (conns w !! k) as [c0 |]; [ | discriminate ].
    injection Hk as <-. eauto.
  - rewrite list_lookup_alter_ne in Hk by exact Hne. eauto.
Qed.

Lemma rewired_disposal w d : rewired w (disposal w d).
Proof.
  destruct d as [[] | | | |]; cbn; repeat case_match;
    try (apply rewired_same; reflexivity); try apply rewired_refl.
  apply rewired_Disconnect.
Qed.

Lemma rewired_disposals ds w : rewired w (foldl disposal w ds).
Proof. apply rewired_foldl. apply rewired_disposal. Qed.

Lemma rewired_new_BallComponent g instance w : rewired w (new_BallComponent g instance w).2.
Proof.
  destruct (new_BallComponent_made g instance w) as [_ HC].
  apply (rewired_app _ _ _ HC). repeat constructor.
Qed.

Lemma rewired_BallComponent_destroy this w : rewired w (BallComponent_destroy this w).
Proof.
  unfold BallComponent_destroy. repeat case_match; try apply rewired_refl.
  eapply rewired_trans; [ | apply rewired_disposals ]. now apply rewired_same.
Qed.

Lemma rewired_new_CharacterComponent instance w :
  rewired w (new_CharacterComponent instance w).2.
Proof.
  unfold new_CharacterComponent. repeat case_match; try apply rewired_refl.
  unfold Connect in *. simplify_eq.
  eapply (rewired_app _ _ [_; _]).
  - cbn. rewrite <- app_assoc. reflexivity.
  - repeat constructor.
Qed.

Lemma rewired_CharacterComponent_destroy this w :
  rewired w (CharacterComponent_destroy this w).
Proof.
  unfold CharacterComponent_destroy. repeat case_match; try apply rewired_refl.
  eapply rewired_trans; [ | apply rewired_disposals ]. now apply rewired_same.
Qed.

Lemma rewired_destroy_character_of this w : rewired w (destroy_character_of this w).
Proof.
  unfold destroy_character_of. case_match;
    [ apply rewired_CharacterComponent_destroy | apply rewired_refl ].
Qed.

Lemma rewired_onCharacterAdded this character w :
  rewired w (onCharacterAdded this character w).
Proof.
  unfold onCharacterAdded.
  pose proof (rewired_new_CharacterComponent character (destroy_character_of this w)) as Hn.
  destruct (new_CharacterComponent character (destroy_character_of this w)) as [[c | msg] w'];
    cbn [snd] in Hn.
  - eapply rewired_trans; [ apply rewired_destroy_character_of | ].
    eapply rewired_trans; [ exact Hn | now apply rewired_same ].
  - eapply rewired_trans; [ apply rewired_destroy_character_of | exact Hn ].
Qed.

Lemma rewired_onCharacterRemoving this w : rewired w (onCharacterRemoving this w).
Proof.
  unfold onCharacterRemoving.
  eapply rewired_trans; [ apply rewired_destroy_character_of | now apply rewired_same ].
Qed.

Lemma rewired_new_PlayerComponent instance w : rewired w (new_PlayerComponent instance w).2.
Proof.
  unfold new_PlayerComponent. lazy beta iota zeta.
  set (w0 := set_players _ w).
  set (wc := match Character (inst w0 instance) with
             | Some model => onCharacterAdded (length (players w)) model w0
             | None => w0
             end).
  assert (Hwc : rewired w wc).
  { unfold wc. apply (rewired_trans w w0); [ now apply rewired_same | ].
    case_match; [ apply rewired_onCharacterAdded | apply rewired_refl ]. }
  clearbody wc. unfold Connect, player_batch. lazy beta iota zeta. cbn [fst snd].
  eapply rewired_trans; [ exact Hwc | ].
  eapply (rewired_app _ _ [_; _]).
  - cbn. rewrite <- app_assoc. reflexivity.
  - repeat constructor.
Qed.

Lemma rewired_PlayerComponent_destroy this w : rewired w (PlayerComponent_destroy this w).
Proof.
  unfold PlayerComponent_destroy. repeat case_match; try apply rewired_refl.
  eapply rewired_trans; [ | apply rewired_disposals ]. now apply rewired_same.
Qed.

Lemma rewired_onBallAdded g instance w : rewired w (onBallAdded g instance w).
Proof.
  unfold onBallAdded. case_match; [ apply rewired_new_BallComponent | apply rewired_refl ].
Qed.

Lemma rewired_onBallContainerAdded container w :
  rewired w (onBallContainerAdded container w).
Proof.
  unfold onBallContainerAdded.
  eapply rewired_trans; [ | now apply rewired_Connect ].
  apply rewired_foldl. intros; apply rewired_onBallAdded.
Qed.

Lemma rewired_invoke callback child w : rewired w (invoke callback child w).
Proof.
  unfold invoke. destruct callback.
  eapply rewired_trans; [ | apply rewired_onBallContainerAdded ]. now apply rewired_same.
Qed.

Lemma rewired_bindToChild parent nm callback w :
  rewired w (bindToChild parent nm callback w).
Proof.
  unfold bindToChild. case_match; [ apply rewired_invoke | now apply rewired_Connect ].
Qed.

Lemma rewired_bindToChild_handler connection nm callback child w :
  rewired w (bindToChild_handler connection nm callback child w).
Proof.
  unfold bindToChild_handler. case_match; [ | apply rewired_refl ].
  eapply rewired_trans; [ apply rewired_Disconnect | apply rewired_invoke ].
Qed.

Lemma rewired_runHandler g h arg w : rewired w (runHandler g h arg w).
Proof.
  destruct h;
    try solve [ apply rewired_same; apply frame_runHandler; destruct g; blinded ].
  all: destruct arg; cbn [runHandler]; repeat case_match;
    auto using rewired_refl, rewired_BallComponent_destroy,
      rewired_CharacterComponent_destroy, rewired_onCharacterAdded,
      rewired_onCharacterRemoving, rewired_onBallAdded, rewired_new_PlayerComponent,
      rewired_PlayerComponent_destroy, rewired_bindToChild_handler.
  apply rewired_new_PlayerComponent.
Qed.

Lemma rewired_fire g s arg w : rewired w (fire (runHandler g) s arg w).
Proof.
  unfold fire. apply rewired_foldl. intros w0 c. repeat case_match;
    first [ apply rewired_runHandler | apply rewired_refl ].
Qed.

Lemma rewired_step g e w : rewired w (step g e w).
Proof.
  destruct e; cbn [step]; repeat case_match;
    repeat first
      [ apply rewired_fire
      | apply rewired_refl
      | (apply rewired_same; reflexivity)
      | (eapply rewired_trans; [ | apply rewired_fire ]) ].
Qed.

Lemma rewired_steps g es w : rewired w (steps g es w).
Proof. unfold steps. apply rewired_foldl. intros; apply rewired_step. Qed.


Lemma rewired_ComponentController_init g w :
  rewired w (ComponentController_init g w).2.
Proof.
  unfold ComponentController_init. destruct g.
  - destruct (WaitForChild (Workspace w) "Balls" w) as [folder |];
      [ | apply rewired_refl ].
    cbn [snd].
    eapply rewired_trans; [ | now apply rewired_Connect ].
    eapply rewired_trans; [ | now apply rewired_Connect ].
    eapply rewired_trans;
      [ | apply rewired_foldl; intros; apply rewired_new_PlayerComponent ].
    eapply rewired_trans; [ | now apply rewired_Connect ].
    apply rewired_foldl. intros; apply rewired_onBallAdded.
  - cbn [snd].
    eapply rewired_trans; [ | now apply rewired_Connect ].
    eapply rewired_trans; [ | now apply rewired_Connect ].
    eapply rewired_trans;
      [ | apply rewired_foldl; intros; apply rewired_new_PlayerComponent ].
    apply rewired_bindToChild.
Qed.

Lemma rewired_main g w : rewired w (main g w).2.
Proof.
  unfold main. case_match; [ apply rewired_refl | ].
  set (w1 := match g with Gen1 => _ | Gen2 => _ end).
  assert (H1 : rewired w w1).
  { unfold w1. destruct g; now apply rewired_same. }
  clearbody w1.
  pose proof (rewired_ComponentController_init g w1) as Hc.
  destruct (ComponentController_init g w1) as [[[] | msg] w2]; cbn [snd] in *;
    [ | eapply rewired_trans; eassumption ].
  eapply rewired_trans; [ exact H1 | ].
  eapply rewired_trans; [ exact Hc | ].
  unfold ParryController_init.
  eapply rewired_trans; [ | now apply rewired_Connect ].
  destruct g; [ apply rewired_refl | ].
  unfold VariableController_init.
  eapply rewired_trans; [ | now apply rewired_Connect ]. now apply rewired_same.
Qed.

Lemma wired_fresh w : conns w = [] -> wired w.
Proof. intros Hc k c Hk. rewrite Hc in Hk. discriminate. Qed.

(** Whatever the script is given to run, each of its connections joins a
    handler to a signal it is written for. *)
Lemma wired_run g es w : conns w = [] -> wired (steps g es (main g w).2).
Proof.
  intros Hc. eapply wired_rewired; [ apply wired_fresh, Hc | ].
  eapply rewired_trans; [ apply rewired_main | apply rewired_steps ].
Qed.

Section Reading.
Context {A : Type} (p : World T -> A).

(** A signal that fires changes only what the handlers written for it
    can write. *)
Lemma frame_fire g s arg w :
  wired w ->
  (forall h, wired_to s h = true -> Frame (writes g h) p) ->
  p (fire (runHandler g) s arg w) = p w.
Proof.
  intros Hw Hs. unfold fire.
  generalize (seq 0 (length (conns w))). intros l.
  enough (HI : forall w0 : World T, wired w0 -> p w0 = p w ->
            p (foldl
                 (fun (w1 : World T) c =>
                    match conns w1 !! c with
                    | Some k =>
                        if Connected k && bool_decide (signal k = s)
                        then runHandler g (handler k) arg w1 else w1
                    | None => w1
                    end) w0 l) = p w)
    by (apply HI; [ exact Hw | reflexivity ]).
  induction l as [| c l IH]; intros w0 Hw0 H0; cbn [foldl]; [ exact H0 | ].
  destruct (conns w0 !! c) as [k |] eqn:Hk; [ | now apply IH ].
  destruct (Connected k && bool_decide (signal k = s)) eqn:Hon; [ | now apply IH ].
  apply andb_prop in Hon as [_ Hsig]. apply bool_decide_eq_true in Hsig.
  apply IH.
  - eapply wired_rewired; [ exact Hw0 | apply rewired_runHandler ].
  - rewrite frame_runHandler; [ exact H0 | ].
    apply Hs. rewrite <- Hsig. exact (Hw0 c k Hk).
Qed.

End Reading.

Lemma input_step g e w : wired w -> e <> E_Heartbeat -> input (step g e w) = input w.
Proof.
  intros Hw He.
  assert (HF : forall s, s <> Heartbeat ->
            forall h, wired_to s h = true -> Frame (writes g h) (@input T)).
  { intros s Hs h Hh. destruct h, s; try discriminate Hh; try congruence;
      destruct g; blinded. }
  destruct e; try congruence; cbn [step].
  all: try reflexivity.
  all: try (rewrite frame_fire; [ reflexivity | exact Hw | apply HF; discriminate ]).
  all: try (cbn; rewrite frame_fire; [ reflexivity | exact Hw | apply HF; discriminate ]).
Qed.

Lemma gravity_step g e w :
  wired w -> (forall i v, e <> E_SetAttribute i "Gravity" v) ->
  gravity (step g e w) = gravity w.
Proof.
  intros Hw He.
  assert (HF : forall s, (forall i, s <> AttributeChanged i "Gravity") ->
            forall h, wired_to s h = true -> Frame (writes g h) (@gravity T)).
  { intros s Hs h Hh. destruct h, s; try discriminate Hh;
      try (destruct g; blinded).
    cbn in Hh. apply String.eqb_eq in Hh. subst. now destruct (Hs i). }
  destruct e; cbn [step].
  all: try reflexivity.
  all: try (rewrite frame_fire; [ reflexivity | exact Hw | apply HF; discriminate ]).
  all: try (cbn; rewrite frame_fire; [ reflexivity | exact Hw | apply HF; discriminate ]).
  rewrite frame_fire; [ reflexivity | exact Hw | ].
  apply HF. intros j Hj. injection Hj as -> ->. now apply (He j v).
Qed.

(** The F key is touched only on a frame: from a world with nothing
    connected, however the script has run since it was loaded, an event
    that is not a [Heartbeat] sends no key event. *)
Theorem keys_only_on_Heartbeat g es e w :
  conns w = [] -> e <> E_Heartbeat ->
  input (step g e (steps g es (main g w).2)) = input (steps g es (main g w).2).
Proof. intros Hc He. apply input_step; [ now apply wired_run | exact He ]. Qed.

(** The script's [gravity] is refreshed only when an attribute named
    "Gravity" changes: from a world with nothing connected, however the
    script has run since it was loaded, no other event changes it, the
    engine changing [Workspace.Gravity] included. *)
Theorem gravity_only_on_attribute g es e w :
  conns w = [] -> (forall i v, e <> E_SetAttribute i "Gravity" v) ->
  gravity (step g e (steps g es (main g w).2)) = gravity (steps g es (main g w).2).
Proof. intros Hc He. apply gravity_step; [ now apply wired_run | exact He ]. Qed.

End Facts.
End WiredFacts.

(** ** Concrete runs *)

Module Runs.
Import Script ScriptSpec Fixtures ScriptFacts SoundFacts LifecycleFacts BallFacts BindFacts.

Example loaded_ok : (main Gen2 here).1 = Ok "Initialized Successfully".
Proof. vm_compute. reflexivity. Qed.

Lemma guard_refuses_second_load_witness :
  G here !! "bladeball" <> Some true
  /\ main Gen1 (steps Gen2 [E_Heartbeat] loaded)
     = (Throw already_running, steps Gen2 [E_Heartbeat] loaded).
Proof.
  assert (Hg : G here !! "bladeball" <> Some true) by (vm_compute; discriminate).
  split; [ exact Hg | ].
  exact (proj2 (proj2 (guard_refuses_second_load Gen2 Gen1 here) Hg [E_Heartbeat])).
Defined.

(** After the respawn the player holds the live CharacterComponent 1, and
    [CharacterComponent.active] has no entry, live or not. *)
Lemma respawn_registers_nothing :
  getCharacter 0 respawned = Some 1
  /\ CharacterComponent_live 1 respawned = true
  /\ CharacterComponent_live 0 respawned = false
  /\ registered_characters respawned = []
  /\ size (CharacterComponent_active respawned) = 0.
Proof. vm_compute. repeat split; reflexivity. Qed.

Lemma sound_here : sound here.
Proof. apply sound_fresh; reflexivity. Qed.

Lemma destroy_returns_witness :
  sound here
  /\ exists b, balls (steps Gen2 [E_ChildAdded 0 9] loaded) !! 0 = Some b
               /\ is_Some (Bin.destroy (ball_bin b)).
Proof.
  split; [ exact sound_here | ].
  destruct (destroy_returns Gen2 [E_ChildAdded 0 9] here sound_here) as (Hballs & _).
  fold loaded in Hballs.
  destruct (balls (steps Gen2 [E_ChildAdded 0 9] loaded) !! 0) as [b |] eqn:Hb;
    [ | vm_compute in Hb; discriminate ].
  exists b. split; [ reflexivity | exact (Hballs 0 b Hb) ].
Defined.

Lemma respawn_one_live_character_witness :
  (sound loaded
   /\ FindFirstChild 5 "HumanoidRootPart" loaded = Some 6
   /\ FindFirstChild 5 "Humanoid" loaded = Some 7
   /\ getCharacter 0 loaded = Some 0)
  /\ getCharacter 0 (onCharacterAdded 0 5 (onCharacterRemoving 0 loaded)) = Some 1
  /\ CharacterComponent_live 1 (onCharacterAdded 0 5 (onCharacterRemoving 0 loaded)) = true
  /\ CharacterComponent_live 0 (onCharacterAdded 0 5 (onCharacterRemoving 0 loaded)) = false.
Proof.
  assert (Hs : sound loaded) by (apply sound_main, sound_here).
  assert (Hr : FindFirstChild 5 "HumanoidRootPart" loaded = Some 6) by (vm_compute; reflexivity).
  assert (Hh : FindFirstChild 5 "Humanoid" loaded = Some 7) by (vm_compute; reflexivity).
  assert (Hc : getCharacter 0 loaded = Some 0) by (vm_compute; reflexivity).
  split; [ auto | ].
  destruct (players loaded !! 0) as [p |] eqn:Hp; [ | vm_compute in Hp; discriminate ].
  assert (Hp0 : character p = Some 0) by (unfold getCharacter in Hc; now rewrite Hp in Hc).
  destruct (respawn_one_live_character 0 5 loaded p 6 7 Hs Hp Hr Hh)
    as (H1 & H2 & _ & H4 & _).
  split; [ exact H1 | ]. split; [ exact H2 | ].
  destruct (CharacterComponent_live 0 (onCharacterAdded 0 5 (onCharacterRemoving 0 loaded)))
    eqn:Hlive; [ | reflexivity ].
  destruct (H4 0 ltac:(vm_compute; discriminate) Hlive) as [_ Hne]. contradiction.
Defined.

Lemma active_ball_is_live_witness :
  (balls here = [] /\ conns here = [] /\ BallComponent_active here = None
   /\ BallComponent_active (moves tracking here) = Some 0)
  /\ BallComponent_live 0 (moves tracking here) = true
  /\ exists b, balls (moves tracking here) !! 0 = Some b /\ isActive b = true.
Proof.
  assert (Ha : BallComponent_active (moves tracking here) = Some 0)
    by (vm_compute; reflexivity).
  split; [ repeat split; exact Ha | ].
  exact (active_ball_is_live here tracking 0 eq_refl eq_refl eq_refl Ha).
Defined.

Lemma none_waiting_here : none_waiting here.
Proof. intros k c Hk. vm_compute in Hk. discriminate. Qed.


Lemma bindToChild_first_match_witness :
  FindFirstChild 0 "Balls" here = None
  /\ invoked (steps Gen2 (E_ChildAdded 0 <$> [5; 9; 9])
                (bindToChild 0 "Balls" onBallContainerAdded_cb here))
     = invoked here
       ++ match find (fun c => String.eqb (Name (inst here c)) "Balls") [5; 9; 9] with
          | Some c => [(onBallContainerAdded_cb, c)]
          | None => []
          end.
Proof.
  assert (Hfind : FindFirstChild 0 "Balls" here = None) by (vm_compute; reflexivity).
  split; [ exact Hfind | ].
  apply (bindToChild_first_match 0 "Balls" onBallContainerAdded_cb here [5; 9; 9]
           none_waiting_here); [ | exact Hfind ].
  intros k c Hk. vm_compute in Hk. discriminate.
Defined.

Example binding_fires_on_Balls :
  invoked (steps Gen2 [E_ChildAdded 0 5; E_ChildAdded 0 9; E_ChildAdded 0 9]
             (bindToChild 0 "Balls" onBallContainerAdded_cb here))
  = [(onBallContainerAdded_cb, 9)].
Proof. vm_compute. reflexivity. Qed.

(** The local player's next character model lacks its parts (instance 9
    has no HumanoidRootPart): the constructor throws and the player is left
    holding no character. *)
Example respawn_without_root :
  (new_CharacterComponent 9 (onCharacterRemoving 0 loaded)).1 = Throw "Root part not found"
  /\ getCharacter 0 (steps Gen2 [E_CharacterRemoving 1; E_CharacterAdded 1 9] loaded) = None.
Proof. vm_compute. split; reflexivity. Qed.

(** [updateActive] is private and runs on components that are not
    destroyed.  On a destroyed one whose instance still has realBall = true
    it would make [BallComponent.active] a destroyed component. *)
Example updateActive_after_destroy :
  let w := updateActive Gen2 0 (moves [M_construct 8; M_destroy 0] here) in
  BallComponent_active (moves [M_construct 8; M_destroy 0] here) = None
  /\ BallComponent_active w = Some 0
  /\ BallComponent_live 0 w = false.
Proof. vm_compute. repeat split; reflexivity. Qed.

(** *** The solvers at binary64 numbers *)

(** Scenario A of the description, p = (0,0,5), v = (0,0,-10), R = 2:
    the sphere solver returns 60/200, the double nearest to 0.3. *)
Example scenario_A_binary64 :
  Solver.evaluateIntercept (T:=float) (lit 0) (lit 0) (lit 5) (lit 0) (lit 0) (lit (-10)) (lit 2)
  = Some (lit 60 / lit 200)%num.
Proof. vm_compute. reflexivity. Qed.

(** The input of [SolverFacts.evaluateCylindricalCollision_before_min],
    with y = 5/4 and ay = -2: the cylinder solver returns -1.5 in binary64
    as it does over the reals. *)
Example cap_before_min_binary64 :
  Solver.evaluateCylindricalCollision (T:=float)
    (lit 0) (lit 5 / lit 4)%num (lit 0) (lit 1) (lit 0) (lit 0) (lit (-2)) (lit 10) (lit 2)
  = Some (- (lit 3 / lit 2))%num.
Proof. vm_compute. reflexivity. Qed.

(** Without gravity (ay = 0) the cap candidates are quotients by zero.
    For p = (0,20,30), v = (0,-1,-1), R = H = 21 the lower candidate is
    2/0 = infinity, the horizontal distance there is not a number, the
    test [radius_sq > R_sq] fails, and infinity is returned. *)
Example cap_without_gravity_binary64 :
  Solver.evaluateCylindricalCollision (T:=float)
    (lit 0) (lit 20) (lit 30) (lit 0) (lit (-1)) (lit (-1)) (lit 0) (lit 21) (lit 21)
  = Some PrimFloat.infinity.
Proof. vm_compute. reflexivity. Qed.

End Runs.

(** ** More runs in the place *)

Module MoreRuns.
Import Script ScriptSpec Fixtures ScriptFacts SoundFacts FrameSpec FrameFacts.
Import ComponentSpec ComponentMore WiredFacts.

Lemma handler_writes_witness :
  Frame (writes Gen2 H_onPlayerAdded) (@input float)
  /\ input (runHandler Gen2 H_onPlayerAdded (Some 1) here) = input here.
Proof.
  assert (HF : Frame (writes Gen2 H_onPlayerAdded) (@input float)) by blinded.
  split; [ exact HF | ].
  exact (handler_writes (@input float) Gen2 H_onPlayerAdded (Some 1) here HF).
Defined.

Lemma active_ball_round_trip_witness :
  (forall b, BallComponent_active here = Some b -> b < length (balls here))
  /\ BallComponent_active (new_BallComponent Gen2 8 here).2 = Some 0
  /\ BallComponent_active (BallComponent_destroy 0 (new_BallComponent Gen2 8 here).2) = None.
Proof.
  assert (Hold : forall b, BallComponent_active here = Some b -> b < length (balls here)).
  { intros b Hb. vm_compute in Hb. discriminate. }
  split; [ exact Hold | ].
  pose proof (active_ball_round_trip 8 here Hold) as Hrt. cbv zeta in Hrt.
  destruct Hrt as (H1 & H2 & _).
  split.
  - etransitivity; [ exact H1 | vm_compute; reflexivity ].
  - etransitivity; [ exact H2 | vm_compute; reflexivity ].
Defined.


Lemma keys_only_on_Heartbeat_witness :
  (conns here = [] /\ E_ChildAdded 0 9 <> @E_Heartbeat float)
  /\ input (step Gen2 (E_ChildAdded 0 9) (steps Gen2 [E_CharacterRemoving 1] loaded))
     = input (steps Gen2 [E_CharacterRemoving 1] loaded).
Proof.
  assert (Hc : conns here = []) by reflexivity.
  assert (He : E_ChildAdded 0 9 <> @E_Heartbeat float) by discriminate.
  split; [ auto | ].
  exact (keys_only_on_Heartbeat Gen2 [E_CharacterRemoving 1] (E_ChildAdded 0 9) here Hc He).
Defined.

(** The engine changes [Workspace.Gravity] from 196 to 50: the script
    goes on with 196. *)
Lemma gravity_only_on_attribute_witness :
  (conns here = []
   /\ forall i v, E_Gravity (lit 50) <> @E_SetAttribute float i "Gravity" v)
  /\ gravity (step Gen2 (E_Gravity (lit 50)) (steps Gen2 [] loaded)) = lit 196
  /\ Workspace_Gravity (step Gen2 (E_Gravity (lit 50)) (steps Gen2 [] loaded)) = lit 50.
Proof.
  assert (Hc : conns here = []) by reflexivity.
  assert (He : forall i v, E_Gravity (lit 50) <> @E_SetAttribute float i "Gravity" v)
    by discriminate.
  split; [ auto | ]. split; [ | vm_compute; reflexivity ].
  etransitivity;
    [ exact (gravity_only_on_attribute Gen2 [] (E_Gravity (lit 50)) here Hc He) | ].
  vm_compute. reflexivity.
Defined.

End MoreRuns.
